(** * ps2_spi_sniff: the 1P1C ring buffer, the capture path and the
      two-node synchronisation, embedded from the Arduino sketch.

    The sketch targets an AVR board: [int] and [unsigned int] have the same
    width [w] (16 on the board).  Unsigned arithmetic wraps modulo [2^w] and
    is written out with [to_unsigned]; the conversion of an unsigned value to
    [int] is the two's complement one ([to_int]).  Signed [int] variables
    (log positions, backlog counts) are mathematical integers: signed
    overflow is undefined in C, and the ranges the lemmas work on are far
    below [INT_MAX].  The C operator [%] truncates towards zero and is
    [Z.rem]; array accesses outside the array are undefined and are the
    [None] of the embedding. *)

From Stdlib Require Import ZArith Lia.
From Stdlib.Strings Require Import Byte.
From Stdlib.Strings Require String.
From stdpp Require Import base option list relations.

Local Open Scope Z_scope.

(** ** Memory: byte arrays indexed by C integers *)

Definition load (arr : list byte) (i : Z) : option byte :=
  if decide (0 <= i) then arr !! Z.to_nat i else None.

Definition store (arr : list byte) (i : Z) (v : byte) : option (list byte) :=
  if decide (0 <= i < Z.of_nat (length arr))
  then Some (<[Z.to_nat i := v]> arr)
  else None.

(** ** Event system: the lock-free ring buffer *)

Record ring : Type := Ring {
  buff : list byte;     (* byte* buff *)
  reads : Z;            (* unsigned int *reads *)
  writes : Z            (* unsigned int *writes *)
}.

Section Width.

(** Width in bits of [int] and [unsigned int]. *)
Variable w : Z.

Definition UINT_MAX : Z := 2 ^ w - 1.

(** Conversion to [unsigned int]. *)
Definition to_unsigned (x : Z) : Z := x mod 2 ^ w.

(** Conversion to [int]. *)
Definition to_int (x : Z) : Z :=
  let u := x mod 2 ^ w in
  if u <? 2 ^ (w - 1) then u else u - 2 ^ w.

(** The first lines of [buff_write]:
<<
    unsigned int items;
    int diff = *writes - *reads;
    if (diff < 0) { items = UINT_MAX - diff; } else { items = diff; }
>>  *)
Definition buff_items (rd wr : Z) : Z :=
  let diff := to_int (to_unsigned (wr - rd)) in
  if diff <? 0
  then to_unsigned (UINT_MAX - to_unsigned diff)
  else to_unsigned diff.

Definition buff_write (item : byte) (capacity : Z) (r : ring)
  : option (bool * ring) :=
  let items := buff_items (reads r) (writes r) in
  if items =? to_unsigned capacity then Some (false, r)
  else
    let tail := Z.land (writes r) (to_unsigned (capacity - 1)) in
    b ← store (buff r) tail item;
    Some (true, {| buff := b;
                   reads := reads r;
                   writes := to_unsigned (writes r + 1) |}).

(** [item] is the cell the caller passes by address; the result carries
    its content after the call. *)
Definition buff_read (item : byte) (capacity : Z) (r : ring)
  : option (bool * byte * ring) :=
  if writes r =? reads r then Some (false, item, r)
  else
    let head := Z.land (reads r) (to_unsigned (capacity - 1)) in
    v ← load (buff r) head;
    Some (true, v, {| buff := buff r;
                      reads := to_unsigned (reads r + 1);
                      writes := writes r |}).

(** Number of unread items: the difference of the counters modulo the
    counter width. *)
Definition unread (r : ring) : Z := (writes r - reads r) mod 2 ^ w.

(** Calls of the one producer and of the one consumer. *)
Inductive call : Type :=
| Write (item : byte)
| Read (item : byte).

Definition do_call (capacity : Z) (c : call) (r : ring) : option ring :=
  match c with
  | Write item => snd <$> buff_write item capacity r
  | Read item => snd <$> buff_read item capacity r
  end.

(** States reached from an empty buffer of [capacity] slots by calls of
    [buff_write] and [buff_read], in any order. *)
Inductive reachable (capacity : Z) : ring → Prop :=
| reach_empty b c :
    Z.of_nat (length b) = capacity → 0 <= c < 2 ^ w →
    reachable capacity (Ring b c c)
| reach_call c r r' :
    reachable capacity r → do_call capacity c r = Some r' →
    reachable capacity r'.

End Width.

(** *** A call of the main program with the interrupt handler in between

    Each buffer has the main program on one end and an interrupt handler on
    the other.  The handler runs to its end; the main program's call can be
    interrupted between any two of its accesses to the shared counters and
    slots. *)

Inductive side : Type := Producer | Consumer.

(** Where the main program is inside its call. *)
Inductive progress : Type :=
| Idle
| WriteSnap (item : byte) (rd : Z)   (* [buff_write] has loaded [*reads] *)
| WriteRoom (item : byte)            (* ... found [items != capacity] *)
| WriteStored                        (* ... did [buff[tail] = item] *)
| ReadSnap (wr : Z)                  (* [buff_read] has loaded [*writes] *)
| ReadSome                           (* ... found [*writes != *reads] *)
| ReadLoaded (v : byte).             (* ... did [*item = buff[head]] *)

Inductive micro_write (w capacity : Z) : progress * ring → progress * ring → Prop :=
| write_load item r :
    micro_write w capacity (Idle, r) (WriteSnap item (reads r), r)
| write_full item rd r :
    buff_items w rd (writes r) = to_unsigned w capacity →
    micro_write w capacity (WriteSnap item rd, r) (Idle, r)
| write_room item rd r :
    buff_items w rd (writes r) ≠ to_unsigned w capacity →
    micro_write w capacity (WriteSnap item rd, r) (WriteRoom item, r)
| write_store item r b :
    store (buff r) (Z.land (writes r) (to_unsigned w (capacity - 1))) item = Some b →
    micro_write w capacity (WriteRoom item, r) (WriteStored, Ring b (reads r) (writes r))
| write_incr r :
    micro_write w capacity (WriteStored, r)
      (Idle, Ring (buff r) (reads r) (to_unsigned w (writes r + 1))).

Inductive micro_read (w capacity : Z) : progress * ring → progress * ring → Prop :=
| read_load r :
    micro_read w capacity (Idle, r) (ReadSnap (writes r), r)
| read_empty wr r :
    wr = reads r →
    micro_read w capacity (ReadSnap wr, r) (Idle, r)
| read_some wr r :
    wr ≠ reads r →
    micro_read w capacity (ReadSnap wr, r) (ReadSome, r)
| read_slot r v :
    load (buff r) (Z.land (reads r) (to_unsigned w (capacity - 1))) = Some v →
    micro_read w capacity (ReadSome, r) (ReadLoaded v, r)
| read_incr v r :
    micro_read w capacity (ReadLoaded v, r)
      (Idle, Ring (buff r) (to_unsigned w (reads r + 1)) (writes r)).

(** One step of the pair: an access of the main program, or a whole call of
    the handler on the other end. *)
Inductive interleaved (w capacity : Z) (main : side)
  : progress * ring → progress * ring → Prop :=
| main_writes s s' :
    main = Producer → micro_write w capacity s s' → interleaved w capacity main s s'
| main_reads s s' :
    main = Consumer → micro_read w capacity s s' → interleaved w capacity main s s'
| handler_reads p item r res :
    main = Producer → buff_read w item capacity r = Some res →
    interleaved w capacity main (p, r) (p, snd res)
| handler_writes p item r res :
    main = Consumer → buff_write w item capacity r = Some res →
    interleaved w capacity main (p, r) (p, snd res).

(** The buffers of the sketch. *)
Definition SPI_BUFFER_K : Z := 5.
Definition SPI_BUFFER_SIZE : Z := Z.shiftl 1 SPI_BUFFER_K.

Definition spi_in_read (item : byte) (spi_in : ring) :=
  buff_read 16 item SPI_BUFFER_SIZE spi_in.

Definition spi_in_write (item : byte) (spi_in : ring) :=
  buff_write 16 item SPI_BUFFER_SIZE spi_in.

(** ** Index arithmetic *)

Definition unsynched_head (unsynched log_tail log_size : Z) : Z :=
  Z.rem ((log_tail - unsynched - 1) + 2 * log_size) log_size.

Definition unreported_head (unreported unsynched log_tail log_size : Z) : Z :=
  let uhead := unsynched_head unsynched log_tail log_size in
  Z.rem ((uhead - unreported) + log_size) log_size.

(** The same two functions with the limits of the board's [int] written
    out: an intermediate value outside the 16-bit range, or a [log_size] of
    0 under [%], is undefined.  The definitions above are these wherever
    these are defined ([checked_unsynched_head], [checked_unreported_head]). *)
Module Checked.

Definition INT_MIN : Z := - 32768.
Definition INT_MAX : Z := 32767.

Definition int (x : Z) : option Z :=
  if decide (INT_MIN <= x <= INT_MAX) then Some x else None.

Definition rem (a b : Z) : option Z :=
  if decide (b = 0) then None else int (Z.rem a b).

Definition unsynched_head (unsynched log_tail log_size : Z) : option Z :=
  d ← int (log_tail - unsynched);
  e ← int (d - 1);
  f ← int (2 * log_size);
  g ← int (e + f);
  rem g log_size.

Definition unreported_head (unreported unsynched log_tail log_size : Z) : option Z :=
  uhead ← unsynched_head unsynched log_tail log_size;
  d ← int (uhead - unreported);
  e ← int (d + log_size);
  rem e log_size.

End Checked.

(** ** The node: logs, backlog counts, and what it does to the outside *)

Inductive id : Type := alpha | beta.

Definition id_eqb (a b : id) : bool :=
  match a, b with
  | alpha, alpha | beta, beta => true
  | _, _ => false
  end.

(** Indicator pins.  The sketch gives numbers to the first three; the
    others are used without a definition and stay names. *)
Inductive led : Type :=
| DEADLOCKED_LED
| ALPHA_LED
| SLOWSYNC_LED
| SLOWDUMP_LED
| UNSYNCHRONIZED_LED
| SYNCHRONIZATION_LED.

Definition HIGH : bool := true.
Definition LOW : bool := false.

Definition LOG_SIZE : Z := 128.
Definition I2C_SLAVE_ADDRESS : Z := 42.

(** Calls into the Arduino libraries that the outside can see. *)
Inductive event : Type :=
| DigitalWrite (pin : led) (level : bool)
| WireRequestFrom (address quantity : Z)
| WireBeginTransmission (address : Z)
| WireRead (b : byte)
| WireWrite (b : byte)
| WireEndTransmission
| SerialPrintHex (b : byte)
| SerialPrintSlash.

Record node : Type := Node {
  our_id : id;
  our_log : list byte;
  their_log : list byte;
  our_log_head : Z;
  our_log_tail : Z;
  their_log_head : Z;
  their_log_tail : Z;
  bytes_unsynched : Z;
  bytes_unreported : Z;
  wire_rx : list byte     (* bytes Wire holds: Wire.available(), Wire.read() *)
}.

Definition set_our_log (v : list byte) (st : node) : node :=
  Node (our_id st) v (their_log st) (our_log_head st) (our_log_tail st)
       (their_log_head st) (their_log_tail st) (bytes_unsynched st)
       (bytes_unreported st) (wire_rx st).

Definition set_their_log (v : list byte) (st : node) : node :=
  Node (our_id st) (our_log st) v (our_log_head st) (our_log_tail st)
       (their_log_head st) (their_log_tail st) (bytes_unsynched st)
       (bytes_unreported st) (wire_rx st).

Definition set_our_log_tail (v : Z) (st : node) : node :=
  Node (our_id st) (our_log st) (their_log st) (our_log_head st) v
       (their_log_head st) (their_log_tail st) (bytes_unsynched st)
       (bytes_unreported st) (wire_rx st).

Definition set_their_log_tail (v : Z) (st : node) : node :=
  Node (our_id st) (our_log st) (their_log st) (our_log_head st)
       (our_log_tail st) (their_log_head st) v (bytes_unsynched st)
       (bytes_unreported st) (wire_rx st).

Definition set_bytes_unsynched (v : Z) (st : node) : node :=
  Node (our_id st) (our_log st) (their_log st) (our_log_head st)
       (our_log_tail st) (their_log_head st) (their_log_tail st) v
       (bytes_unreported st) (wire_rx st).

Definition set_bytes_unreported (v : Z) (st : node) : node :=
  Node (our_id st) (our_log st) (their_log st) (our_log_head st)
       (our_log_tail st) (their_log_head st) (their_log_tail st)
       (bytes_unsynched st) v (wire_rx st).

Definition set_wire_rx (v : list byte) (st : node) : node :=
  Node (our_id st) (our_log st) (their_log st) (our_log_head st)
       (our_log_tail st) (their_log_head st) (their_log_tail st)
       (bytes_unsynched st) (bytes_unreported st) v.

(** What running a piece of the sketch on a node gives. *)
Inductive outcome (A : Type) : Type :=
| Done (a : A) (st : node) (out : list event)
| Undefined       (* an array was accessed outside its bounds *)
| Spinning.       (* a loop was still running when the fuel ran out *)

Arguments Done {A} a st out.
Arguments Undefined {A}.
Arguments Spinning {A}.

Definition M (A : Type) : Type := node → outcome A.

#[export] Instance M_ret : MRet M := λ A a st, Done a st [].

(** The events [out] happened before [o]. *)
Definition after {A : Type} (out : list event) (o : outcome A) : outcome A :=
  match o with
  | Done a st out' => Done a st (out ++ out')
  | Undefined => Undefined
  | Spinning => Spinning
  end.

#[export] Instance M_bind : MBind M := λ A B f m st,
  match m st with
  | Done a st1 out1 => after out1 (f a st1)
  | Undefined => Undefined
  | Spinning => Spinning
  end.

Definition gets {A : Type} (f : node → A) : M A := λ st, Done (f st) st [].
Definition modify (f : node → node) : M unit := λ st, Done tt (f st) [].
Definition emit (e : event) : M unit := λ st, Done tt st [e].
Definition defined {A : Type} (o : option A) : M A := λ st,
  match o with
  | Some a => Done a st []
  | None => Undefined
  end.

Definition digitalWrite (pin : led) (level : bool) : M unit :=
  emit (DigitalWrite pin level).

(** [while (cond) body], the locals the loop updates being [a]. *)
Fixpoint while {A : Type} (fuel : nat) (cond : A → M bool) (body : A → M A)
  (a : A) : M A :=
  match fuel with
  | O => λ _, Spinning
  | S fuel' =>
      c ← cond a;
      if c : bool then a' ← body a; while fuel' cond body a' else mret a
  end.

(** *** The Wire library, as far as the sketch uses it *)

Definition Wire_available : M Z := gets (λ st, Z.of_nat (length (wire_rx st))).

(** [Wire.read()] gives -1 when nothing is left; the sketch stores the
    result in a byte, and calls it only after [Wire.available() > 0]. *)
Definition Wire_read : M byte := λ st,
  match wire_rx st with
  | b :: rest => Done b (set_wire_rx rest st) [WireRead b]
  | [] => Done xff st [WireRead xff]
  end.

(** [Wire.requestFrom]: the peer's answer [delivered] fills the buffer. *)
Definition Wire_requestFrom (address quantity : Z) (delivered : list byte)
  : M unit :=
  emit (WireRequestFrom address quantity);;
  modify (set_wire_rx delivered).

(** ** Capture path: the SPI interrupt handler *)

(** [SPDR] is the SPI data register, the byte that just arrived. *)
Definition ISR (SPDR : byte) : M unit :=
  head ← gets our_log_head;
  tail ← gets our_log_tail;
  if head =? Z.rem (tail + 1) LOG_SIZE then
    digitalWrite SLOWSYNC_LED HIGH
  else
    log ← gets our_log;
    log' ← defined (store log tail SPDR);
    modify (set_our_log log');;
    modify (set_our_log_tail (tail + 1));;
    t ← gets our_log_tail;
    modify (set_our_log_tail (Z.rem t LOG_SIZE));;
    u ← gets bytes_unsynched;
    modify (set_bytes_unsynched (u + 1)).

(** ** Synchronisation *)

(** The [if]/[else] inside both receive loops: one [Wire.read()], stored at
    the tail of [their_log] when there is room. *)
Definition their_log_put : M unit :=
  head ← gets their_log_head;
  tail ← gets their_log_tail;
  if negb (head =? Z.rem (tail + 1) LOG_SIZE) then
    b ← Wire_read;
    log ← gets their_log;
    log' ← defined (store log tail b);
    modify (set_their_log log');;
    modify (set_their_log_tail (tail + 1));;
    t ← gets their_log_tail;
    modify (set_their_log_tail (Z.rem t LOG_SIZE))
  else
    Wire_read;;
    digitalWrite SLOWDUMP_LED HIGH.

(** [for (int i = 0; i < bytes_unsynched; i++)
       Wire.write(our_log[(uhead + i) % LOG_SIZE]);] *)
Definition transmit (fuel : nat) (uhead : Z) : M Z :=
  while fuel
    (λ i, u ← gets bytes_unsynched; mret (i <? u))
    (λ i, log ← gets our_log;
          b ← defined (load log (Z.rem (uhead + i) LOG_SIZE));
          emit (WireWrite b);;
          mret (i + 1))
    0.

(** The round when no interrupt comes while it runs; the round with its
    interrupt points is [Irq.alpha_synchronize] below.  [delivered] is what
    the peer sends on the request. *)
Definition alpha_synchronize (fuel : nat) (delivered : list byte) : M Z :=
  me ← gets our_id;
  if negb (id_eqb me alpha) then mret 0 else
  u ← gets bytes_unsynched;
  if u =? 0 then mret 0 else
  Wire_requestFrom I2C_SLAVE_ADDRESS u delivered;;
  digitalWrite DEADLOCKED_LED HIGH;;
  while fuel
    (λ _, a ← Wire_available; u ← gets bytes_unsynched; mret (a <? u))
    (λ _, mret tt) tt;;
  bytes_synched ←
    while fuel
      (λ _, a ← Wire_available; mret (0 <? a))
      (λ n, their_log_put;; mret (n + 1))
      0;
  digitalWrite DEADLOCKED_LED LOW;;
  u ← gets bytes_unsynched;
  tail ← gets our_log_tail;
  let uhead := unsynched_head u tail LOG_SIZE in
  emit (WireBeginTransmission I2C_SLAVE_ADDRESS);;
  transmit fuel uhead;;
  emit WireEndTransmission;;
  u ← gets bytes_unsynched;
  (if negb (u =? bytes_synched)
   then digitalWrite UNSYNCHRONIZED_LED HIGH else mret tt);;
  u ← gets bytes_unsynched;
  modify (set_bytes_unsynched (u - bytes_synched));;
  r ← gets bytes_unreported;
  modify (set_bytes_unreported (r + bytes_synched));;
  mret bytes_synched.

(** The loop header of the sketch reads [i < bytes_unsynched, i++]; it is
    taken as the loop of [alpha_synchronize]. *)
Definition beta_synchronize_tx (fuel : nat) : M unit :=
  u ← gets bytes_unsynched;
  tail ← gets our_log_tail;
  let uhead := unsynched_head u tail LOG_SIZE in
  transmit fuel uhead;;
  mret tt.

Definition beta_synchronize_rx (fuel : nat) (bytes_synched : Z) : M unit :=
  while fuel
    (λ _, a ← Wire_available; mret (0 <? a))
    (λ _, their_log_put)
    tt;;
  u ← gets bytes_unsynched;
  (if negb (u =? bytes_synched)
   then digitalWrite UNSYNCHRONIZED_LED HIGH else mret tt);;
  u ← gets bytes_unsynched;
  modify (set_bytes_unsynched (u - bytes_synched));;
  r ← gets bytes_unreported;
  modify (set_bytes_unreported (r + bytes_synched)).

(** What the Wire library does when the master's bytes have arrived: it
    holds them and calls the handler registered with [Wire.onReceive],
    passing their number. *)
Definition Wire_onReceive (fuel : nat) (delivered : list byte) : M unit :=
  modify (set_wire_rx delivered);;
  beta_synchronize_rx fuel (Z.of_nat (length delivered)).

(** ** The initiator's round with the capture interrupt enabled

    [alpha_synchronize] runs in the main program with interrupts enabled:
    the capture handler can run between any two of its steps.  An interrupt
    point stands before and after every access to what the handler writes
    ([our_log], [our_log_tail], [bytes_unsynched], all volatile and read
    anew each time) and every call the outside can see, so also between the
    load and the store of [bytes_unsynched -= bytes_synched]; points with
    only locals or data the handler leaves alone between them are one
    point, and an access to one [int] is taken as undivided.  A schedule
    gives, for each point the round comes to, in order, the bytes that
    arrived there; an exhausted schedule means no further interrupt.  The
    responder's functions are callbacks of the Wire interrupt and run with
    interrupts off: as above.

    [alpha_synchronize] above is this round under the empty schedule
    ([alpha_synchronize_uninterrupted]). *)

Module Irq.

Definition schedule : Type := list (list byte).

(** The handler, once for each byte that arrived. *)
Fixpoint interrupts (arrived : list byte) : M unit :=
  match arrived with
  | [] => mret tt
  | SPDR :: later => ISR SPDR;; interrupts later
  end.

(** A point where the handler can run. *)
Definition interrupt (s : schedule) : M schedule :=
  match s with
  | [] => mret []
  | arrived :: later => interrupts arrived;; mret later
  end.

Definition their_log_put (s : schedule) : M schedule :=
  head ← gets their_log_head;
  tail ← gets their_log_tail;
  if negb (head =? Z.rem (tail + 1) LOG_SIZE) then
    b ← Wire_read;
    log ← gets their_log;
    log' ← defined (store log tail b);
    modify (set_their_log log');;
    modify (set_their_log_tail (tail + 1));;
    s ← interrupt s;
    t ← gets their_log_tail;
    modify (set_their_log_tail (Z.rem t LOG_SIZE));;
    mret s
  else
    Wire_read;;
    s ← interrupt s;
    digitalWrite SLOWDUMP_LED HIGH;;
    mret s.

(** The two arguments of [unsynched_head(bytes_unsynched, our_log_tail,
    LOG_SIZE)] are loaded in an order the language leaves open:
    [tail_first] says which. *)
Definition load_span (tail_first : bool) (s : schedule) : M (Z * Z * schedule) :=
  if tail_first then
    tail ← gets our_log_tail;
    s ← interrupt s;
    u ← gets bytes_unsynched;
    mret (u, tail, s)
  else
    u ← gets bytes_unsynched;
    s ← interrupt s;
    tail ← gets our_log_tail;
    mret (u, tail, s).

Definition transmit (fuel : nat) (uhead : Z) (s : schedule) : M (Z * schedule) :=
  while fuel
    (λ l, u ← gets bytes_unsynched; mret (fst l <? u))
    (λ l, s ← interrupt (snd l);
          log ← gets our_log;
          b ← defined (load log (Z.rem (uhead + fst l) LOG_SIZE));
          s ← interrupt s;
          emit (WireWrite b);;
          s ← interrupt s;
          mret (fst l + 1, s))
    (0, s).

Definition alpha_synchronize (tail_first : bool) (fuel : nat)
  (delivered : list byte) (s : schedule) : M (Z * schedule) :=
  me ← gets our_id;
  if negb (id_eqb me alpha) then mret (0, s) else
  s ← interrupt s;
  u ← gets bytes_unsynched;
  if u =? 0 then mret (0, s) else
  s ← interrupt s;
  u ← gets bytes_unsynched;
  s ← interrupt s;
  Wire_requestFrom I2C_SLAVE_ADDRESS u delivered;;
  s ← interrupt s;
  digitalWrite DEADLOCKED_LED HIGH;;
  s ← interrupt s;
  waited ←
    while fuel
      (λ _, a ← Wire_available; u ← gets bytes_unsynched; mret (a <? u))
      (λ l, s ← interrupt (snd l); mret (tt, s))
      (tt, s);
  s ← interrupt (snd waited);
  received ←
    while fuel
      (λ _, a ← Wire_available; mret (0 <? a))
      (λ l, s ← interrupt (snd l);
            s ← their_log_put s;
            s ← interrupt s;
            mret (fst l + 1, s))
      (0, s);
  let bytes_synched := fst received in
  digitalWrite DEADLOCKED_LED LOW;;
  s ← interrupt (snd received);
  span ← load_span tail_first s;
  let uhead := unsynched_head (fst (fst span)) (snd (fst span)) LOG_SIZE in
  s ← interrupt (snd span);
  emit (WireBeginTransmission I2C_SLAVE_ADDRESS);;
  s ← interrupt s;
  sent ← transmit fuel uhead s;
  s ← interrupt (snd sent);
  emit WireEndTransmission;;
  s ← interrupt s;
  u ← gets bytes_unsynched;
  s ← interrupt s;
  (if negb (u =? bytes_synched)
   then digitalWrite UNSYNCHRONIZED_LED HIGH else mret tt);;
  s ← interrupt s;
  u ← gets bytes_unsynched;
  s ← interrupt s;
  modify (set_bytes_unsynched (u - bytes_synched));;
  s ← interrupt s;
  r ← gets bytes_unreported;
  s ← interrupt s;
  modify (set_bytes_unreported (r + bytes_synched));;
  mret (bytes_synched, s).

End Irq.

(** ** Reporter: the second half of [loop] *)

(** The body of the [for] loop; the locals are [i] and [bytes_reported]. *)
Definition report_pair (start : Z) (locals : Z * Z) : M (Z * Z) :=
  let '(i, bytes_reported) := locals in
  me ← gets our_id;
  (if id_eqb me alpha then
     ours ← gets our_log;
     b ← defined (load ours (Z.rem (start + i) LOG_SIZE));
     emit (SerialPrintHex b);;
     emit SerialPrintSlash;;
     theirs ← gets their_log;
     c ← defined (load theirs (Z.rem (start + i) LOG_SIZE));
     emit (SerialPrintHex c)
   else
     theirs ← gets their_log;
     c ← defined (load theirs (Z.rem (start + i) LOG_SIZE));
     emit (SerialPrintHex c);;
     emit SerialPrintSlash;;
     ours ← gets our_log;
     b ← defined (load ours (Z.rem (start + i) LOG_SIZE));
     emit (SerialPrintHex b));;
  mret (i + 1, bytes_reported + 1).

Definition report (fuel : nat) : M unit :=
  r ← gets bytes_unreported;
  if 0 <? r then
    u ← gets bytes_unsynched;
    tail ← gets our_log_tail;
    let start := unreported_head r u tail LOG_SIZE in
    while fuel
      (λ '(i, _), r ← gets bytes_unreported; mret (i <? r))
      (report_pair start)
      (0, 0);;
    mret tt
  else mret tt.

Definition loop (fuel : nat) (delivered : list byte) : M unit :=
  me ← gets our_id;
  (if id_eqb me alpha then
     digitalWrite SYNCHRONIZATION_LED HIGH;;
     alpha_synchronize fuel delivered;;
     digitalWrite SYNCHRONIZATION_LED LOW
   else mret tt);;
  report fuel.

(** ** A node's life: boot, then interrupts, main-loop passes and callbacks *)

(** The globals are zero-initialised; [setup] reads the role from a pin. *)
Definition boot (me : id) : node :=
  Node me (replicate (Z.to_nat LOG_SIZE) x00) (replicate (Z.to_nat LOG_SIZE) x00)
       0 0 0 0 0 0 [].

(** A history is a sequence of whole steps.  The handler and the two
    callbacks run in interrupt context, so nothing falls inside them; a byte
    that arrives inside a pass of the main program is not in these
    histories (for the round, [Irq.alpha_synchronize] has it). *)
Inductive action : Type :=
| Capture (SPDR : byte)             (* a byte arrived on the SPI bus *)
| MainLoop (delivered : list byte)  (* one pass of [loop] *)
| OnRequest                         (* the master asks for our bytes *)
| OnReceive (delivered : list byte) (* the master's bytes arrived *).

Definition perform (fuel : nat) (a : action) : M unit :=
  match a with
  | Capture SPDR => ISR SPDR
  | MainLoop delivered => loop fuel delivered
  | OnRequest => beta_synchronize_tx fuel
  | OnReceive delivered => Wire_onReceive fuel delivered
  end.

Fixpoint perform_all (fuel : nat) (acts : list action) : M unit :=
  match acts with
  | [] => mret tt
  | a :: rest => perform fuel a;; perform_all fuel rest
  end.

(** Counting in a history: bytes that arrived on the bus, and how often an
    event occurred. *)
Definition is_capture (a : action) : bool :=
  match a with Capture _ => true | _ => false end.

Definition captures (acts : list action) : Z :=
  Z.of_nat (length (List.filter is_capture acts)).

Definition is_slow_sync (e : event) : bool :=
  match e with DigitalWrite SLOWSYNC_LED true => true | _ => false end.

Definition is_slow_dump (e : event) : bool :=
  match e with DigitalWrite SLOWDUMP_LED true => true | _ => false end.

Definition is_wire_read (e : event) : bool :=
  match e with WireRead _ => true | _ => false end.

Definition is_unsynchronized (e : event) : bool :=
  match e with DigitalWrite UNSYNCHRONIZED_LED true => true | _ => false end.

Definition occurrences (p : event → bool) (out : list event) : Z :=
  Z.of_nat (length (List.filter p out)).

(** ** The earlier handler, as spi_sniff.ino has it *)

Module SpiSniffIno.

Record capture_state : Type := CaptureState {
  our_log : list byte;
  our_log_pos : Z;        (* used by the handler, declared nowhere *)
  bytes_unsynced : Z      (* volatile byte *)
}.

(** [bytes_unsynced++] on a byte. *)
Definition byte_incr (x : Z) : Z := (x + 1) mod 256.

Definition ISR (SPDR : byte) (st : capture_state)
  : option (capture_state * list event) :=
  let '(pos, out) :=
    if our_log_pos st =? LOG_SIZE
    then (0, [DigitalWrite SLOWSYNC_LED HIGH])
    else (our_log_pos st, []) in
  log ← store (our_log st) pos SPDR;
  let unsynced := byte_incr (bytes_unsynced st) in
  let unsynced := if LOG_SIZE <? unsynced then LOG_SIZE else unsynced in
  Some (CaptureState log (pos + 1) unsynced, out).

End SpiSniffIno.

(** ** The head computation on bytes, as spi_sniff.ino has it *)

(** [byte unsynced_head(byte unsynced, byte log_pos, byte log_size)]: the
    arguments are bytes, the arithmetic is done on [int], and the result is
    converted back to a byte.  A [log_size] of 0 divides by zero. *)
Definition unsynced_head (unsynced log_pos log_size : Z) : option Z :=
  if log_size =? 0 then None
  else Some (Z.rem ((log_pos - unsynced - 1) + 2 * log_size) log_size mod 256).

(** ** The dump sketch: fill a buffer from the bus, print it when it is full *)

Module Dump.
Import String.

Definition buff_size : Z := 512.
Definition INT_MAX : Z := 32767.

Inductive serial : Type :=
| Serial_println_HEX (b : byte)
| Serial_print (s : string)
| Serial_println_DEC (n : Z).

Record sketch : Type := Sketch {
  buff : list byte;          (* volatile byte buff[512] *)
  pos : Z;                   (* volatile int *)
  buffer_full : bool;        (* volatile boolean *)
  flushes : Z;               (* int *)
  SPCR : Z                   (* the SPI control register, 8 bits *)
}.

(** [ISR(SPI_STC_vect)] of the dump sketch. *)
Definition ISR (SPDR : byte) (st : sketch) : option sketch :=
  if pos st <? buff_size then
    buff' ← store (buff st) (pos st) SPDR;
    Some (Sketch buff' (pos st + 1) (buffer_full st) (flushes st) (SPCR st))
  else
    Some (Sketch (buff st) (pos st) true (flushes st) (SPCR st)).

(** [for (int i = 0; i < buff_size; i++) Serial.println(buff[i], HEX);]
    with [todo] passes left from [i] on. *)
Fixpoint println_from (todo : nat) (i : Z) (b : list byte) : option (list serial) :=
  match todo with
  | O => Some []
  | S todo' =>
      x ← load b i;
      rest ← println_from todo' (i + 1) b;
      Some (Serial_println_HEX x :: rest)
  end.

Definition banner : string := "buffer flush ".

(** [loop] of the dump sketch; [SPIE] is the position of the interrupt
    enable bit in [SPCR].  [flushes++] on [INT_MAX] overflows. *)
Definition loop (SPIE : Z) (st : sketch) : option (sketch * list serial) :=
  if buffer_full st then
    let spcr := Z.land (SPCR st) (Z.lnot (Z.shiftl 1 SPIE)) mod 256 in
    lines ← println_from (Z.to_nat buff_size) 0 (buff st);
    if flushes st =? INT_MAX then None else
    Some (Sketch (buff st) 0 false (flushes st + 1)
                 (Z.lor spcr (Z.shiftl 1 SPIE) mod 256),
          lines ++ [Serial_print banner; Serial_println_DEC (flushes st)])
  else Some (st, []).

(** The handler run once for each byte of a burst. *)
Fixpoint burst (bs : list byte) (st : sketch) : option sketch :=
  match bs with
  | [] => Some st
  | b :: rest => st' ← ISR b st; burst rest st'
  end.

End Dump.

(** ** Vocabulary of the properties *)

(** What every reachable ring satisfies. *)
Definition ring_ok (w capacity : Z) (r : ring) : Prop :=
  Z.of_nat (length (buff r)) = capacity ∧
  0 <= reads r < 2 ^ w ∧
  0 <= writes r < 2 ^ w ∧
  unread w r <= capacity.

(** What holds of the ring while the main program is inside a call. *)
Definition progress_ok (w capacity : Z) (main : side) (p : progress) (r : ring) : Prop :=
  match p with
  | Idle => True
  | WriteSnap _ rd =>
      main = Producer ∧ unread w r <= (writes r - rd) mod 2 ^ w <= capacity
  | WriteRoom _ | WriteStored =>
      main = Producer ∧ unread w r < capacity
  | ReadSnap wr =>
      main = Consumer ∧ 0 <= wr < 2 ^ w ∧ (wr = reads r ∨ 1 <= unread w r)
  | ReadSome | ReadLoaded _ =>
      main = Consumer ∧ 1 <= unread w r
  end.

(** A log and a position in it that can be used as an index. *)
Definition log_ok (log : list byte) (pos : Z) : Prop :=
  Z.of_nat (length log) = LOG_SIZE ∧ 0 <= pos < LOG_SIZE.

(** Both logs of a node can be indexed at head and tail. *)
Definition node_ok (st : node) : Prop :=
  log_ok (our_log st) (our_log_tail st) ∧
  log_ok (our_log st) (our_log_head st) ∧
  log_ok (their_log st) (their_log_tail st) ∧
  log_ok (their_log st) (their_log_head st).

(** Bytes a log holds between its head and its tail. *)
Definition held (head tail : Z) : Z := (tail - head) mod LOG_SIZE.

(** What receiving leaves alone: everything but [their_log], its tail and
    the Wire buffer. *)
Definition receive_frame (st st' : node) : Prop :=
  our_id st' = our_id st ∧
  our_log st' = our_log st ∧
  our_log_head st' = our_log_head st ∧
  our_log_tail st' = our_log_tail st ∧
  their_log_head st' = their_log_head st ∧
  bytes_unsynched st' = bytes_unsynched st ∧
  bytes_unreported st' = bytes_unreported st.

(** Events that are neither a fault indicator nor a [Wire.read()]. *)
Definition quiet (e : event) : Prop :=
  is_slow_sync e = false ∧ is_slow_dump e = false ∧
  is_wire_read e = false ∧ is_unsynchronized e = false.

(** The backlog invariant of a node: the logs can be indexed, and no more
    bytes wait for synchronisation than [our_log] holds. *)
Definition backlog_ok (st : node) : Prop :=
  node_ok st ∧
  bytes_unsynched st <= held (our_log_head st) (our_log_tail st).

(** A stretch of a node's life from [st] to [st'] with events [out], during
    which [arrived] bytes came in on the bus: the invariant still holds, the
    heads did not move, and each log holds what it held plus what came in
    less what the indicators report as dropped. *)
Definition accounted (arrived : Z) (st st' : node) (out : list event) : Prop :=
  backlog_ok st' ∧
  our_log_head st' = our_log_head st ∧
  their_log_head st' = their_log_head st ∧
  held (our_log_head st') (our_log_tail st')
    = held (our_log_head st) (our_log_tail st)
      + arrived - occurrences is_slow_sync out ∧
  held (their_log_head st') (their_log_tail st')
    = held (their_log_head st) (their_log_tail st)
      + occurrences is_wire_read out - occurrences is_slow_dump out.

(** More fuel does not change a result. *)
Definition monotone {A : Type} (m : nat → M A) : Prop :=
  ∀ fuel fuel' st a st' out,
    (fuel <= fuel')%nat → m fuel st = Done a st' out → m fuel' st = Done a st' out.

(** ** Sample nodes *)

(** A node whose log is full: 127 bytes captured since boot. *)
Definition full_node : node :=
  Node alpha (replicate 127 x11 ++ [x00]) (replicate 128 x00) 0 127 0 0 127 0 [].

(** A node that has captured the bytes 11 and 22 since boot. *)
Definition two_captured (me : id) : node :=
  Node me (x11 :: x22 :: replicate 126 x00) (replicate 128 x00) 0 2 0 0 2 0 [].

(** A responder with two paired bytes to report. *)
Definition two_unreported : node :=
  Node beta (x11 :: x22 :: replicate 126 x00) (xaa :: xbb :: replicate 126 x00)
       0 2 0 2 0 2 [].

(** The initiator after two captures and a main-loop pass in which the
    peer answered two bytes. *)
Definition synced_history : list action :=
  [Capture x11; Capture x22; MainLoop [xaa; xbb]].

Definition synced_node : node :=
  Node alpha (x11 :: x22 :: replicate 126 x00) (xaa :: xbb :: replicate 126 x00)
       0 2 0 2 0 2 [].

Definition synced_trace : list event :=
  [DigitalWrite SYNCHRONIZATION_LED HIGH;
   WireRequestFrom 42 2; DigitalWrite DEADLOCKED_LED HIGH;
   WireRead xaa; WireRead xbb; DigitalWrite DEADLOCKED_LED LOW;
   WireBeginTransmission 42; WireWrite x00; WireWrite x11; WireEndTransmission;
   DigitalWrite SYNCHRONIZATION_LED LOW;
   SerialPrintHex x00; SerialPrintSlash; SerialPrintHex x00;
   SerialPrintHex x11; SerialPrintSlash; SerialPrintHex xaa].

(** ** Vocabulary of the further properties *)

#[export] Instance byte_inhabited : Inhabited byte := populate x00.

(** The unread items of a ring, oldest first: the slots from [reads] on. *)
Definition contents (w capacity : Z) (r : ring) : list byte :=
  (λ i : nat, buff r !!! Z.to_nat ((reads r + Z.of_nat i) mod capacity))
    <$> seq 0 (Z.to_nat (unread w r)).

(** A producer writing a run of items, and a consumer reading [n] times
    into a cell that holds [x00] before each call. *)
Fixpoint write_all (w capacity : Z) (items : list byte) (r : ring)
  : option (list bool * ring) :=
  match items with
  | [] => Some ([], r)
  | item :: rest =>
      res ← buff_write w item capacity r;
      more ← write_all w capacity rest (snd res);
      Some (fst res :: fst more, snd more)
  end.

Fixpoint read_all (w capacity : Z) (n : nat) (r : ring)
  : option (list (bool * byte) * ring) :=
  match n with
  | O => Some ([], r)
  | S n' =>
      res ← buff_read w x00 capacity r;
      more ← read_all w capacity n' (snd res);
      Some (fst res :: fst more, snd more)
  end.

(** What the main program holds in the middle of a read: the byte it has
    loaded is the oldest unread item. *)
Definition progress_sees (w capacity : Z) (p : progress) (r : ring) : Prop :=
  match p with
  | ReadLoaded v => ∃ rest, contents w capacity r = v :: rest
  | _ => True
  end.

(** The bytes that arrived on the bus during a history, in order. *)
Definition captured_bytes (acts : list action) : list byte :=
  omap (λ a, match a with Capture b => Some b | _ => None end) acts.

(** A log as it is after boot once the bytes [bs] have been offered to it:
    the first [LOG_SIZE - 1] of them, then zeros. *)
Definition log_of (bs : list byte) : list byte :=
  take (Z.to_nat (LOG_SIZE - 1)) bs
  ++ replicate (Z.to_nat LOG_SIZE - length (take (Z.to_nat (LOG_SIZE - 1)) bs)) x00.

(** [n] consecutive slots of a log from [start] on, around the ring. *)
Definition log_span (log : list byte) (start n : Z) : list byte :=
  (λ j : nat, log !!! Z.to_nat ((start + Z.of_nat j) mod LOG_SIZE))
    <$> seq 0 (Z.to_nat n).

(** The bytes a trace hands to [Wire.write]. *)
Definition wire_written (out : list event) : list byte :=
  omap (λ e, match e with WireWrite b => Some b | _ => None end) out.

(** What the reporter prints for paired spans of the two logs. *)
Definition report_line (me : id) (ours theirs : byte) : list event :=
  match me with
  | alpha => [SerialPrintHex ours; SerialPrintSlash; SerialPrintHex theirs]
  | beta => [SerialPrintHex theirs; SerialPrintSlash; SerialPrintHex ours]
  end.

Definition report_lines (me : id) (ours theirs : list byte) : list event :=
  concat (zip_with (report_line me) ours theirs).

(** The node on the other side of the same pairs: the other role, the two
    logs exchanged, positions and counts the same. *)
Definition mirror (st : node) : node :=
  Node (match our_id st with alpha => beta | beta => alpha end)
       (their_log st) (our_log st)
       (our_log_head st) (our_log_tail st) (their_log_head st) (their_log_tail st)
       (bytes_unsynched st) (bytes_unreported st) (wire_rx st).

(** The books of a node that has been offered the bytes [bs] since boot:
    the capture log is written once, front to back, and every stored byte is
    counted exactly once, as waiting for synchronisation or for the report. *)
Definition books_ok (bs : list byte) (st : node) : Prop :=
  backlog_ok st ∧
  our_log_head st = 0 ∧
  our_log st = log_of bs ∧
  our_log_tail st = Z.of_nat (length (take (Z.to_nat (LOG_SIZE - 1)) bs)) ∧
  bytes_unsynched st + bytes_unreported st = our_log_tail st.

(** A round as the responder lives it: a burst of bytes on the bus, the
    initiator's request, and the initiator's bytes. *)
Definition responder_round (round : list byte * list byte) : list action :=
  (Capture <$> fst round) ++ [OnRequest; OnReceive (snd round)].

Definition responder_rounds (rounds : list (list byte * list byte)) : list action :=
  concat (responder_round <$> rounds).

(** The bytes of all the bursts, in order. *)
Definition bursts (rounds : list (list byte * list byte)) : list byte :=
  concat (fst <$> rounds).

(** The bytes a trace took from [Wire.read]. *)
Definition wire_reads (out : list event) : list byte :=
  omap (λ e, match e with WireRead b => Some b | _ => None end) out.

(** The peer's side of the books: [their_log] after the bytes [rs] have been
    read off the wire since boot. *)
Definition their_books_ok (rs : list byte) (st : node) : Prop :=
  their_log_head st = 0 ∧
  their_log st = log_of rs ∧
  their_log_tail st = Z.of_nat (length (take (Z.to_nat (LOG_SIZE - 1)) rs)).

(** A result of the round as written above, as a result of the round with
    interrupts that used up no schedule. *)
Definition uninterrupted {A : Type} (o : outcome A) : outcome (A * Irq.schedule) :=
  match o with
  | Done a st out => Done (a, []) st out
  | Undefined => Undefined
  | Spinning => Spinning
  end.

(** What the receive loop does with the bytes [delivered] when [stored]
    bytes were read off the wire since boot: it reads each, and lights the
    slow-dump indicator for each that finds [their_log] holding
    [LOG_SIZE - 1] bytes. *)
Fixpoint receive_events (stored : nat) (delivered : list byte) : list event :=
  match delivered with
  | [] => []
  | b :: rest =>
      WireRead b
      :: (if decide (127 <= stored)%nat then [DigitalWrite SLOWDUMP_LED HIGH] else [])
      ++ receive_events (S stored) rest
  end.

(** What the capture handler needs of a node: its own log can be indexed at
    head and tail. *)
Definition ours_ok (st : node) : Prop :=
  log_ok (our_log st) (our_log_tail st) ∧ log_ok (our_log st) (our_log_head st).

(** Bytes that [our_log] holds and neither count has. *)
Definition uncounted (st : node) : Z :=
  held (our_log_head st) (our_log_tail st) - bytes_unsynched st - bytes_unreported st.

(** From [st] to [st'] by captures only: the handler touches [our_log], its
    tail and [bytes_unsynched], and counts what it stores. *)
Definition captured (st st' : node) : Prop :=
  ours_ok st' ∧
  our_id st' = our_id st ∧ our_log_head st' = our_log_head st ∧
  their_log st' = their_log st ∧ their_log_head st' = their_log_head st ∧
  their_log_tail st' = their_log_tail st ∧
  bytes_unreported st' = bytes_unreported st ∧ wire_rx st' = wire_rx st ∧
  uncounted st' = uncounted st ∧
  bytes_unsynched st <= bytes_unsynched st'.

(** From [st] to [st'] inside a round of the initiator, before its
    bookkeeping: captures and the receive loop. *)
Definition round_frame (st st' : node) : Prop :=
  node_ok st' ∧
  our_id st' = our_id st ∧ our_log_head st' = our_log_head st ∧
  their_log_head st' = their_log_head st ∧
  bytes_unreported st' = bytes_unreported st ∧
  uncounted st' = uncounted st ∧
  bytes_unsynched st <= bytes_unsynched st'.

(** The result and the state a run ends with. *)
Definition final {A : Type} (o : outcome A) : option (A * node) :=
  match o with
  | Done a st _ => Some (a, st)
  | _ => None
  end.

(** The bytes a run hands to [Wire.write], when it ends. *)
Definition wire_written_by {A : Type} (o : outcome A) : option (list byte) :=
  match o with
  | Done _ _ out => Some (wire_written out)
  | _ => None
  end.

(** * Properties *)

(** ** Machine integers *)

Lemma land_upper (a b : Z) : 0 <= b → Z.land a b <= b.
Proof.
  intros Hb.
  assert (H : Z.ldiff b (Z.land a b) = b - Z.land a b).
  { symmetry. apply Z.sub_nocarry_ldiff.
    apply Z.bits_inj'. intros n Hn.
    rewrite Z.ldiff_spec, Z.land_spec, Z.bits_0.
    destruct (Z.testbit a n), (Z.testbit b n); reflexivity. }
  assert (0 <= Z.ldiff b (Z.land a b)) by (apply Z.ldiff_nonneg; auto).
  lia.
Qed.

Lemma land_mask_pow2 (a k : Z) : 0 <= k → Z.land a (2 ^ k - 1) = a mod 2 ^ k.
Proof.
  intros Hk. rewrite <- Z.land_ones by assumption.
  now rewrite Z.ones_equiv, <- Z.sub_1_r.
Qed.

Lemma load_in_bounds (arr : list byte) (i : Z) :
  0 <= i < Z.of_nat (length arr) → ∃ v, load arr i = Some v ∧ arr !! Z.to_nat i = Some v.
Proof.
  intros Hi. unfold load. rewrite decide_True by lia.
  destruct (lookup_lt_is_Some_2 arr (Z.to_nat i)) as [v Hv]; [lia|].
  exists v. now rewrite Hv.
Qed.

Lemma store_in_bounds (arr : list byte) (i : Z) (v : byte) :
  0 <= i < Z.of_nat (length arr) → store arr i v = Some (<[Z.to_nat i := v]> arr).
Proof. intros Hi. unfold store. now rewrite decide_True. Qed.

Section WidthFacts.

Variable w : Z.
Hypothesis w_pos : 0 < w.

Lemma pow_width_split : 2 ^ w = 2 * 2 ^ (w - 1).
Proof. rewrite <- Z.pow_succ_r by lia. f_equal. lia. Qed.

Lemma pow_half_pos : 0 < 2 ^ (w - 1).
Proof. apply Z.pow_pos_nonneg; lia. Qed.

Lemma to_unsigned_range (x : Z) : 0 <= to_unsigned w x < 2 ^ w.
Proof. unfold to_unsigned. apply Z.mod_pos_bound. pose proof pow_width_split. pose proof pow_half_pos. lia. Qed.

Lemma to_unsigned_small (x : Z) : 0 <= x < 2 ^ w → to_unsigned w x = x.
Proof. intros H. unfold to_unsigned. now apply Z.mod_small. Qed.

(** Below half the counter range the count [buff_write] computes is the
    difference of the counters modulo [2^w]. *)
Lemma buff_items_low (rd wr : Z) :
  (wr - rd) mod 2 ^ w < 2 ^ (w - 1) →
  buff_items w rd wr = (wr - rd) mod 2 ^ w.
Proof.
  intros Hlow. pose proof pow_width_split. pose proof pow_half_pos.
  assert (0 <= (wr - rd) mod 2 ^ w < 2 ^ w) by (apply Z.mod_pos_bound; lia).
  unfold buff_items, to_int, to_unsigned. cbv zeta.
  rewrite Z.mod_mod by lia.
  destruct (Z.ltb_spec ((wr - rd) mod 2 ^ w) (2 ^ (w - 1))); [|lia].
  destruct (Z.ltb_spec ((wr - rd) mod 2 ^ w) 0); [lia|].
  apply Z.mod_mod; lia.
Qed.

(** From half the range on, the [diff < 0] branch runs and gives the
    complement of the difference. *)
Lemma buff_items_high (rd wr : Z) :
  2 ^ (w - 1) <= (wr - rd) mod 2 ^ w →
  buff_items w rd wr = 2 ^ w - 1 - (wr - rd) mod 2 ^ w.
Proof.
  intros Hhigh. pose proof pow_width_split. pose proof pow_half_pos.
  assert (0 <= (wr - rd) mod 2 ^ w < 2 ^ w) by (apply Z.mod_pos_bound; lia).
  unfold buff_items, to_int, to_unsigned, UINT_MAX. cbv zeta.
  rewrite Z.mod_mod by lia.
  destruct (Z.ltb_spec ((wr - rd) mod 2 ^ w) (2 ^ (w - 1))); [lia|].
  destruct (Z.ltb_spec ((wr - rd) mod 2 ^ w - 2 ^ w) 0); [|lia].
  replace (((wr - rd) mod 2 ^ w - 2 ^ w) mod 2 ^ w) with ((wr - rd) mod 2 ^ w).
  - apply Z.mod_small. lia.
  - rewrite <- (Z.mod_mod (wr - rd) (2 ^ w)) at 1 by lia.
    rewrite <- (Z_mod_plus_full ((wr - rd) mod 2 ^ w - 2 ^ w) 1 (2 ^ w)).
    f_equal. lia.
Qed.

End WidthFacts.

(** ** The ring buffer *)

Lemma capacity_as_unsigned (w k : Z) :
  0 <= k < w - 1 → to_unsigned w (2 ^ k) = 2 ^ k ∧ to_unsigned w (2 ^ k - 1) = 2 ^ k - 1 ∧ 0 < 2 ^ k.
Proof.
  intros Hk.
  assert (0 < 2 ^ k) by (apply Z.pow_pos_nonneg; lia).
  assert (2 ^ k < 2 ^ w) by (apply Z.pow_lt_mono_r; lia).
  repeat split; try apply to_unsigned_small; lia.
Qed.

(** C3.  With a capacity that is a power of two, as the buffers of the
    sketch have it: when the count [buff_write] computes equals the
    capacity the call returns false and leaves buffer and counters as they
    were; otherwise it puts the item into slot [writes mod capacity], adds
    one to [writes] (an unsigned int) and returns true. *)
Theorem buff_write_full_or_stored (w k : Z) (item : byte) (r : ring) :
  0 <= k < w - 1 →
  Z.of_nat (length (buff r)) = 2 ^ k →
  (buff_items w (reads r) (writes r) = 2 ^ k →
     buff_write w item (2 ^ k) r = Some (false, r)) ∧
  (buff_items w (reads r) (writes r) ≠ 2 ^ k →
     buff_write w item (2 ^ k) r =
       Some (true, Ring (<[Z.to_nat (writes r mod 2 ^ k) := item]> (buff r))
                        (reads r)
                        ((writes r + 1) mod 2 ^ w))).
Proof.
  intros Hk Hlen.
  destruct (capacity_as_unsigned w k Hk) as (Hcap & Hmask & Hpos).
  unfold buff_write. rewrite Hcap, Hmask. split; intros Hitems.
  - now rewrite (proj2 (Z.eqb_eq _ _) Hitems).
  - rewrite (proj2 (Z.eqb_neq _ _) Hitems).
    rewrite land_mask_pow2 by lia.
    rewrite store_in_bounds; [reflexivity|].
    rewrite Hlen. apply Z.mod_pos_bound. lia.
Qed.

Lemma buff_write_full_or_stored_witness :
  (buff_items 16 3 11 = 2 ^ 3 →
     buff_write 16 x2a (2 ^ 3) (Ring (replicate 8 x00) 3 11)
     = Some (false, Ring (replicate 8 x00) 3 11)) ∧
  (buff_items 16 3 11 ≠ 2 ^ 3 →
     buff_write 16 x2a (2 ^ 3) (Ring (replicate 8 x00) 3 11)
     = Some (true, Ring (<[Z.to_nat (11 mod 2 ^ 3) := x2a]> (replicate 8 x00))
                        3 ((11 + 1) mod 2 ^ 16))).
Proof.
  apply (buff_write_full_or_stored 16 3 x2a (Ring (replicate 8 x00) 3 11)).
  - lia.
  - reflexivity.
Defined.

(** C4.  With a capacity that is a power of two: when the counters are
    equal [buff_read] returns false and leaves [*item], the buffer and the
    counters as they were; otherwise it copies the byte of slot
    [reads mod capacity] into [*item], adds one to [reads] and returns
    true. *)
Theorem buff_read_empty_or_taken (w k : Z) (item : byte) (r : ring) :
  0 <= k < w - 1 →
  Z.of_nat (length (buff r)) = 2 ^ k →
  (writes r = reads r →
     buff_read w item (2 ^ k) r = Some (false, item, r)) ∧
  (writes r ≠ reads r →
     ∃ v, buff r !! Z.to_nat (reads r mod 2 ^ k) = Some v ∧
          buff_read w item (2 ^ k) r =
            Some (true, v, Ring (buff r) ((reads r + 1) mod 2 ^ w) (writes r))).
Proof.
  intros Hk Hlen.
  destruct (capacity_as_unsigned w k Hk) as (Hcap & Hmask & Hpos).
  unfold buff_read. rewrite Hmask. split; intros Hcmp.
  - now rewrite (proj2 (Z.eqb_eq _ _) Hcmp).
  - rewrite (proj2 (Z.eqb_neq _ _) Hcmp).
    rewrite land_mask_pow2 by lia.
    destruct (load_in_bounds (buff r) (reads r mod 2 ^ k)) as (v & Hload & Hv).
    { rewrite Hlen. apply Z.mod_pos_bound. lia. }
    exists v. split; [assumption|]. now rewrite Hload.
Qed.

Lemma buff_read_empty_or_taken_witness :
  (7 = 5 →
     buff_read 16 x00 (2 ^ 2) (Ring [x11; x22; x33; x44] 5 7)
     = Some (false, x00, Ring [x11; x22; x33; x44] 5 7)) ∧
  (7 ≠ 5 →
     ∃ v, [x11; x22; x33; x44] !! Z.to_nat (5 mod 2 ^ 2) = Some v ∧
          buff_read 16 x00 (2 ^ 2) (Ring [x11; x22; x33; x44] 5 7)
          = Some (true, v, Ring [x11; x22; x33; x44] ((5 + 1) mod 2 ^ 16) 7)).
Proof.
  apply (buff_read_empty_or_taken 16 2 x00 (Ring [x11; x22; x33; x44] 5 7)).
  - lia.
  - reflexivity.
Defined.

(** The SPI input buffer of the sketch takes its 32nd byte and refuses the
    33rd. *)
Example spi_in_fills :
  fst <$> spi_in_write x2a (Ring (replicate 32 x00) 7 38) = Some true ∧
  fst <$> spi_in_write x2a (Ring (replicate 32 x00) 7 39) = Some false.
Proof. split; reflexivity. Qed.

(** A read that finds something, on a concrete buffer. *)
Example buff_read_takes_slot :
  buff_read 16 x00 4 (Ring [x11; x22; x33; x44] 5 7)
  = Some (true, x22, Ring [x11; x22; x33; x44] 6 7).
Proof. reflexivity. Qed.

(** The mask is a remainder only for powers of two: with six slots the
    item of write number two lands in slot zero. *)
Example buff_write_six_slots :
  buff_write 16 x2a 6 (Ring (replicate 6 x00) 2 2)
  = Some (true, Ring (<[0%nat := x2a]> (replicate 6 x00)) 2 3).
Proof. reflexivity. Qed.

(** The [diff < 0] branch: whenever the difference of the counters modulo
    [2^w] is [2^(w-1)] or more, the count is [2^w - 1 - difference], which is
    never the difference.  No ring whose capacity is an [int] gets there
    ([reachable_ring_ok] below). *)
Lemma buff_items_past_half_range (w rd wr : Z) :
  0 < w →
  2 ^ (w - 1) <= (wr - rd) mod 2 ^ w →
  buff_items w rd wr = 2 ^ w - 1 - (wr - rd) mod 2 ^ w ∧
  buff_items w rd wr ≠ (wr - rd) mod 2 ^ w.
Proof.
  intros Hw Hhigh. pose proof (pow_width_split w Hw) as Hsplit.
  rewrite (buff_items_high w Hw rd wr Hhigh). split; [reflexivity|]. lia.
Qed.

Lemma buff_items_past_half_range_witness :
  buff_items 16 0 40000 = 2 ^ 16 - 1 - (40000 - 0) mod 2 ^ 16 ∧
  buff_items 16 0 40000 ≠ (40000 - 0) mod 2 ^ 16.
Proof.
  apply (buff_items_past_half_range 16 0 40000).
  - lia.
  - vm_compute. discriminate.
Defined.

(** On the board, with 40000 writes and no read the count is 25535; in 8
    bits, with [writes = 250] and [reads = 10], it is 15 where the
    difference is 240.  When it is [writes] that wrapped (10 after 250) the
    count is right. *)
Example buff_items_samples :
  buff_items 16 0 40000 = 25535 ∧ (40000 - 0) mod 2 ^ 16 = 40000 ∧
  buff_items 8 10 250 = 15 ∧ (250 - 10) mod 2 ^ 8 = 240 ∧
  buff_items 8 250 10 = 16 ∧ (10 - 250) mod 2 ^ 8 = 16.
Proof. repeat split; reflexivity. Qed.

Section RingInvariant.

Variables w capacity : Z.
Hypothesis w_pos : 0 < w.
Hypothesis capacity_int : 0 <= capacity < 2 ^ (w - 1).

Lemma capacity_fits : 2 ^ (w - 1) < 2 ^ w ∧ to_unsigned w capacity = capacity.
Proof.
  pose proof (pow_width_split w w_pos). pose proof (pow_half_pos w w_pos).
  split; [lia|]. apply to_unsigned_small. lia.
Qed.

Lemma unread_nonneg (r : ring) : 0 <= unread w r < 2 ^ w.
Proof. apply Z.mod_pos_bound. destruct capacity_fits. pose proof (pow_half_pos w w_pos). lia. Qed.

Lemma ring_ok_items (r : ring) :
  ring_ok w capacity r → buff_items w (reads r) (writes r) = unread w r.
Proof.
  intros (_ & _ & _ & Hu). apply buff_items_low; [assumption|].
  unfold unread in Hu. lia.
Qed.

Lemma unread_zero_iff (r : ring) :
  ring_ok w capacity r → (unread w r = 0 ↔ writes r = reads r).
Proof.
  intros (_ & Hr & Hw & _). destruct capacity_fits as [Hlt _].
  pose proof (pow_half_pos w w_pos). unfold unread. split.
  - intros H0.
    destruct (Z.le_gt_cases (reads r) (writes r)).
    + rewrite Z.mod_small in H0 by lia. lia.
    + rewrite <- (Z_mod_plus_full _ 1) in H0. rewrite Z.mod_small in H0 by lia. lia.
  - intros ->. now rewrite Z.sub_diag, Z.mod_0_l by lia.
Qed.

(** A write on a reachable ring is defined; it fails exactly at [capacity]
    unread items and otherwise leaves one more. *)
Lemma buff_write_ok (item : byte) (r : ring) :
  ring_ok w capacity r →
  ∃ ok r', buff_write w item capacity r = Some (ok, r') ∧
           (ok = false ↔ unread w r = capacity) ∧
           ring_ok w capacity r' ∧
           unread w r' = (if ok then unread w r + 1 else unread w r).
Proof.
  intros Hok. pose proof (ring_ok_items r Hok) as Hitems.
  destruct Hok as (Hlen & Hr & Hw & Hu). destruct capacity_fits as [Hlt Hcap].
  pose proof (unread_nonneg r) as Hn. pose proof (pow_half_pos w w_pos).
  unfold buff_write. rewrite Hitems, Hcap.
  destruct (Z.eqb_spec (unread w r) capacity) as [Heq|Hne].
  - exists false, r. split_and!; try done; unfold ring_ok; auto.
  - assert (Hmask : to_unsigned w (capacity - 1) = capacity - 1)
      by (apply to_unsigned_small; lia).
    rewrite Hmask.
    rewrite store_in_bounds.
    2:{ rewrite Hlen. pose proof (land_upper (writes r) (capacity - 1)).
        assert (0 <= Z.land (writes r) (capacity - 1)) by (apply Z.land_nonneg; lia).
        lia. }
    eexists true, _. split; [reflexivity|].
    assert (Hnew : unread w (Ring (<[Z.to_nat (Z.land (writes r) (capacity - 1)) := item]> (buff r))
                                  (reads r) (to_unsigned w (writes r + 1)))
                   = unread w r + 1).
    { unfold unread, to_unsigned in *. cbn [reads writes].
      rewrite Zminus_mod_idemp_l.
      replace (writes r + 1 - reads r) with ((writes r - reads r) + 1) by lia.
      rewrite <- Zplus_mod_idemp_l. apply Z.mod_small. lia. }
    split_and!; [split; [discriminate | intros; contradiction] | | exact Hnew].
    unfold ring_ok. rewrite Hnew. cbn [buff reads writes].
    rewrite length_insert. pose proof (to_unsigned_range w w_pos (writes r + 1)).
    split_and!; lia.
Qed.

(** A read on a reachable ring is defined; it fails exactly on the empty
    ring and otherwise leaves one item less. *)
Lemma buff_read_ok (item : byte) (r : ring) :
  ring_ok w capacity r →
  ∃ ok v r', buff_read w item capacity r = Some (ok, v, r') ∧
             (ok = false ↔ unread w r = 0) ∧
             ring_ok w capacity r' ∧
             unread w r' = (if ok then unread w r - 1 else unread w r).
Proof.
  intros Hok. pose proof (unread_zero_iff r Hok) as Hzero.
  destruct Hok as (Hlen & Hr & Hw & Hu). destruct capacity_fits as [Hlt Hcap].
  pose proof (unread_nonneg r) as Hn. pose proof (pow_half_pos w w_pos).
  unfold buff_read.
  destruct (Z.eqb_spec (writes r) (reads r)) as [Heq|Hne].
  - exists false, item, r. split_and!; try done; try tauto; unfold ring_ok; auto.
  - assert (Hpos : 0 < unread w r) by (assert (unread w r ≠ 0) by tauto; lia).
    assert (Hmask : to_unsigned w (capacity - 1) = capacity - 1)
      by (apply to_unsigned_small; lia).
    rewrite Hmask.
    destruct (load_in_bounds (buff r) (Z.land (reads r) (capacity - 1))) as (v & Hload & _).
    { rewrite Hlen. pose proof (land_upper (reads r) (capacity - 1)).
      assert (0 <= Z.land (reads r) (capacity - 1)) by (apply Z.land_nonneg; lia).
      lia. }
    rewrite Hload. eexists true, v, _. split; [reflexivity|].
    assert (Hnew : unread w (Ring (buff r) (to_unsigned w (reads r + 1)) (writes r))
                   = unread w r - 1).
    { unfold unread, to_unsigned in *. cbn [reads writes].
      rewrite Zminus_mod_idemp_r.
      replace (writes r - (reads r + 1)) with ((writes r - reads r) - 1) by lia.
      rewrite <- Zminus_mod_idemp_l. apply Z.mod_small. lia. }
    split_and!; [split; [discriminate | lia] | | exact Hnew].
    unfold ring_ok. rewrite Hnew. cbn [buff reads writes].
    pose proof (to_unsigned_range w w_pos (reads r + 1)).
    split_and!; lia.
Qed.

Lemma reachable_ring_ok (r : ring) : reachable w capacity r → ring_ok w capacity r.
Proof.
  induction 1 as [b c Hlen Hc | c r r' Hreach IH Hcall].
  - unfold ring_ok, unread. cbn [buff reads writes].
    rewrite Z.sub_diag, Z.mod_0_l; [split_and!; lia|].
    pose proof (pow_half_pos w w_pos). destruct capacity_fits. lia.
  - destruct c as [item|item]; cbn [do_call] in Hcall.
    + destruct (buff_write_ok item r IH) as (ok & r1 & Hw & _ & Hok1 & _).
      rewrite Hw in Hcall. cbn in Hcall. now inversion Hcall; subst.
    + destruct (buff_read_ok item r IH) as (ok & v & r1 & Hrd & _ & Hok1 & _).
      rewrite Hrd in Hcall. cbn in Hcall. now inversion Hcall; subst.
Qed.

End RingInvariant.

(** C1.  In every state reached from an empty buffer by calls of
    [buff_write] and [buff_read] the number of unread items, the difference
    of the counters modulo [2^w], is at most the capacity; and there
    [buff_write] is defined and returns false exactly when [capacity] items
    are unread. *)
Theorem ring_capacity_invariant (w capacity : Z) (r : ring) :
  0 < w → 0 <= capacity < 2 ^ (w - 1) →
  reachable w capacity r →
  unread w r <= capacity ∧
  ∀ item, ∃ ok r', buff_write w item capacity r = Some (ok, r') ∧
                   (ok = false ↔ unread w r = capacity).
Proof.
  intros Hw Hcap Hreach.
  pose proof (reachable_ring_ok w capacity Hw Hcap r Hreach) as Hok.
  split; [apply Hok|]. intros item.
  destruct (buff_write_ok w capacity Hw Hcap item r Hok) as (ok & r' & H1 & H2 & _).
  eauto.
Qed.

Lemma ring_capacity_invariant_witness :
  unread 16 (Ring [x11; x22; x00; x00] 0 2) <= 4 ∧
  ∀ item, ∃ ok r', buff_write 16 item 4 (Ring [x11; x22; x00; x00] 0 2) = Some (ok, r') ∧
                   (ok = false ↔ unread 16 (Ring [x11; x22; x00; x00] 0 2) = 4).
Proof.
  apply (ring_capacity_invariant 16 4 (Ring [x11; x22; x00; x00] 0 2)).
  - lia.
  - vm_compute. split; [discriminate | reflexivity].
  - apply (reach_call 16 4 (Write x22) (Ring [x11; x00; x00; x00] 0 1)); [|reflexivity].
    apply (reach_call 16 4 (Write x11) (Ring [x00; x00; x00; x00] 0 0)); [|reflexivity].
    apply reach_empty; [reflexivity | vm_compute; split; [discriminate | reflexivity]].
Defined.




(** Counters that wrapped on the way: three writes from 65535 on leave
    [writes] at 2, [reads] at 65535, and the count is 3.  In 8 bits, with
    the write counter wrapped to 10 and the read counter at 250, it is 16. *)
Example buff_items_across_the_wrap :
  reachable 16 4 (Ring [x22; x33; x00; x11] 65535 2) ∧
  buff_items 16 65535 2 = 3 ∧
  buff_items 8 250 10 = 16 ∧ (10 - 250) mod 2 ^ 8 = 16.
Proof.
  split; [|repeat split].
  apply (reach_call 16 4 (Write x33) (Ring [x22; x00; x00; x11] 65535 1)); [|reflexivity].
  apply (reach_call 16 4 (Write x22) (Ring [x00; x00; x00; x11] 65535 0)); [|reflexivity].
  apply (reach_call 16 4 (Write x11) (Ring [x00; x00; x00; x00] 65535 65535)); [|reflexivity].
  apply reach_empty; [reflexivity | vm_compute; split; [discriminate | reflexivity]].
Qed.

(** A full buffer of four refuses the fifth item, and takes it after a
    read, across the wrap of the counters. *)
Example ring_full_then_read :
  buff_write 16 x55 4 (Ring [x11; x22; x33; x44] 65534 2) = Some (false, Ring [x11; x22; x33; x44] 65534 2) ∧
  buff_read 16 x00 4 (Ring [x11; x22; x33; x44] 65534 2) = Some (true, x33, Ring [x11; x22; x33; x44] 65535 2) ∧
  buff_write 16 x55 4 (Ring [x11; x22; x33; x44] 65535 2) = Some (true, Ring [x11; x22; x55; x44] 65535 3).
Proof. repeat split; reflexivity. Qed.

(** ** The ring buffer with interrupts inside a call *)

Section Interrupted.

Variables w capacity : Z.
Variable main : side.
Hypothesis w_pos : 0 < w.
Hypothesis capacity_int : 0 <= capacity < 2 ^ (w - 1).

Lemma micro_write_ok (p p' : progress) (r r' : ring) :
  micro_write w capacity (p, r) (p', r') → main = Producer →
  ring_ok w capacity r → progress_ok w capacity main p r →
  ring_ok w capacity r' ∧ progress_ok w capacity main p' r'.
Proof.
  intros Hstep Hmain Hok Hp.
  destruct (capacity_fits w capacity w_pos capacity_int) as [Hlt Hcap].
  pose proof (unread_nonneg w capacity w_pos capacity_int r) as Hn.
  pose proof (pow_half_pos w w_pos).
  inversion Hstep; subst; cbn [progress_ok] in *.
  - split; [assumption|]. split; [done|].
    destruct Hok as (_ & _ & _ & Hu). unfold unread in *. lia.
  - auto.
  - split; [assumption|]. split; [done|].
    destruct Hp as (_ & Hle & Hcapb).
    rewrite buff_items_low, Hcap in * by (assumption || lia). lia.
  - split; [|assumption].
    destruct Hok as (Hlen & Hr & Hw & Hu).
    unfold store in *. case_decide; [|discriminate].
    match goal with H : Some _ = Some _ |- _ => inversion H; subst end.
    unfold ring_ok, unread in *. cbn [buff reads writes].
    rewrite length_insert. auto.
  - destruct Hp as (_ & Hroom). destruct Hok as (Hlen & Hr & Hw & Hu).
    assert (Hnew : unread w (Ring (buff r) (reads r) (to_unsigned w (writes r + 1)))
                   = unread w r + 1).
    { unfold unread, to_unsigned in *. cbn [reads writes].
      rewrite Zminus_mod_idemp_l.
      replace (writes r + 1 - reads r) with ((writes r - reads r) + 1) by lia.
      rewrite <- Zplus_mod_idemp_l. apply Z.mod_small. lia. }
    split; [|exact I].
    unfold ring_ok. rewrite Hnew. cbn [buff reads writes].
    pose proof (to_unsigned_range w w_pos (writes r + 1)).
    split_and!; lia.
Qed.

Lemma micro_read_ok (p p' : progress) (r r' : ring) :
  micro_read w capacity (p, r) (p', r') → main = Consumer →
  ring_ok w capacity r → progress_ok w capacity main p r →
  ring_ok w capacity r' ∧ progress_ok w capacity main p' r'.
Proof.
  intros Hstep Hmain Hok Hp.
  destruct (capacity_fits w capacity w_pos capacity_int) as [Hlt Hcap].
  pose proof (unread_nonneg w capacity w_pos capacity_int r) as Hn.
  pose proof (unread_zero_iff w capacity w_pos capacity_int r Hok) as Hzero.
  pose proof (pow_half_pos w w_pos).
  inversion Hstep; subst; cbn [progress_ok] in *.
  - split; [assumption|]. split; [done|].
    destruct Hok as (_ & _ & Hw & _). split; [assumption|].
    destruct (Z.eq_dec (writes r') (reads r')); [auto|].
    right. assert (unread w r' ≠ 0) by tauto. lia.
  - auto.
  - split; [assumption|]. split; [done|].
    destruct Hp as (_ & _ & [Heq|Hone]); [contradiction | assumption].
  - auto.
  - destruct Hp as (_ & Hone). destruct Hok as (Hlen & Hr & Hw & Hu).
    assert (Hnew : unread w (Ring (buff r) (to_unsigned w (reads r + 1)) (writes r))
                   = unread w r - 1).
    { unfold unread, to_unsigned in *. cbn [reads writes].
      rewrite Zminus_mod_idemp_r.
      replace (writes r - (reads r + 1)) with ((writes r - reads r) - 1) by lia.
      rewrite <- Zminus_mod_idemp_l. apply Z.mod_small. lia. }
    split; [|exact I].
    unfold ring_ok. rewrite Hnew. cbn [buff reads writes].
    pose proof (to_unsigned_range w w_pos (reads r + 1)).
    split_and!; lia.
Qed.

Lemma interleaved_ok (s s' : progress * ring) :
  interleaved w capacity main s s' →
  ring_ok w capacity (snd s) ∧ progress_ok w capacity main (fst s) (snd s) →
  ring_ok w capacity (snd s') ∧ progress_ok w capacity main (fst s') (snd s').
Proof.
  intros Hstep [Hok Hp].
  destruct Hstep as [[p r] [p' r'] Hmain Hmicro | [p r] [p' r'] Hmain Hmicro
                    | p item r res Hmain Hcall | p item r res Hmain Hcall];
    cbn [fst snd] in *.
  - eapply micro_write_ok; eassumption.
  - eapply micro_read_ok; eassumption.
  - destruct (buff_read_ok w capacity w_pos capacity_int item r Hok)
      as (ok & v & r1 & Hrd & _ & Hok1 & Hnew).
    rewrite Hrd in Hcall. inversion Hcall; subst. cbn [snd].
    split; [assumption|].
    assert (Hle : unread w r1 <= unread w r) by (destruct ok; lia).
    assert (Hwr : writes r1 = writes r).
    { unfold buff_read in Hrd. destruct (writes r =? reads r); [now inversion Hrd|].
      destruct (load _ _); [|discriminate]. cbn in Hrd. now inversion Hrd. }
    destruct p; cbn [progress_ok] in *; try tauto; try (split; [tauto|lia]);
      try (destruct Hp as [Hc _]; congruence).
    rewrite Hwr. split; [tauto|lia].
  - destruct (buff_write_ok w capacity w_pos capacity_int item r Hok)
      as (ok & r1 & Hwr & _ & Hok1 & Hnew).
    rewrite Hwr in Hcall. inversion Hcall; subst. cbn [snd].
    split; [assumption|].
    assert (Hle : unread w r <= unread w r1) by (destruct ok; lia).
    assert (Hrd : reads r1 = reads r).
    { unfold buff_write in Hwr. destruct (_ =? _); [now inversion Hwr|].
      destruct (store _ _ _); [|discriminate]. cbn in Hwr. now inversion Hwr. }
    destruct p; cbn [progress_ok] in *; try tauto; try (split; [tauto|lia]);
      try (destruct Hp as [Hc _]; congruence).
Qed.

(** The ring never holds more than [capacity] unread items, wherever the
    handler interrupts the call of the main program. *)
Lemma interleaved_capacity (b : list byte) (c : Z) (p : progress) (r : ring) :
  Z.of_nat (length b) = capacity → 0 <= c < 2 ^ w →
  rtc (interleaved w capacity main) (Idle, Ring b c c) (p, r) →
  unread w r <= capacity.
Proof.
  intros Hlen Hc Hrun.
  assert (Hinv : ∀ s, rtc (interleaved w capacity main) (Idle, Ring b c c) s →
                      ring_ok w capacity (snd s) ∧
                      progress_ok w capacity main (fst s) (snd s)).
  { apply rtc_ind_r.
    - split; [|exact I]. apply reachable_ring_ok; try assumption.
      now apply reach_empty.
    - intros s2 s3 _ Hstep IH. eapply interleaved_ok; eassumption. }
  apply (Hinv (p, r) Hrun).
Qed.

(** Left alone, the accesses of a call add up to the call. *)
Lemma micro_write_call (item : byte) (r r' : ring) (ok : bool) :
  buff_write w item capacity r = Some (ok, r') →
  rtc (micro_write w capacity) (Idle, r) (Idle, r').
Proof.
  unfold buff_write. intros Hcall.
  eapply rtc_l; [apply (write_load w capacity item)|].
  destruct (Z.eqb_spec (buff_items w (reads r) (writes r)) (to_unsigned w capacity)) as [Heq|Hne].
  - inversion Hcall; subst. eapply rtc_l; [now apply write_full|]. apply rtc_refl.
  - destruct (store _ _ _) as [b|] eqn:Hstore; [|discriminate].
    cbn in Hcall. inversion Hcall; subst.
    eapply rtc_l; [now apply write_room|].
    eapply rtc_l; [apply write_store; exact Hstore|].
    eapply rtc_l; [apply write_incr|]. apply rtc_refl.
Qed.

Lemma micro_read_call (item : byte) (r r' : ring) (ok : bool) (v : byte) :
  buff_read w item capacity r = Some (ok, v, r') →
  rtc (micro_read w capacity) (Idle, r) (Idle, r').
Proof.
  unfold buff_read. intros Hcall.
  eapply rtc_l; [apply read_load|].
  destruct (Z.eqb_spec (writes r) (reads r)) as [Heq|Hne].
  - inversion Hcall; subst. eapply rtc_l; [now apply read_empty|]. apply rtc_refl.
  - destruct (load _ _) as [v'|] eqn:Hload; [|discriminate].
    cbn in Hcall. inversion Hcall; subst.
    eapply rtc_l; [now apply read_some|].
    eapply rtc_l; [apply read_slot; exact Hload|].
    eapply rtc_l; [apply read_incr|]. apply rtc_refl.
Qed.

End Interrupted.

(** ** Index arithmetic *)

Lemma unsynched_head_as_mod (unsynched tail capacity : Z) :
  0 <= unsynched < capacity → 0 <= tail < capacity →
  unsynched_head unsynched tail capacity = (tail - unsynched - 1) mod capacity.
Proof.
  intros Hu Ht. unfold unsynched_head.
  rewrite Z.rem_mod_nonneg by lia.
  now rewrite Z_mod_plus_full.
Qed.

Lemma unsynched_head_range (unsynched tail capacity : Z) :
  0 <= unsynched < capacity → 0 <= tail < capacity →
  0 <= unsynched_head unsynched tail capacity < capacity.
Proof.
  intros Hu Ht. rewrite unsynched_head_as_mod by assumption.
  apply Z.mod_pos_bound. lia.
Qed.

(** Walking [unsynched] slots forward from the head ends one slot before
    the tail, on the slot of the newest byte. *)
Lemma unsynched_head_walk (unsynched tail capacity : Z) :
  0 <= unsynched < capacity → 0 <= tail < capacity →
  (unsynched_head unsynched tail capacity + unsynched) mod capacity = (tail - 1) mod capacity ∧
  (unsynched_head unsynched tail capacity + unsynched + 1) mod capacity = tail.
Proof.
  intros Hu Ht. rewrite unsynched_head_as_mod by assumption. split.
  - rewrite Zplus_mod_idemp_l. f_equal. lia.
  - rewrite <- Z.add_assoc, Zplus_mod_idemp_l.
    replace (tail - unsynched - 1 + (unsynched + 1)) with tail by lia.
    apply Z.mod_small. lia.
Qed.

Lemma unreported_head_range (unreported unsynched tail capacity : Z) :
  0 <= unsynched < capacity → 0 <= unreported <= capacity → 0 <= tail < capacity →
  0 <= unreported_head unreported unsynched tail capacity < capacity.
Proof.
  intros Hu Hr Ht.
  pose proof (unsynched_head_range unsynched tail capacity Hu Ht) as Hh.
  unfold unreported_head. cbv zeta.
  rewrite Z.rem_mod_nonneg by lia. apply Z.mod_pos_bound. lia.
Qed.

(** The values the head computations go through fit an [int] of the board
    for logs of [LOG_SIZE] slots. *)
Lemma head_arithmetic_fits (unreported unsynched tail : Z) :
  0 <= unsynched < LOG_SIZE → 0 <= unreported <= LOG_SIZE → 0 <= tail < LOG_SIZE →
  - 32768 <= tail - unsynched - 1 + 2 * LOG_SIZE <= 32767 ∧
  - 32768 <= unsynched_head unsynched tail LOG_SIZE - unreported + LOG_SIZE <= 32767.
Proof.
  intros Hu Hr Ht.
  pose proof (unsynched_head_range unsynched tail LOG_SIZE Hu Ht).
  unfold LOG_SIZE in *. lia.
Qed.

(** C5.  [unsynched_head] is one slot early: for every count and tail
    within a ring of two slots or more its result is in [0, capacity), but
    [count] steps forward from it end on the slot before the tail, never at
    the tail; one step more is needed. *)
Theorem unsynched_head_one_early (count tail capacity : Z) :
  0 <= count < capacity → 0 <= tail < capacity → 1 < capacity →
  0 <= unsynched_head count tail capacity < capacity ∧
  (unsynched_head count tail capacity + count + 1) mod capacity = tail ∧
  (unsynched_head count tail capacity + count) mod capacity ≠ tail.
Proof.
  intros Hc Ht Hcap.
  destruct (unsynched_head_walk count tail capacity Hc Ht) as [Hprev Hnext].
  split; [now apply unsynched_head_range|]. split; [exact Hnext|].
  rewrite Hprev. destruct (Z.eq_dec tail 0) as [->|Hpos].
  - rewrite <- (Z_mod_plus_full (0 - 1) 1 capacity), Z.mod_small; lia.
  - rewrite Z.mod_small; lia.
Qed.

Lemma unsynched_head_one_early_witness :
  0 <= unsynched_head 0 0 8 < 8 ∧
  (unsynched_head 0 0 8 + 0 + 1) mod 8 = 0 ∧
  (unsynched_head 0 0 8 + 0) mod 8 ≠ 0.
Proof. apply (unsynched_head_one_early 0 0 8); lia. Defined.

(** With nothing pending and the tail at 0 in a ring of 8 the head is 7;
    with three bytes pending in slots 0 to 2 of a log it is 127.
    [unreported_head] inherits the slot. *)
Example head_samples :
  unsynched_head 0 0 8 = 7 ∧
  unsynched_head 3 3 LOG_SIZE = 127 ∧
  unreported_head 2 1 3 8 = 7 ∧
  (unreported_head 2 1 3 8 + 2 + 1) mod 8 = 2.
Proof. repeat split; reflexivity. Qed.

(** Where the [int] arithmetic of the board is defined the two functions
    are the ones on [Z]; it is defined for every count and tail within a log
    of up to 10923 slots, 10923 being the largest size for which
    [tail - unsynched - 1 + 2 * log_size] always fits. *)
Lemma checked_int (x : Z) :
  Checked.INT_MIN <= x <= Checked.INT_MAX → Checked.int x = Some x.
Proof. intros H. unfold Checked.int. now rewrite decide_True. Qed.

Lemma checked_unsynched_head (unsynched tail capacity : Z) :
  0 <= unsynched < capacity → 0 <= tail < capacity → capacity <= 10923 →
  Checked.unsynched_head unsynched tail capacity
  = Some (unsynched_head unsynched tail capacity).
Proof.
  intros Hu Ht Hcap.
  pose proof (unsynched_head_range unsynched tail capacity Hu Ht) as Hh.
  unfold Checked.unsynched_head, Checked.rem.
  repeat (rewrite checked_int by (unfold Checked.INT_MIN, Checked.INT_MAX; lia);
          cbn [mbind option_bind]).
  rewrite decide_False by lia.
  fold (unsynched_head unsynched tail capacity).
  apply checked_int. unfold Checked.INT_MIN, Checked.INT_MAX. lia.
Qed.

Lemma checked_unreported_head (unreported unsynched tail capacity : Z) :
  0 <= unsynched < capacity → 0 <= unreported <= capacity → 0 <= tail < capacity →
  capacity <= 10923 →
  Checked.unreported_head unreported unsynched tail capacity
  = Some (unreported_head unreported unsynched tail capacity).
Proof.
  intros Hu Hr Ht Hcap.
  pose proof (unsynched_head_range unsynched tail capacity Hu Ht) as Hh.
  pose proof (unreported_head_range unreported unsynched tail capacity Hu Hr Ht) as Hs.
  unfold Checked.unreported_head, Checked.rem.
  rewrite checked_unsynched_head by assumption. cbn [mbind option_bind].
  repeat (rewrite checked_int by (unfold Checked.INT_MIN, Checked.INT_MAX; lia);
          cbn [mbind option_bind]).
  rewrite decide_False by lia.
  change (Z.rem (unsynched_head unsynched tail capacity - unreported + capacity) capacity)
    with (unreported_head unreported unsynched tail capacity).
  apply checked_int. unfold Checked.INT_MIN, Checked.INT_MAX. lia.
Qed.

(** C6.  [unreported_head] is one slot early as well.  The handler stores
    at the tail and then moves it, so the [unsynched] bytes still to be
    synchronised are the slots from [tail - unsynched] to [tail - 1], and
    the unreported ones should end where these begin.  Within the stated
    ranges, and for every log of 2 to 10923 slots (where the [int]
    arithmetic of the board cannot overflow or divide by zero), it is
    [unsynched_head] minus the unreported count brought into
    [0, capacity) modulo the capacity, as specified; but [unreported]
    steps forward from it end on slot [tail - unsynched - 1], one before the
    first unsynchronised slot [tail - unsynched], never on it: the
    unreported span does not precede the unsynchronised region, it is
    shifted back by one and leaves out the newest reported byte. *)
Theorem unreported_head_one_early (unreported unsynched tail capacity : Z) :
  0 <= unsynched < capacity →
  0 <= unreported <= capacity →
  0 <= tail < capacity →
  1 < capacity <= 10923 →
  Checked.unreported_head unreported unsynched tail capacity
    = Some (unreported_head unreported unsynched tail capacity) ∧
  unreported_head unreported unsynched tail capacity
    = (unsynched_head unsynched tail capacity - unreported) mod capacity ∧
  0 <= unreported_head unreported unsynched tail capacity < capacity ∧
  (unreported_head unreported unsynched tail capacity + unreported) mod capacity
    = (tail - unsynched - 1) mod capacity ∧
  (unreported_head unreported unsynched tail capacity + unreported) mod capacity
    ≠ (tail - unsynched) mod capacity.
Proof.
  intros Hu Hr Ht Hcap.
  pose proof (unsynched_head_range unsynched tail capacity Hu Ht) as Hh.
  assert (Heq : unreported_head unreported unsynched tail capacity
                = (unsynched_head unsynched tail capacity - unreported) mod capacity).
  { unfold unreported_head. cbv zeta.
    rewrite Z.rem_mod_nonneg by lia.
    rewrite <- (Z_mod_plus_full (_ - unreported) 1 capacity). f_equal. lia. }
  assert (Hend : (unreported_head unreported unsynched tail capacity + unreported)
                   mod capacity
                 = (tail - unsynched - 1) mod capacity).
  { rewrite Heq, Zplus_mod_idemp_l.
    replace (unsynched_head unsynched tail capacity - unreported + unreported)
      with (unsynched_head unsynched tail capacity) by lia.
    rewrite unsynched_head_as_mod by assumption. apply Z.mod_mod. lia. }
  split; [apply checked_unreported_head; (assumption || lia)|].
  split; [exact Heq|].
  split; [now apply unreported_head_range|].
  split; [exact Hend|].
  rewrite Hend. intros Hsame.
  assert (Hone : (tail - unsynched - (tail - unsynched - 1)) mod capacity = 0).
  { rewrite Zminus_mod, Hsame, Z.sub_diag. apply Z.mod_0_l. lia. }
  replace (tail - unsynched - (tail - unsynched - 1)) with 1 in Hone by lia.
  rewrite Z.mod_small in Hone; lia.
Qed.

Lemma unreported_head_one_early_witness :
  Checked.unreported_head 2 1 3 LOG_SIZE = Some (unreported_head 2 1 3 LOG_SIZE) ∧
  unreported_head 2 1 3 LOG_SIZE = (unsynched_head 1 3 LOG_SIZE - 2) mod LOG_SIZE ∧
  0 <= unreported_head 2 1 3 LOG_SIZE < LOG_SIZE ∧
  (unreported_head 2 1 3 LOG_SIZE + 2) mod LOG_SIZE = (3 - 1 - 1) mod LOG_SIZE ∧
  (unreported_head 2 1 3 LOG_SIZE + 2) mod LOG_SIZE ≠ (3 - 1) mod LOG_SIZE.
Proof. apply (unreported_head_one_early 2 1 3 LOG_SIZE); unfold LOG_SIZE; lia. Defined.

(** Two captures, a round in which the peer answers two bytes, a third
    capture.  The two pairs that wait for the report are in slots 0 and 1 of
    the logs, the byte that waits for synchronisation is in slot 2;
    [unreported_head] is 127, and the reporter prints slots 127 and 0. *)
Example unreported_span_after_a_round :
  ∃ st out,
    perform_all 3 [Capture x11; Capture x22; MainLoop [xaa; xbb]; Capture x33] (boot alpha)
    = Done tt st out ∧
    take 3 (our_log st) = [x11; x22; x33] ∧ take 2 (their_log st) = [xaa; xbb] ∧
    our_log_tail st = 3 ∧ bytes_unsynched st = 1 ∧ bytes_unreported st = 2 ∧
    unreported_head (bytes_unreported st) (bytes_unsynched st) (our_log_tail st) LOG_SIZE
      = 127 ∧
    report 3 st
    = Done tt st
        [SerialPrintHex x00; SerialPrintSlash; SerialPrintHex x00;
         SerialPrintHex x11; SerialPrintSlash; SerialPrintHex xaa].
Proof. eexists _, _. split; [vm_compute; reflexivity|]. repeat split. Qed.

(** Past 10923 slots the sum leaves the [int] range; with no slot the
    remainder divides by zero. *)
Example checked_heads_undefined :
  Checked.unsynched_head 0 16383 16384 = None ∧
  Checked.unsynched_head 0 0 0 = None ∧
  Checked.unsynched_head 3 3 LOG_SIZE = Some 127.
Proof. repeat split; reflexivity. Qed.

(** ** The capture path *)

Lemma ISR_full (SPDR : byte) (st : node) :
  our_log_head st = Z.rem (our_log_tail st + 1) LOG_SIZE →
  ISR SPDR st = Done tt st [DigitalWrite SLOWSYNC_LED HIGH].
Proof.
  intros Hfull. unfold ISR, mbind, M_bind, gets. cbn.
  now rewrite (proj2 (Z.eqb_eq _ _) Hfull).
Qed.

Lemma ISR_room (SPDR : byte) (st : node) :
  our_log_head st ≠ Z.rem (our_log_tail st + 1) LOG_SIZE →
  log_ok (our_log st) (our_log_tail st) →
  ISR SPDR st =
    Done tt
      (set_bytes_unsynched (bytes_unsynched st + 1)
         (set_our_log_tail (Z.rem (our_log_tail st + 1) LOG_SIZE)
            (set_our_log (<[Z.to_nat (our_log_tail st) := SPDR]> (our_log st)) st)))
      [].
Proof.
  intros Hroom [Hlen Htail]. unfold ISR, mbind, M_bind, gets. cbn.
  rewrite (proj2 (Z.eqb_neq _ _) Hroom).
  rewrite store_in_bounds by lia. reflexivity.
Qed.

(** ** Running the sketch: facts about sequencing and loops *)

Lemma bind_done {A B : Type} (m : M A) (f : A → M B) (st : node) a st1 out1 :
  m st = Done a st1 out1 → (m ≫= f) st = after out1 (f a st1).
Proof. intros H. unfold mbind, M_bind. now rewrite H. Qed.

Lemma occurrences_app (p : event → bool) (o1 o2 : list event) :
  occurrences p (o1 ++ o2) = occurrences p o1 + occurrences p o2.
Proof. unfold occurrences. rewrite List.filter_app, length_app. lia. Qed.

Lemma occurrences_cons (p : event → bool) (e : event) (out : list event) :
  occurrences p (e :: out) = (if p e then 1 else 0) + occurrences p out.
Proof. unfold occurrences. cbn [List.filter]. destruct (p e); cbn [length]; lia. Qed.

Lemma occurrences_nil (p : event → bool) : occurrences p [] = 0.
Proof. reflexivity. Qed.

Ltac count_events :=
  repeat (rewrite occurrences_app || rewrite occurrences_cons || rewrite occurrences_nil);
  unfold HIGH, LOW;
  cbn [is_unsynchronized is_slow_sync is_slow_dump is_wire_read].

Lemma held_range (head tail : Z) : 0 <= held head tail <= LOG_SIZE - 1.
Proof.
  unfold held. pose proof (Z.mod_pos_bound (tail - head) LOG_SIZE).
  unfold LOG_SIZE in *. lia.
Qed.

(** Putting a byte after the tail: the log is full exactly when it holds
    [LOG_SIZE - 1] bytes, and otherwise holds one more afterwards. *)
Lemma held_after_put (head tail : Z) :
  0 <= head < LOG_SIZE → 0 <= tail < LOG_SIZE →
  (head = Z.rem (tail + 1) LOG_SIZE ↔ held head tail = LOG_SIZE - 1) ∧
  (head ≠ Z.rem (tail + 1) LOG_SIZE →
     held head (Z.rem (tail + 1) LOG_SIZE) = held head tail + 1) ∧
  0 <= Z.rem (tail + 1) LOG_SIZE < LOG_SIZE.
Proof.
  intros Hh Ht. unfold held, LOG_SIZE in *.
  rewrite Z.rem_mod_nonneg by lia.
  pose proof (Z.mod_pos_bound (tail + 1) 128).
  pose proof (Z.mod_pos_bound (tail - head) 128).
  destruct (Z.eq_dec tail 127) as [->|Hne].
  - change ((127 + 1) mod 128) with 0.
    destruct (Z.eq_dec head 0) as [->|Hh0].
    + change ((127 - 0) mod 128) with 127. split_and!; lia.
    + rewrite (Z.mod_small (127 - head)) by lia.
      rewrite <- (Z_mod_plus_full (0 - head) 1 128).
      rewrite (Z.mod_small (0 - head + 1 * 128)) by lia. split_and!; lia.
  - rewrite (Z.mod_small (tail + 1)) by lia.
    destruct (Z.le_gt_cases head tail).
    + rewrite (Z.mod_small (tail - head)), (Z.mod_small (tail + 1 - head)) by lia.
      split_and!; lia.
    + rewrite <- (Z_mod_plus_full (tail - head) 1 128).
      rewrite (Z.mod_small (tail - head + 1 * 128)) by lia.
      destruct (Z.eq_dec head (tail + 1)) as [->|Hne2].
      * rewrite Z.sub_diag. change (0 mod 128) with 0. split_and!; lia.
      * rewrite <- (Z_mod_plus_full (tail + 1 - head) 1 128).
        rewrite (Z.mod_small (tail + 1 - head + 1 * 128)) by lia.
        split_and!; lia.
Qed.

(** One [Wire.read()] into [their_log]: stored behind the tail unless the log
    holds [LOG_SIZE - 1] bytes, in which case the byte is dropped and the
    slow-dump indicator lit. *)
Lemma their_log_put_spec (b : byte) (rest : list byte) (st : node) :
  node_ok st → wire_rx st = b :: rest →
  ∃ st' out, their_log_put st = Done tt st' out ∧
    wire_rx st' = rest ∧ receive_frame st st' ∧ node_ok st' ∧
    occurrences is_wire_read out = 1 ∧
    occurrences is_unsynchronized out = 0 ∧
    occurrences is_slow_sync out = 0 ∧
    occurrences is_slow_dump out
      = (if their_log_head st =? Z.rem (their_log_tail st + 1) LOG_SIZE then 1 else 0) ∧
    held (their_log_head st') (their_log_tail st')
      = held (their_log_head st) (their_log_tail st) + 1 - occurrences is_slow_dump out.
Proof.
  intros ([Hol Hot] & [_ Hoh] & [Hlen Htt] & [_ Hth]) Hrx.
  destruct (held_after_put _ _ Hth Htt) as (Hfull & Hput & Hnext).
  unfold their_log_put, mbind, M_bind, gets, Wire_read. cbn.
  destruct (Z.eqb_spec (their_log_head st) (Z.rem (their_log_tail st + 1) LOG_SIZE)) as [Heq|Hne]; cbn.
  - rewrite Hrx. cbn. eexists _, _. split; [reflexivity|].
    change (occurrences is_slow_dump _) with 1.
    unfold node_ok, log_ok, receive_frame. cbn. split_and!; try done; lia.
  - rewrite Hrx. cbn. rewrite store_in_bounds by (cbn; lia). cbn.
    eexists _, _. split; [reflexivity|].
    change (occurrences is_slow_dump _) with 0.
    unfold node_ok, log_ok, receive_frame. cbn. rewrite ?length_insert, (Hput Hne).
    split_and!; try done; lia.
Qed.

Lemma iter_succ (n : nat) (z : Z) : Nat.iter n (λ k, k + 1) z = z + Z.of_nat n.
Proof. induction n as [|n IH]; [cbn; lia | rewrite Nat.iter_succ, IH; lia]. Qed.

Lemma receive_frame_trans (st1 st2 st3 : node) :
  receive_frame st1 st2 → receive_frame st2 st3 → receive_frame st1 st3.
Proof. unfold receive_frame. intros H1 H2. destruct_and!. split_and!; congruence. Qed.

(** The receive loop of both nodes: [body] is [their_log_put], followed by
    the update [g] of the loop's local. *)
Lemma receive_loop {A : Type} (body : A → M A) (g : A → A) :
  (∀ a st, body a st = match their_log_put st with
                       | Done _ st' out => Done (g a) st' out
                       | Undefined => Undefined
                       | Spinning => Spinning
                       end) →
  ∀ (rx : list byte) (fuel : nat) (a : A) (st : node),
  node_ok st → wire_rx st = rx → (length rx < fuel)%nat →
  ∃ st' out,
    while fuel (λ _, av ← Wire_available; mret (0 <? av)) body a st
      = Done (Nat.iter (length rx) g a) st' out ∧
    wire_rx st' = [] ∧ receive_frame st st' ∧ node_ok st' ∧
    occurrences is_wire_read out = Z.of_nat (length rx) ∧
    occurrences is_unsynchronized out = 0 ∧
    occurrences is_slow_sync out = 0 ∧
    held (their_log_head st') (their_log_tail st')
      = held (their_log_head st) (their_log_tail st)
        + Z.of_nat (length rx) - occurrences is_slow_dump out.
Proof.
  intros Hbody rx. induction rx as [|b rest IH]; intros fuel a st Hok Hrx Hfuel.
  - destruct fuel as [|fuel]; [cbn in Hfuel; lia|].
    cbn [while]. unfold mbind, M_bind, Wire_available, gets, mret, M_ret.
    rewrite Hrx. cbn. eexists _, _. split; [reflexivity|].
    unfold receive_frame. split_and!; try done. change (occurrences is_slow_dump _) with 0. lia.
  - destruct fuel as [|fuel]; [cbn in Hfuel; lia|].
    destruct (their_log_put_spec b rest st Hok Hrx)
      as (st1 & out1 & Hput & Hrx1 & Hfr1 & Hok1 & Hrd1 & Hun1 & Hss1 & _ & Hheld1).
    destruct (IH fuel (g a) st1 Hok1 Hrx1 ltac:(cbn in Hfuel; lia))
      as (st2 & out2 & Hloop & Hrx2 & Hfr2 & Hok2 & Hrd2 & Hun2 & Hss2 & Hheld2).
    cbn [while]. unfold mbind at 1. unfold M_bind at 1.
    unfold mbind at 1. unfold M_bind at 1. unfold Wire_available, gets at 1.
    rewrite Hrx. cbn [length after mret M_ret app].
    change (0 <? Z.of_nat (S (length rest))) with true. cbn iota.
    rewrite (bind_done _ _ st (g a) st1 out1) by (rewrite Hbody, Hput; reflexivity).
    change (gets (λ st0 : node, Z.of_nat (length (wire_rx st0)))) with Wire_available.
    rewrite Hloop. cbn [after app].
    eexists _, _. split; [rewrite Nat.iter_succ_r; reflexivity|].
    rewrite !occurrences_app. cbn [length].
    pose proof (receive_frame_trans _ _ _ Hfr1 Hfr2).
    split_and!; try done; try lia.
Qed.

(** The transmit loop sends the slots from [uhead + i] on, for [i] up to the
    unsynchronised count, and changes nothing in the node. *)
Lemma transmit_loop (uhead : Z) (fuel : nat) :
  ∀ (i : Z) (st : node),
  Z.of_nat (length (our_log st)) = LOG_SIZE → 0 <= uhead → 0 <= i →
  (Z.to_nat (bytes_unsynched st - i) < fuel)%nat →
  ∃ out,
    while fuel
      (λ i, u ← gets bytes_unsynched; mret (i <? u))
      (λ i, log ← gets our_log;
            b ← defined (load log (Z.rem (uhead + i) LOG_SIZE));
            emit (WireWrite b);;
            mret (i + 1))
      i st
    = Done (Z.max i (bytes_unsynched st)) st out ∧
    Forall (λ e, ∃ b, e = WireWrite b) out ∧
    Z.of_nat (length out) = Z.max 0 (bytes_unsynched st - i).
Proof.
  induction fuel as [|fuel IH]; intros i st Hlen Hhead Hi Hfuel; [lia|].
  cbn [while]. unfold mbind at 1. unfold M_bind at 1.
  unfold mbind at 1. unfold M_bind at 1. unfold gets at 1. cbn [after mret M_ret app].
  destruct (Z.ltb_spec i (bytes_unsynched st)) as [Hlt|Hge]; cbn iota.
  - destruct (load_in_bounds (our_log st) (Z.rem (uhead + i) LOG_SIZE)) as (b & Hload & _).
    { rewrite Hlen, Z.rem_mod_nonneg by (unfold LOG_SIZE; lia).
      apply Z.mod_pos_bound. unfold LOG_SIZE. lia. }
    destruct (IH (i + 1) st Hlen Hhead ltac:(lia) ltac:(lia)) as (out & Hloop & Hall & Hcount).
    rewrite (bind_done _ _ st (i + 1) st [WireWrite b]).
    2:{ unfold mbind, M_bind, gets, defined, emit, mret, M_ret. rewrite Hload. reflexivity. }
    rewrite Hloop. cbn [after app].
    exists (WireWrite b :: out). split_and!.
    + f_equal. lia.
    + constructor; eauto.
    + cbn [length]. lia.
  - exists []. split_and!.
    + unfold mret, M_ret. cbn [after app]. f_equal. lia.
    + constructor.
    + cbn [length]. lia.
Qed.

Lemma transmit_spec (fuel : nat) (uhead : Z) (st : node) :
  Z.of_nat (length (our_log st)) = LOG_SIZE → 0 <= uhead →
  (Z.to_nat (bytes_unsynched st) < fuel)%nat →
  ∃ out, transmit fuel uhead st = Done (Z.max 0 (bytes_unsynched st)) st out ∧
         Forall (λ e, ∃ b, e = WireWrite b) out ∧
         Z.of_nat (length out) = Z.max 0 (bytes_unsynched st).
Proof.
  intros Hlen Hhead Hfuel.
  destruct (transmit_loop uhead fuel 0 st Hlen Hhead ltac:(lia)) as (out & H1 & H2 & H3).
  { now rewrite Z.sub_0_r. }
  exists out. rewrite Z.sub_0_r in H3. auto.
Qed.

Lemma wire_writes_only (p : event → bool) (out : list event) :
  (∀ b, p (WireWrite b) = false) →
  Forall (λ e, ∃ b, e = WireWrite b) out → occurrences p out = 0.
Proof.
  intros Hp Hall. unfold occurrences.
  induction Hall as [|e out [b ->] _ IH]; [reflexivity|].
  cbn [List.filter]. now rewrite Hp.
Qed.

(** The wait for the peer's bytes: over at once when at least the
    requested number is there, and never otherwise. *)
Lemma busy_wait_passes (fuel : nat) (st : node) :
  (0 < fuel)%nat →
  bytes_unsynched st <= Z.of_nat (length (wire_rx st)) →
  while fuel
    (λ _ : unit, a ← Wire_available; u ← gets bytes_unsynched; mret (a <? u))
    (λ _, mret tt) tt st
  = Done tt st [].
Proof.
  intros Hfuel Hle. destruct fuel as [|fuel]; [lia|].
  cbn [while]. unfold mbind, M_bind, Wire_available, gets, mret, M_ret.
  cbn [after app]. now rewrite (proj2 (Z.ltb_ge _ _) Hle).
Qed.

Lemma busy_wait_spins (fuel : nat) (st : node) :
  Z.of_nat (length (wire_rx st)) < bytes_unsynched st →
  while fuel
    (λ _ : unit, a ← Wire_available; u ← gets bytes_unsynched; mret (a <? u))
    (λ _, mret tt) tt st
  = Spinning.
Proof.
  intros Hlt. induction fuel as [|fuel IH]; [reflexivity|].
  cbn [while]. unfold mbind at 1. unfold M_bind at 1.
  unfold mbind at 1. unfold M_bind at 1. unfold mbind at 1. unfold M_bind at 1.
  unfold Wire_available at 1. unfold gets at 1 2. cbn [after mret M_ret app].
  rewrite (proj2 (Z.ltb_lt _ _) Hlt). cbn iota.
  unfold mbind at 1. unfold M_bind at 1. cbn [mret M_ret after app].
  now rewrite IH.
Qed.

Ltac run_step :=
  erewrite bind_done by reflexivity; cbn beta; cbn [after app].

(** ** Synchronisation rounds *)

Lemma alpha_body_is_put (n : Z) (st : node) :
  (their_log_put;; mret (n + 1)) st
  = match their_log_put st with
    | Done _ st' out => Done (n + 1) st' out
    | Undefined => Undefined
    | Spinning => Spinning
    end.
Proof.
  unfold mbind, M_bind. destruct (their_log_put st) as [[] st' out| |]; try reflexivity.
  unfold mret, M_ret. cbn [after]. now rewrite app_nil_r.
Qed.

Lemma beta_body_is_put (st : node) :
  their_log_put st
  = match their_log_put st with
    | Done _ st' out => Done tt st' out
    | Undefined => Undefined
    | Spinning => Spinning
    end.
Proof. now destruct (their_log_put st) as [[] st' out| |]. Qed.

Lemma alpha_synchronize_round (fuel : nat) (delivered : list byte) (st : node) :
  node_ok st → our_id st = alpha →
  bytes_unsynched st ≠ 0 →
  bytes_unsynched st <= LOG_SIZE →
  bytes_unsynched st <= Z.of_nat (length delivered) →
  (length delivered < fuel)%nat →
  ∃ st' out,
    alpha_synchronize fuel delivered st = Done (Z.of_nat (length delivered)) st' out ∧
    bytes_unsynched st' = bytes_unsynched st - Z.of_nat (length delivered) ∧
    bytes_unreported st' = bytes_unreported st + Z.of_nat (length delivered) ∧
    occurrences is_unsynchronized out
      = (if bytes_unsynched st =? Z.of_nat (length delivered) then 0 else 1) ∧
    occurrences is_wire_read out = Z.of_nat (length delivered) ∧
    occurrences is_slow_sync out = 0 ∧
    node_ok st' ∧
    our_id st' = our_id st ∧ our_log st' = our_log st ∧
    our_log_head st' = our_log_head st ∧ our_log_tail st' = our_log_tail st ∧
    their_log_head st' = their_log_head st ∧
    held (their_log_head st') (their_log_tail st')
      = held (their_log_head st) (their_log_tail st)
        + Z.of_nat (length delivered) - occurrences is_slow_dump out.
Proof.
  intros Hok Hid Hnz HU HR Hfuel.
  unfold alpha_synchronize.
  run_step. rewrite Hid. cbn [id_eqb negb].
  run_step. rewrite (proj2 (Z.eqb_neq _ _) Hnz).
  run_step. run_step.
  set (st1 := set_wire_rx delivered st).
  assert (Hok1 : node_ok st1) by exact Hok.
  rewrite (bind_done _ _ st1 tt st1 []) by (apply busy_wait_passes; [lia | exact HR]).
  cbn beta; cbn [after app].
  destruct (receive_loop (λ n, their_log_put;; mret (n + 1)) (λ n, n + 1)
              alpha_body_is_put delivered fuel 0 st1 Hok1 eq_refl Hfuel)
    as (st2 & out2 & Hloop & Hrx2 & Hfr & Hok2 & Hrd & Hun & Hss & Hheld).
  rewrite iter_succ, Z.add_0_l in Hloop.
  rewrite (bind_done _ _ st1 _ st2 out2 Hloop). cbn beta; cbn [after app].
  destruct Hfr as (Hf1 & Hf2 & Hf3 & Hf4 & Hf5 & Hf6 & Hf7). cbn in Hf1, Hf2, Hf3, Hf4, Hf5, Hf6, Hf7.
  do 4 run_step. cbn zeta.
  destruct Hok2 as ([Hlen2 Ht2] & Hok2'). pose proof Hok as ([_ Ht0] & _).
  destruct (transmit_spec fuel (unsynched_head (bytes_unsynched st2) (our_log_tail st2) LOG_SIZE) st2)
    as (out3 & Htx & Hall & _).
  { exact Hlen2. }
  { unfold unsynched_head. apply Z.rem_nonneg; unfold LOG_SIZE in *; lia. }
  { lia. }
  rewrite (bind_done _ _ st2 _ st2 out3 Htx). cbn beta; cbn [after app].
  do 2 run_step.
  assert (Hflag : ∃ flag,
    (if negb (bytes_unsynched st2 =? Z.of_nat (length delivered))
     then digitalWrite UNSYNCHRONIZED_LED HIGH else mret ()) st2 = Done tt st2 flag ∧
    occurrences is_unsynchronized flag
      = (if bytes_unsynched st =? Z.of_nat (length delivered) then 0 else 1) ∧
    occurrences is_wire_read flag = 0 ∧ occurrences is_slow_sync flag = 0 ∧
    occurrences is_slow_dump flag = 0).
  { rewrite Hf6. destruct (bytes_unsynched st =? Z.of_nat (length delivered));
      eexists; (split; [reflexivity|]); repeat split. }
  destruct Hflag as (flag & Hflag & Hc1 & Hc2 & Hc3 & Hc4).
  rewrite (bind_done _ _ st2 _ st2 flag Hflag). cbn beta; cbn [after app].
  do 4 run_step. unfold mret, M_ret. cbn [after app].
  eexists _, _. split; [reflexivity|].
  pose proof (wire_writes_only is_unsynchronized out3 (λ _, eq_refl) Hall).
  pose proof (wire_writes_only is_wire_read out3 (λ _, eq_refl) Hall).
  pose proof (wire_writes_only is_slow_sync out3 (λ _, eq_refl) Hall).
  pose proof (wire_writes_only is_slow_dump out3 (λ _, eq_refl) Hall).
  count_events. cbn.
  unfold node_ok. cbn.
  destruct Hok2' as (? & ? & ?).
  change (held (their_log_head st1) (their_log_tail st1))
    with (held (their_log_head st) (their_log_tail st)) in Hheld.
  split_and!; try done; try congruence; try lia.
Qed.

Lemma alpha_synchronize_bails (fuel : nat) (delivered : list byte) (st : node) :
  our_id st ≠ alpha ∨ bytes_unsynched st = 0 →
  alpha_synchronize fuel delivered st = Done 0 st [].
Proof.
  intros Hbail. unfold alpha_synchronize. run_step.
  destruct (our_id st) eqn:Hid; cbn [id_eqb negb].
  - destruct Hbail as [Hne|Hz]; [congruence|].
    run_step. now rewrite Hz.
  - reflexivity.
Qed.

(** With fewer bytes than requested the initiator never gets past its
    wait, whatever the fuel. *)
Lemma alpha_synchronize_blocks (fuel : nat) (delivered : list byte) (st : node) :
  our_id st = alpha → bytes_unsynched st ≠ 0 →
  Z.of_nat (length delivered) < bytes_unsynched st →
  alpha_synchronize fuel delivered st = Spinning.
Proof.
  intros Hid Hnz Hshort. unfold alpha_synchronize.
  run_step. rewrite Hid. cbn [id_eqb negb].
  run_step. rewrite (proj2 (Z.eqb_neq _ _) Hnz).
  run_step. run_step.
  unfold mbind at 1. unfold M_bind at 1.
  now rewrite busy_wait_spins.
Qed.

Lemma Wire_onReceive_round (fuel : nat) (delivered : list byte) (st : node) :
  node_ok st → (length delivered < fuel)%nat →
  ∃ st' out,
    Wire_onReceive fuel delivered st = Done tt st' out ∧
    bytes_unsynched st' = bytes_unsynched st - Z.of_nat (length delivered) ∧
    bytes_unreported st' = bytes_unreported st + Z.of_nat (length delivered) ∧
    occurrences is_unsynchronized out
      = (if bytes_unsynched st =? Z.of_nat (length delivered) then 0 else 1) ∧
    occurrences is_wire_read out = Z.of_nat (length delivered) ∧
    occurrences is_slow_sync out = 0 ∧
    node_ok st' ∧
    our_id st' = our_id st ∧ our_log st' = our_log st ∧
    our_log_head st' = our_log_head st ∧ our_log_tail st' = our_log_tail st ∧
    their_log_head st' = their_log_head st ∧
    held (their_log_head st') (their_log_tail st')
      = held (their_log_head st) (their_log_tail st)
        + Z.of_nat (length delivered) - occurrences is_slow_dump out.
Proof.
  intros Hok Hfuel. unfold Wire_onReceive, beta_synchronize_rx.
  run_step.
  set (st1 := set_wire_rx delivered st).
  assert (Hok1 : node_ok st1) by exact Hok.
  destruct (receive_loop (λ _ : unit, their_log_put) (λ _, tt)
              (λ _, beta_body_is_put) delivered fuel tt st1 Hok1 eq_refl Hfuel)
    as (st2 & out2 & Hloop & Hrx2 & Hfr & Hok2 & Hrd & Hun & Hss & Hheld).
  assert (Hiter : Nat.iter (length delivered) (λ _ : unit, tt) tt = tt)
    by (now destruct (Nat.iter _ _ _)).
  rewrite Hiter in Hloop.
  rewrite (bind_done _ _ st1 _ st2 out2 Hloop). cbn beta; cbn [after app].
  destruct Hfr as (Hf1 & Hf2 & Hf3 & Hf4 & Hf5 & Hf6 & Hf7).
  cbn in Hf1, Hf2, Hf3, Hf4, Hf5, Hf6, Hf7.
  run_step.
  assert (Hflag : ∃ flag,
    (if negb (bytes_unsynched st2 =? Z.of_nat (length delivered))
     then digitalWrite UNSYNCHRONIZED_LED HIGH else mret ()) st2 = Done tt st2 flag ∧
    occurrences is_unsynchronized flag
      = (if bytes_unsynched st =? Z.of_nat (length delivered) then 0 else 1) ∧
    occurrences is_wire_read flag = 0 ∧ occurrences is_slow_sync flag = 0 ∧
    occurrences is_slow_dump flag = 0).
  { rewrite Hf6. destruct (bytes_unsynched st =? Z.of_nat (length delivered));
      eexists; (split; [reflexivity|]); repeat split. }
  destruct Hflag as (flag & Hflag & Hc1 & Hc2 & Hc3 & Hc4).
  rewrite (bind_done _ _ st2 _ st2 flag Hflag). cbn beta; cbn [after app].
  do 3 run_step. unfold modify. cbn [after app].
  eexists _, _. split; [reflexivity|].
  count_events. cbn.
  unfold node_ok. cbn.
  destruct Hok2 as (? & ? & ? & ?).
  change (held (their_log_head st1) (their_log_tail st1))
    with (held (their_log_head st) (their_log_tail st)) in Hheld.
  split_and!; try done; try congruence; try lia.
Qed.

Lemma beta_synchronize_tx_spec (fuel : nat) (st : node) :
  node_ok st → bytes_unsynched st <= LOG_SIZE →
  (Z.to_nat (bytes_unsynched st) < fuel)%nat →
  ∃ out, beta_synchronize_tx fuel st = Done tt st out ∧
         Forall (λ e, ∃ b, e = WireWrite b) out.
Proof.
  intros ([Hlen Ht] & _) HU Hfuel. unfold beta_synchronize_tx.
  do 2 run_step. cbn zeta.
  destruct (transmit_spec fuel (unsynched_head (bytes_unsynched st) (our_log_tail st) LOG_SIZE) st)
    as (out & Htx & Hall & _); [exact Hlen | | exact Hfuel |].
  { unfold unsynched_head. apply Z.rem_nonneg; unfold LOG_SIZE in *; lia. }
  rewrite (bind_done _ _ st _ st out Htx). cbn beta. unfold mret, M_ret. cbn [after app].
  exists out. now rewrite app_nil_r.
Qed.

(** ** The initiator's round when no interrupt comes *)

Lemma after_nil {A : Type} (o : outcome A) : after [] o = o.
Proof. now destruct o. Qed.

Lemma after_uninterrupted {A : Type} (out : list event) (o : outcome A) :
  after out (uninterrupted o) = uninterrupted (after out o).
Proof. now destruct o. Qed.

Lemma bind_unfold {A B : Type} (m : M A) (f : A → M B) (st : node) :
  (m ≫= f) st
  = match m st with
    | Done a st1 out1 => after out1 (f a st1)
    | Undefined => Undefined
    | Spinning => Spinning
    end.
Proof. reflexivity. Qed.

(** A loop that threads an exhausted schedule is the loop without it. *)
Lemma while_uninterrupted {A : Type} (cond : A → M bool) (body : A → M A)
  (cond' : A * Irq.schedule → M bool) (body' : A * Irq.schedule → M (A * Irq.schedule)) :
  (∀ a st, cond' (a, []) st = cond a st) →
  (∀ a st, body' (a, []) st = uninterrupted (body a st)) →
  ∀ fuel a st,
    while fuel cond' body' (a, []) st = uninterrupted (while fuel cond body a st).
Proof.
  intros Hcond Hbody fuel. induction fuel as [|fuel IH]; intros a st; [reflexivity|].
  cbn [while]. rewrite !bind_unfold, Hcond.
  destruct (cond a st) as [[] st1 out1| |]; try reflexivity.
  rewrite !bind_unfold, Hbody.
  destruct (body a st1) as [a2 st2 out2| |]; try reflexivity.
  cbn [uninterrupted]. rewrite IH. now rewrite !after_uninterrupted.
Qed.

Lemma their_log_put_uninterrupted (st : node) :
  Irq.their_log_put [] st
  = match their_log_put st with
    | Done _ st' out => Done [] st' out
    | Undefined => Undefined
    | Spinning => Spinning
    end.
Proof.
  unfold Irq.their_log_put, their_log_put.
  rewrite !bind_unfold. cbn [gets after app].
  rewrite !bind_unfold. cbn [gets after app].
  destruct (negb (their_log_head st =? Z.rem (their_log_tail st + 1) LOG_SIZE)).
  - rewrite !bind_unfold.
    destruct (Wire_read st) as [b st1 out1| |]; try reflexivity.
    rewrite !bind_unfold. cbn [gets after app].
    rewrite !bind_unfold. unfold defined.
    destruct (store (their_log st1) (their_log_tail st) b); reflexivity.
  - rewrite !bind_unfold.
    destruct (Wire_read st) as [b st1 out1| |]; reflexivity.
Qed.

Lemma transmit_uninterrupted (fuel : nat) (uhead : Z) (st : node) :
  Irq.transmit fuel uhead [] st = uninterrupted (transmit fuel uhead st).
Proof.
  unfold Irq.transmit, transmit. apply while_uninterrupted.
  - reflexivity.
  - intros i st1. rewrite !bind_unfold. cbn [Irq.interrupt mret M_ret gets after app fst snd].
    rewrite !bind_unfold. cbn [gets after app].
    rewrite !bind_unfold. unfold defined.
    destruct (load (our_log st1) (Z.rem (uhead + i) LOG_SIZE)); reflexivity.
Qed.

Lemma load_span_uninterrupted (tail_first : bool) (st : node) :
  Irq.load_span tail_first [] st
  = Done (bytes_unsynched st, our_log_tail st, []) st [].
Proof. now destruct tail_first. Qed.

Ltac peel :=
  rewrite <- ?after_uninterrupted, ?after_nil;
  repeat lazymatch goal with
         | |- after ?out _ = after ?out _ => apply (f_equal (after out))
         end.

(** The round as written above is the round with interrupts when none
    comes, whichever argument of [unsynched_head] is loaded first. *)
Lemma alpha_synchronize_uninterrupted (tail_first : bool) (fuel : nat)
  (delivered : list byte) (st : node) :
  Irq.alpha_synchronize tail_first fuel delivered [] st
  = uninterrupted (alpha_synchronize fuel delivered st).
Proof.
  unfold Irq.alpha_synchronize, alpha_synchronize.
  rewrite !bind_unfold. cbn [gets after app].
  destruct (negb (id_eqb (our_id st) alpha)); [reflexivity|].
  rewrite !bind_unfold. cbn [Irq.interrupt mret M_ret gets after app].
  rewrite !bind_unfold. cbn [gets after app].
  destruct (bytes_unsynched st =? 0); [reflexivity|].
  unfold Wire_requestFrom, digitalWrite.
  repeat (rewrite !bind_unfold; cbn [Irq.interrupt mret M_ret gets modify emit after app]).
  rewrite (while_uninterrupted
             (λ _, a ← Wire_available; u ← gets bytes_unsynched; mret (a <? u))
             (λ _, mret tt)); [|reflexivity|reflexivity].
  destruct (while fuel _ _ tt _) as [[] st2 out2| |]; try reflexivity.
  cbn [uninterrupted after app fst snd].
  repeat (rewrite !bind_unfold; cbn [Irq.interrupt mret M_ret gets modify emit after app]).
  peel.
  rewrite (while_uninterrupted
             (λ _, a ← Wire_available; mret (0 <? a))
             (λ n, their_log_put;; mret (n + 1))); [|reflexivity|].
  2:{ intros n st3. rewrite !bind_unfold. cbn [Irq.interrupt mret M_ret after app fst snd].
      rewrite !bind_unfold, their_log_put_uninterrupted.
      destruct (their_log_put st3) as [[] st4 out4| |]; reflexivity. }
  destruct (while fuel _ _ 0 _) as [n st3 out3| |]; try reflexivity.
  cbn [uninterrupted after app fst snd]. peel.
  repeat (rewrite !bind_unfold; cbn [Irq.interrupt mret M_ret gets modify emit after app]).
  rewrite load_span_uninterrupted. cbn [fst snd].
  repeat (rewrite !bind_unfold; cbn [Irq.interrupt mret M_ret gets modify emit after app]).
  peel. rewrite transmit_uninterrupted.
  destruct (transmit fuel _ st3) as [i st4 out4| |]; try reflexivity.
  cbn [uninterrupted after app fst snd]. peel.
  repeat (rewrite !bind_unfold; cbn [Irq.interrupt mret M_ret gets modify emit after app]).
  peel.
  destruct (negb (bytes_unsynched st4 =? n)); reflexivity.
Qed.

(** ** The reporter *)

(** A loop whose test and body leave the node alone leaves it alone, and
    emits only what they emit. *)
Lemma while_keeps_state {A : Type} (Q : event → Prop)
  (cond : A → M bool) (body : A → M A) :
  (∀ a st c st' out, cond a st = Done c st' out → st' = st ∧ Forall Q out) →
  (∀ a st a' st' out, body a st = Done a' st' out → st' = st ∧ Forall Q out) →
  ∀ fuel a st a' st' out,
    while fuel cond body a st = Done a' st' out → st' = st ∧ Forall Q out.
Proof.
  intros Hcond Hbody fuel. induction fuel as [|fuel IH]; intros a st a' st' out Hrun.
  - discriminate.
  - cbn [while] in Hrun. unfold mbind at 1 in Hrun. unfold M_bind at 1 in Hrun.
    destruct (cond a st) as [c st1 out1| |] eqn:Hc; try discriminate.
    apply Hcond in Hc. destruct Hc as [-> Hq1].
    destruct c.
    + unfold mbind at 1 in Hrun. unfold M_bind at 1 in Hrun.
      destruct (body a st) as [a1 st1 out2| |] eqn:Hb; try discriminate.
      apply Hbody in Hb. destruct Hb as [-> Hq2].
      destruct (while fuel cond body a1 st) as [a2 st2 out3| |] eqn:Hw; try discriminate.
      apply IH in Hw. destruct Hw as [-> Hq3]. cbn in Hrun.
      inversion Hrun; subst. split; [reflexivity|].
      repeat (apply Forall_app; split); assumption.
    + cbn in Hrun. inversion Hrun; subst. split; [reflexivity|].
      now rewrite app_nil_r.
Qed.

Lemma quiet_occurrences (out : list event) :
  Forall quiet out →
  occurrences is_slow_sync out = 0 ∧ occurrences is_slow_dump out = 0 ∧
  occurrences is_wire_read out = 0 ∧ occurrences is_unsynchronized out = 0.
Proof.
  induction 1 as [|e out (H1 & H2 & H3 & H4) _ IH]; [repeat split|].
  rewrite !occurrences_cons, H1, H2, H3, H4. lia.
Qed.

Lemma report_pair_keeps_state (start : Z) (locals : Z * Z) (st : node) a' st' out :
  report_pair start locals st = Done a' st' out → st' = st ∧ Forall quiet out.
Proof.
  destruct locals as [i n]. unfold report_pair, mbind, M_bind, gets, defined, emit, mret, M_ret.
  destruct (id_eqb (our_id st) alpha); cbn;
    repeat (match goal with
            | |- context [load ?l ?i] => destruct (load l i)
            end; cbn);
    try discriminate;
    intros H; inversion H; subst; (split; [reflexivity|]);
    repeat constructor.
Qed.

Lemma report_keeps_state (fuel : nat) (st st' : node) (out : list event) :
  report fuel st = Done tt st' out → st' = st ∧ Forall quiet out.
Proof.
  unfold report. unfold mbind at 1. unfold M_bind at 1. unfold gets at 1. cbn [after].
  destruct (0 <? bytes_unreported st).
  - do 2 (unfold mbind at 1; unfold M_bind at 1; unfold gets at 1; cbn [after]).
    cbn zeta. unfold mbind at 1. unfold M_bind at 1.
    destruct (while fuel _ _ _ st) as [a1 st1 out1| |] eqn:Hw; try discriminate.
    apply (while_keeps_state quiet) in Hw.
    + destruct Hw as [-> Hq]. cbn. intros H; inversion H; subst.
      split; [reflexivity|]. now rewrite app_nil_r.
    + intros [i n] s c s' o. unfold mbind, M_bind, gets, mret, M_ret. cbn.
      intros H; inversion H; subst. split; [reflexivity | constructor].
    + intros. eapply report_pair_keeps_state; eassumption.
  - cbn. intros H; inversion H; subst. split; [reflexivity | constructor].
Qed.

Lemma beta_synchronize_tx_keeps_state (fuel : nat) (st st' : node) (out : list event) :
  beta_synchronize_tx fuel st = Done tt st' out → st' = st ∧ Forall quiet out.
Proof.
  unfold beta_synchronize_tx, transmit.
  do 2 (unfold mbind at 1; unfold M_bind at 1; unfold gets at 1; cbn [after]).
  cbn zeta. unfold mbind at 1. unfold M_bind at 1.
  destruct (while fuel _ _ _ st) as [a1 st1 out1| |] eqn:Hw; try discriminate.
  apply (while_keeps_state quiet) in Hw.
  - destruct Hw as [-> Hq]. cbn. intros H; inversion H; subst.
    split; [reflexivity|]. now rewrite app_nil_r.
  - intros i s c s' o. unfold mbind, M_bind, gets, mret, M_ret. cbn.
    intros H; inversion H; subst. split; [reflexivity | constructor].
  - intros i s a' s' o. unfold mbind, M_bind, gets, defined, emit, mret, M_ret.
    destruct (load (our_log s) _); cbn; try discriminate.
    intros H; inversion H; subst. split; [reflexivity|]. repeat constructor.
Qed.

Lemma report_loop (start : Z) (fuel : nat) :
  ∀ (i n : Z) (st : node),
  Z.of_nat (length (our_log st)) = LOG_SIZE →
  Z.of_nat (length (their_log st)) = LOG_SIZE →
  0 <= start → 0 <= i →
  (Z.to_nat (bytes_unreported st - i) < fuel)%nat →
  ∃ locals out,
    while fuel (λ '(i, _), r ← gets bytes_unreported; mret (i <? r))
      (report_pair start) (i, n) st
    = Done locals st out ∧
    Z.of_nat (length out) = 3 * Z.max 0 (bytes_unreported st - i).
Proof.
  induction fuel as [|fuel IH]; intros i n st Hours Htheirs Hstart Hi Hfuel; [lia|].
  cbn [while]. unfold mbind at 1. unfold M_bind at 1.
  unfold mbind at 1. unfold M_bind at 1. unfold gets at 1. cbn [after mret M_ret app].
  destruct (Z.ltb_spec i (bytes_unreported st)) as [Hlt|Hge]; cbn iota.
  - assert (Hidx : 0 <= Z.rem (start + i) LOG_SIZE < LOG_SIZE).
    { rewrite Z.rem_mod_nonneg by (unfold LOG_SIZE; lia).
      apply Z.mod_pos_bound. unfold LOG_SIZE. lia. }
    destruct (load_in_bounds (our_log st) (Z.rem (start + i) LOG_SIZE)) as (b & Hb & _); [lia|].
    destruct (load_in_bounds (their_log st) (Z.rem (start + i) LOG_SIZE)) as (c & Hc & _); [lia|].
    destruct (IH (i + 1) (n + 1) st Hours Htheirs Hstart ltac:(lia) ltac:(lia))
      as (locals & out & Hloop & Hcount).
    assert (Hpair : ∃ out1, report_pair start (i, n) st = Done (i + 1, n + 1) st out1 ∧
                            length out1 = 3%nat).
    { unfold report_pair, mbind, M_bind, gets, defined, emit, mret, M_ret.
      destruct (id_eqb (our_id st) alpha); cbn beta iota; repeat (first [rewrite Hb | rewrite Hc]; cbn [after app]); cbn; eauto. }
    destruct Hpair as (out1 & Hpair & Hlen1).
    rewrite (bind_done _ _ st _ st out1 Hpair). rewrite Hloop. cbn [after].
    eexists _, _. split; [reflexivity|].
    cbn [app]. rewrite length_app. lia.
  - unfold mret, M_ret. cbn [after app]. eexists _, _. split; [reflexivity|].
    cbn [length]. lia.
Qed.

Lemma report_defined (fuel : nat) (st : node) :
  node_ok st →
  0 <= bytes_unsynched st < LOG_SIZE →
  bytes_unreported st <= LOG_SIZE →
  (Z.to_nat (bytes_unreported st) < fuel)%nat →
  ∃ out, report fuel st = Done tt st out ∧
         Z.of_nat (length out) = 3 * Z.max 0 (bytes_unreported st).
Proof.
  intros ([Hours Ht] & _ & [Htheirs _] & _) HU HR Hfuel.
  unfold report. run_step.
  destruct (Z.ltb_spec 0 (bytes_unreported st)) as [Hpos|Hnone].
  - do 2 run_step. cbn zeta.
    pose proof (unreported_head_range (bytes_unreported st) (bytes_unsynched st)
                  (our_log_tail st) LOG_SIZE HU ltac:(lia) Ht) as Hstart.
    destruct (report_loop _ fuel 0 0 st Hours Htheirs (proj1 Hstart) ltac:(lia))
      as (locals & out & Hloop & Hcount).
    { now rewrite Z.sub_0_r. }
    rewrite (bind_done _ _ st _ st out Hloop). unfold mret, M_ret. cbn [after].
    exists (out ++ []). split; [reflexivity|].
    rewrite app_nil_r, Hcount. f_equal. f_equal. lia.
  - exists []. split; [reflexivity|]. cbn [length]. lia.
Qed.

(** ** Fuel *)

Lemma monotone_const {A : Type} (m : M A) : monotone (λ _, m).
Proof. intros fuel fuel' st a st' out _ H. exact H. Qed.

Lemma monotone_bind {A B : Type} (m : nat → M A) (f : nat → A → M B) :
  monotone m → (∀ a, monotone (λ fuel, f fuel a)) →
  monotone (λ fuel, m fuel ≫= f fuel).
Proof.
  intros Hm Hf fuel fuel' st b st' out Hle. unfold mbind, M_bind.
  destruct (m fuel st) as [a st1 out1| |] eqn:H1; try discriminate.
  rewrite (Hm _ _ _ _ _ _ Hle H1).
  destruct (f fuel a st1) as [b2 st2 out2| |] eqn:H2; try discriminate.
  now rewrite (Hf a _ _ _ _ _ _ Hle H2).
Qed.

Lemma monotone_while {A : Type} (cond : A → M bool) (body : A → M A) (a : A) :
  monotone (λ fuel, while fuel cond body a).
Proof.
  intros fuel. revert a.
  induction fuel as [|fuel IH]; intros a fuel' st r st' out Hle Hrun; [discriminate|].
  destruct fuel' as [|fuel']; [lia|].
  cbn [while] in *. unfold mbind at 1 in Hrun. unfold M_bind at 1 in Hrun.
  unfold mbind at 1. unfold M_bind at 1.
  destruct (cond a st) as [c st1 out1| |]; try discriminate.
  destruct c; [|exact Hrun].
  unfold mbind at 1 in Hrun. unfold M_bind at 1 in Hrun.
  unfold mbind at 1. unfold M_bind at 1.
  destruct (body a st1) as [a1 st2 out2| |]; try discriminate.
  destruct (while fuel cond body a1 st2) as [a3 st3 out3| |] eqn:Hw; try discriminate.
  now rewrite (IH a1 fuel' _ _ _ _ ltac:(lia) Hw).
Qed.

Ltac monotone_steps :=
  repeat first
    [ apply monotone_const
    | apply monotone_while
    | apply monotone_bind; [|intros ?]
    | match goal with
      | |- monotone (λ _, if ?b then _ else _) => destruct b
      end ].

Lemma alpha_synchronize_monotone (delivered : list byte) :
  monotone (λ fuel, alpha_synchronize fuel delivered).
Proof. unfold alpha_synchronize, transmit. monotone_steps. Qed.

Lemma perform_monotone (a : action) : monotone (λ fuel, perform fuel a).
Proof.
  destruct a; cbn [perform].
  - apply monotone_const.
  - unfold loop. monotone_steps.
  - unfold beta_synchronize_tx, transmit. monotone_steps.
  - unfold Wire_onReceive, beta_synchronize_rx. monotone_steps.
Qed.

(** ** What a node's life preserves *)

Lemma accounted_quiet (st : node) (out : list event) :
  backlog_ok st → Forall quiet out → accounted 0 st st out.
Proof.
  intros Hok Hq. destruct (quiet_occurrences out Hq) as (H1 & H2 & H3 & H4).
  unfold accounted. rewrite H1, H2, H3. split_and!; try done; lia.
Qed.

Lemma ISR_accounted (SPDR : byte) (st st' : node) (out : list event) :
  backlog_ok st → ISR SPDR st = Done tt st' out → accounted 1 st st' out.
Proof.
  intros [Hok HU] Hrun.
  pose proof Hok as ([Hlen Ht] & [_ Hh] & Htheirs).
  destruct (held_after_put _ _ Hh Ht) as (Hfull & Hput & Hnext).
  destruct (Z.eq_dec (our_log_head st) (Z.rem (our_log_tail st + 1) LOG_SIZE)) as [Heq|Hne].
  - rewrite (ISR_full SPDR st Heq) in Hrun. inversion Hrun; subst.
    unfold accounted, backlog_ok. count_events. split_and!; try done; lia.
  - rewrite (ISR_room SPDR st Hne (conj Hlen Ht)) in Hrun. inversion Hrun; subst.
    pose proof (held_range (our_log_head st) (our_log_tail st)).
    unfold accounted, backlog_ok, node_ok, log_ok in *. count_events. cbn.
    rewrite length_insert, (Hput Hne).
    split_and!; try done; try tauto; try lia.
Qed.

Lemma Wire_onReceive_accounted (fuel : nat) (delivered : list byte)
  (st st' : node) (out : list event) :
  backlog_ok st → Wire_onReceive fuel delivered st = Done tt st' out →
  accounted 0 st st' out ∧ bytes_unsynched st' <= bytes_unsynched st.
Proof.
  intros [Hok HU] Hrun.
  apply (perform_monotone (OnReceive delivered) fuel (fuel + S (length delivered))%nat)
    in Hrun; [|lia]. cbn [perform] in Hrun.
  destruct (Wire_onReceive_round (fuel + S (length delivered)) delivered st Hok ltac:(lia))
    as (st2 & out2 & Hrun2 & Hu & _ & _ & Hrd & Hss & Hok2 & _ & _ & Hh & Ht & Hth & Hheld).
  rewrite Hrun2 in Hrun. inversion Hrun; subst.
  unfold accounted, backlog_ok. rewrite Hh, Ht, Hth, Hss, Hrd, Hu in *.
  split_and!; try done; lia.
Qed.

Lemma alpha_synchronize_accounted (fuel : nat) (delivered : list byte)
  (st st' : node) (out : list event) (n : Z) :
  backlog_ok st → alpha_synchronize fuel delivered st = Done n st' out →
  accounted 0 st st' out ∧ bytes_unsynched st' <= bytes_unsynched st.
Proof.
  intros [Hok HU] Hrun.
  apply (alpha_synchronize_monotone delivered fuel (fuel + S (length delivered))%nat)
    in Hrun; [|lia].
  pose proof (held_range (our_log_head st) (our_log_tail st)) as Hheld.
  destruct (our_id st) eqn:Hid.
  - destruct (Z.eq_dec (bytes_unsynched st) 0) as [Hz|Hnz].
    + rewrite alpha_synchronize_bails in Hrun by auto. inversion Hrun; subst.
      split; [|lia]. apply accounted_quiet; [split; assumption | constructor].
    + destruct (Z.lt_ge_cases (Z.of_nat (length delivered)) (bytes_unsynched st)) as [Hshort|Hfits].
      * rewrite alpha_synchronize_blocks in Hrun by assumption. discriminate.
      * destruct (alpha_synchronize_round (fuel + S (length delivered)) delivered st Hok Hid Hnz
                    ltac:(unfold LOG_SIZE in *; lia) Hfits ltac:(lia))
          as (st2 & out2 & Hrun2 & Hu & _ & _ & Hrd & Hss & Hok2 & _ & _ & Hh & Ht & Hth & Hheld2).
        rewrite Hrun2 in Hrun. inversion Hrun; subst.
        unfold accounted, backlog_ok. rewrite Hh, Ht, Hth, Hss, Hrd, Hu in *.
        split_and!; try done; lia.
  - rewrite alpha_synchronize_bails in Hrun by (left; congruence). inversion Hrun; subst.
    split; [|lia]. apply accounted_quiet; [split; assumption | constructor].
Qed.

Lemma accounted_pad (n : Z) (st st' : node) (pre out post : list event) :
  accounted n st st' out → Forall quiet pre → Forall quiet post →
  accounted n st st' (pre ++ out ++ post).
Proof.
  unfold accounted. intros (Hok & H1 & H2 & H3 & H4) Hpre Hpost.
  destruct (quiet_occurrences pre Hpre) as (? & ? & ? & _).
  destruct (quiet_occurrences post Hpost) as (? & ? & ? & _).
  rewrite !occurrences_app. split_and!; try done; lia.
Qed.

Lemma loop_accounted (fuel : nat) (delivered : list byte)
  (st st' : node) (out : list event) :
  backlog_ok st → loop fuel delivered st = Done tt st' out →
  accounted 0 st st' out.
Proof.
  intros Hok. unfold loop. run_step.
  unfold mbind at 1. unfold M_bind at 1.
  destruct (id_eqb (our_id st) alpha).
  - unfold mbind at 1. unfold M_bind at 1. cbn [digitalWrite emit after].
    unfold mbind at 1. unfold M_bind at 1.
    destruct (alpha_synchronize fuel delivered st) as [n st1 out1| |] eqn:Hsync;
      try discriminate.
    destruct (alpha_synchronize_accounted _ _ _ _ _ _ Hok Hsync) as [Hacc _].
    cbn [after app digitalWrite emit].
    destruct (report fuel st1) as [[] st2 out2| |] eqn:Hrep; try discriminate.
    destruct (report_keeps_state _ _ _ _ Hrep) as [-> Hq].
    cbn [after app]. intros H; inversion H; subst.
    replace (DigitalWrite SYNCHRONIZATION_LED HIGH
             :: (out1 ++ [DigitalWrite SYNCHRONIZATION_LED LOW]) ++ out2)
      with ([DigitalWrite SYNCHRONIZATION_LED HIGH] ++ out1
            ++ ([DigitalWrite SYNCHRONIZATION_LED LOW] ++ out2))
      by (cbn [app]; now rewrite <- app_assoc).
    apply accounted_pad; [exact Hacc | repeat constructor |].
    constructor; [repeat constructor | exact Hq].
  - cbn [mret M_ret after].
    destruct (report fuel st) as [[] st2 out2| |] eqn:Hrep; try discriminate.
    destruct (report_keeps_state _ _ _ _ Hrep) as [-> Hq].
    cbn [after app]. intros H; inversion H; subst.
    now apply accounted_quiet.
Qed.

Lemma accounted_trans (n m : Z) (st1 st2 st3 : node) (o1 o2 : list event) :
  accounted n st1 st2 o1 → accounted m st2 st3 o2 →
  accounted (n + m) st1 st3 (o1 ++ o2).
Proof.
  unfold accounted. intros (_ & H1 & H2 & H3 & H4) (Hok & H5 & H6 & H7 & H8).
  rewrite !occurrences_app. rewrite H1, H2 in *.
  split_and!; try done; lia.
Qed.

Lemma perform_accounted (fuel : nat) (a : action) (st st' : node) (out : list event) :
  backlog_ok st → perform fuel a st = Done tt st' out →
  accounted (if is_capture a then 1 else 0) st st' out.
Proof.
  intros Hok Hrun. destruct a as [SPDR|delivered| |delivered]; cbn [perform is_capture] in *.
  - eapply ISR_accounted; eassumption.
  - eapply loop_accounted; eassumption.
  - destruct (beta_synchronize_tx_keeps_state _ _ _ _ Hrun) as [-> Hq].
    now apply accounted_quiet.
  - eapply Wire_onReceive_accounted; eassumption.
Qed.

Lemma captures_cons (a : action) (acts : list action) :
  captures (a :: acts) = (if is_capture a then 1 else 0) + captures acts.
Proof. unfold captures. cbn [List.filter]. destruct (is_capture a); cbn [length]; lia. Qed.

Lemma perform_all_accounted (fuel : nat) (acts : list action) :
  ∀ (st st' : node) (out : list event),
  backlog_ok st → perform_all fuel acts st = Done tt st' out →
  accounted (captures acts) st st' out.
Proof.
  induction acts as [|a acts IH]; intros st st' out Hok Hrun.
  - cbn in Hrun. inversion Hrun; subst. apply accounted_quiet; [assumption | constructor].
  - cbn [perform_all] in Hrun. unfold mbind, M_bind in Hrun.
    destruct (perform fuel a st) as [[] st1 out1| |] eqn:Hstep; try discriminate.
    destruct (perform_all fuel acts st1) as [[] st2 out2| |] eqn:Hrest; try discriminate.
    cbn [after] in Hrun. inversion Hrun; subst.
    pose proof (perform_accounted _ _ _ _ _ Hok Hstep) as Hacc1.
    pose proof (IH _ _ _ (proj1 Hacc1) Hrest) as Hacc2.
    rewrite captures_cons. eapply accounted_trans; eassumption.
Qed.

Lemma boot_backlog_ok (me : id) : backlog_ok (boot me).
Proof.
  unfold backlog_ok, node_ok, log_ok, boot. cbn.
  rewrite length_replicate. unfold held, LOG_SIZE. change ((0 - 0) `mod` 128) with 0. lia.
Qed.



(** ** Capture, synchronisation rounds and reporter of a node *)

(** The handler with head and tail.  When a byte arrives and [our_log] is
    full (its head is the slot after its tail) it lights the slow-sync
    indicator once and leaves the whole node as it was: nothing is stored,
    the tail and the unsynchronised count stay.  Otherwise it stores the
    byte at the tail, advances the tail by one slot around the ring and adds
    one to the unsynchronised count, without any indicator. *)
Theorem ISR_drops_or_appends (SPDR : byte) (st : node) :
  log_ok (our_log st) (our_log_tail st) →
  (our_log_head st = Z.rem (our_log_tail st + 1) LOG_SIZE →
     ISR SPDR st = Done tt st [DigitalWrite SLOWSYNC_LED HIGH]) ∧
  (our_log_head st ≠ Z.rem (our_log_tail st + 1) LOG_SIZE →
     ISR SPDR st =
       Done tt
         (set_bytes_unsynched (bytes_unsynched st + 1)
            (set_our_log_tail (Z.rem (our_log_tail st + 1) LOG_SIZE)
               (set_our_log (<[Z.to_nat (our_log_tail st) := SPDR]> (our_log st)) st)))
         []).
Proof.
  intros Hlog. split; intros Hcmp.
  - now apply ISR_full.
  - now apply ISR_room.
Qed.

Lemma ISR_drops_or_appends_witness :
  (our_log_head full_node = Z.rem (our_log_tail full_node + 1) LOG_SIZE →
     ISR x99 full_node = Done tt full_node [DigitalWrite SLOWSYNC_LED HIGH]) ∧
  (our_log_head full_node ≠ Z.rem (our_log_tail full_node + 1) LOG_SIZE →
     ISR x99 full_node =
       Done tt
         (set_bytes_unsynched (bytes_unsynched full_node + 1)
            (set_our_log_tail (Z.rem (our_log_tail full_node + 1) LOG_SIZE)
               (set_our_log (<[Z.to_nat (our_log_tail full_node) := x99]> (our_log full_node))
                  full_node)))
         []).
Proof.
  apply (ISR_drops_or_appends x99 full_node).
  split; [reflexivity | vm_compute; split; [discriminate | reflexivity]].
Defined.

Example ISR_on_full_node :
  ISR x99 full_node = Done tt full_node [DigitalWrite SLOWSYNC_LED HIGH].
Proof. reflexivity. Qed.

Example ISR_after_boot :
  ISR x99 (boot beta)
  = Done tt (Node beta (x99 :: replicate 127 x00) (replicate 128 x00) 0 1 0 0 1 0 []) [].
Proof. reflexivity. Qed.

(** C7.  The handler of spi_sniff.ino does not drop the byte that finds the
    log full: with the position at the end of the log it lights the
    slow-sync indicator, goes back to slot 0 and stores the byte there, over
    the oldest one, and counts it. *)
Theorem earlier_ISR_overwrites_when_full (SPDR : byte) (log : list byte) (n : Z) :
  Z.of_nat (length log) = LOG_SIZE →
  SpiSniffIno.ISR SPDR (SpiSniffIno.CaptureState log LOG_SIZE n)
  = Some (SpiSniffIno.CaptureState (<[0%nat := SPDR]> log) 1
            (if LOG_SIZE <? SpiSniffIno.byte_incr n
             then LOG_SIZE else SpiSniffIno.byte_incr n),
          [DigitalWrite SLOWSYNC_LED HIGH]).
Proof.
  intros Hlen. unfold SpiSniffIno.ISR. cbn [SpiSniffIno.our_log_pos].
  rewrite Z.eqb_refl. cbn [SpiSniffIno.our_log SpiSniffIno.bytes_unsynced].
  rewrite store_in_bounds by (unfold LOG_SIZE in *; lia).
  reflexivity.
Qed.

Lemma earlier_ISR_overwrites_when_full_witness :
  SpiSniffIno.ISR x99 (SpiSniffIno.CaptureState (replicate 128 x11) LOG_SIZE 128)
  = Some (SpiSniffIno.CaptureState (<[0%nat := x99]> (replicate 128 x11)) 1
            (if LOG_SIZE <? SpiSniffIno.byte_incr 128
             then LOG_SIZE else SpiSniffIno.byte_incr 128),
          [DigitalWrite SLOWSYNC_LED HIGH]).
Proof.
  apply (earlier_ISR_overwrites_when_full x99 (replicate 128 x11) 128).
  reflexivity.
Defined.

Example earlier_ISR_on_full_log :
  SpiSniffIno.ISR x99 (SpiSniffIno.CaptureState (replicate 128 x11) 128 128)
  = Some (SpiSniffIno.CaptureState (x99 :: replicate 127 x11) 1 128,
          [DigitalWrite SLOWSYNC_LED HIGH]).
Proof. reflexivity. Qed.

(** Below the end of the log that handler appends like the later one. *)
Example earlier_ISR_appends :
  SpiSniffIno.ISR x99 (SpiSniffIno.CaptureState (x11 :: replicate 127 x00) 1 1)
  = Some (SpiSniffIno.CaptureState (x11 :: x99 :: replicate 126 x00) 2 2, []).
Proof. reflexivity. Qed.

(** ** The initiator's round when bytes arrive inside it *)

Lemma bind_inversion {A B : Type} (m : M A) (f : A → M B) (st : node) b st2 out :
  (m ≫= f) st = Done b st2 out →
  ∃ a st1 out1 out2,
    m st = Done a st1 out1 ∧ f a st1 = Done b st2 out2 ∧ out = out1 ++ out2.
Proof.
  rewrite bind_unfold. destruct (m st) as [a st1 out1| |]; try discriminate.
  destruct (f a st1) as [b' st2' out2| |] eqn:Hf; try discriminate.
  cbn [after]. intros Heq. inversion Heq; subst. now exists a, st1, out1, out2.
Qed.

Lemma captured_refl (st : node) : ours_ok st → captured st st.
Proof. intros Hok. unfold captured. split_and!; (done || lia). Qed.

Lemma captured_trans (st1 st2 st3 : node) :
  captured st1 st2 → captured st2 st3 → captured st1 st3.
Proof.
  unfold captured. intros (_ & ? & ? & ? & ? & ? & ? & ? & ? & ?) (? & ? & ? & ? & ? & ? & ? & ? & ? & ?).
  split_and!; (done || congruence || lia).
Qed.

(** The handler ends, and counts what it stores. *)
Lemma ISR_captured (SPDR : byte) (st : node) :
  ours_ok st → ∃ st' out, ISR SPDR st = Done tt st' out ∧ captured st st'.
Proof.
  intros [[Hlen Ht] [_ Hh]].
  destruct (held_after_put _ _ Hh Ht) as (Hfull & Hput & Hnext).
  destruct (Z.eq_dec (our_log_head st) (Z.rem (our_log_tail st + 1) LOG_SIZE)) as [Heq|Hne].
  - rewrite (ISR_full SPDR st Heq). eexists _, _. split; [reflexivity|].
    apply captured_refl. unfold ours_ok, log_ok. tauto.
  - rewrite (ISR_room SPDR st Hne (conj Hlen Ht)). eexists _, _. split; [reflexivity|].
    unfold captured, ours_ok, log_ok, uncounted. cbn. rewrite length_insert, (Hput Hne).
    split_and!; (done || lia).
Qed.

Lemma interrupts_captured (arrived : list byte) (st : node) :
  ours_ok st → ∃ st' out, Irq.interrupts arrived st = Done tt st' out ∧ captured st st'.
Proof.
  revert st. induction arrived as [|SPDR later IH]; intros st Hok.
  - eexists _, _. split; [reflexivity|]. now apply captured_refl.
  - destruct (ISR_captured SPDR st Hok) as (st1 & out1 & Hrun1 & Hc1).
    destruct (IH st1 (proj1 Hc1)) as (st2 & out2 & Hrun2 & Hc2).
    cbn [Irq.interrupts]. rewrite (bind_done _ _ _ _ _ _ Hrun1), Hrun2.
    eexists _, _. split; [reflexivity|]. eapply captured_trans; eassumption.
Qed.

Lemma interrupt_captured (s : Irq.schedule) (st : node) :
  ours_ok st → ∃ st' out, Irq.interrupt s st = Done (tail s) st' out ∧ captured st st'.
Proof.
  intros Hok. destruct s as [|arrived later].
  - eexists _, _. split; [reflexivity|]. now apply captured_refl.
  - destruct (interrupts_captured arrived st Hok) as (st1 & out1 & Hrun1 & Hc1).
    cbn [Irq.interrupt tail]. rewrite (bind_done _ _ _ _ _ _ Hrun1).
    eexists _, _. split; [reflexivity|]. exact Hc1.
Qed.

Lemma captured_round_frame (st st' : node) :
  node_ok st → captured st st' → round_frame st st'.
Proof.
  intros (_ & _ & [Hlen Ht] & [_ Hh]) ([Ho1 Ho2] & ? & ? & Hl & Hth & Htt & ? & ? & ? & ?).
  unfold round_frame, node_ok, log_ok. rewrite Hl, Hth, Htt.
  split_and!; (done || apply Ho1 || apply Ho2 || lia).
Qed.

Lemma round_frame_trans (st1 st2 st3 : node) :
  round_frame st1 st2 → round_frame st2 st3 → round_frame st1 st3.
Proof.
  unfold round_frame. intros (_ & ? & ? & ? & ? & ? & ?) (? & ? & ? & ? & ? & ? & ?).
  split_and!; (done || congruence || lia).
Qed.

(** One [Wire.read()] into [their_log] with the handler in between. *)
Lemma their_log_put_frame (s : Irq.schedule) (b : byte) (rest : list byte) (st : node) :
  node_ok st → wire_rx st = b :: rest →
  ∃ s' st' out, Irq.their_log_put s st = Done s' st' out ∧
    round_frame st st' ∧ wire_rx st' = rest.
Proof.
  intros (Hours & Hoh & [Hlen Htt] & [_ Hth]) Hrx.
  unfold Irq.their_log_put. do 2 run_step.
  destruct (negb (their_log_head st =? Z.rem (their_log_tail st + 1) LOG_SIZE)).
  - rewrite (bind_done _ _ st b (set_wire_rx rest st) [WireRead b])
      by (unfold Wire_read; now rewrite Hrx).
    cbn beta; cbn [after app]. run_step.
    rewrite (bind_done _ _ _ (<[Z.to_nat (their_log_tail st) := b]> (their_log st)) _ [])
      by (unfold defined; cbn; now rewrite store_in_bounds by lia).
    cbn beta; cbn [after app]. do 2 run_step.
    set (st_a := set_their_log_tail (their_log_tail st + 1)
                   (set_their_log (<[Z.to_nat (their_log_tail st) := b]> (their_log st))
                      (set_wire_rx rest st))).
    destruct (interrupt_captured s st_a (conj Hours Hoh)) as (st_b & out_b & Hrun & Hc).
    rewrite (bind_done _ _ _ _ _ _ Hrun). cbn beta; cbn [after app].
    do 2 run_step. unfold mret, M_ret. cbn [after].
    eexists _, _, _. split; [reflexivity|].
    destruct Hc as ([Ho1 Ho2] & ? & ? & Hl & Hh & Ht & ? & ? & ? & ?).
    unfold round_frame, node_ok, log_ok, uncounted in *. cbn in *.
    rewrite Hl, Ht, length_insert.
    pose proof (Z.rem_bound_pos (their_log_tail st + 1) LOG_SIZE) as Hrem.
    unfold LOG_SIZE in *.
    split_and!; (done || apply Ho1 || apply Ho2 || lia).
  - rewrite (bind_done _ _ st b (set_wire_rx rest st) [WireRead b])
      by (unfold Wire_read; now rewrite Hrx).
    cbn beta; cbn [after app].
    destruct (interrupt_captured s (set_wire_rx rest st) (conj Hours Hoh))
      as (st_b & out_b & Hrun & Hc).
    rewrite (bind_done _ _ _ _ _ _ Hrun). cbn beta; cbn [after app].
    run_step. unfold mret, M_ret. cbn [after].
    eexists _, _, _. split; [reflexivity|].
    split; [|apply Hc].
    apply (captured_round_frame (set_wire_rx rest st) st_b) in Hc; [exact Hc|].
    unfold node_ok, log_ok in *. cbn. tauto.
Qed.

Lemma final_after {A : Type} (out : list event) (o : outcome A) :
  final (after out o) = final o.
Proof. now destruct o. Qed.

Lemma final_bind_done {A B : Type} (m : M A) (f : A → M B) (st : node) a st1 out1 :
  m st = Done a st1 out1 → final ((m ≫= f) st) = final (f a st1).
Proof. intros H. now rewrite (bind_done _ _ _ _ _ _ H), final_after. Qed.

Lemma round_frame_refl (st : node) : node_ok st → round_frame st st.
Proof. intros Hok. unfold round_frame. split_and!; (done || lia). Qed.

Lemma node_ok_ours (st : node) : node_ok st → ours_ok st.
Proof. intros (H1 & H2 & _). now split. Qed.

(** One interrupt point on the way through a round. *)
Ltac interrupt_step Hrun Hfr st1 Hc Hfr1 :=
  lazymatch type of Hrun with
  | final ((Irq.interrupt ?s ≫= _) ?cur) = _ =>
      let o1 := fresh "out" in
      let Hi := fresh "Hi" in
      destruct (interrupt_captured s cur (node_ok_ours cur (proj1 Hfr))) as (st1 & o1 & Hi & Hc);
      rewrite (final_bind_done _ _ _ _ _ _ Hi) in Hrun; clear Hi;
      cbn beta in Hrun;
      pose proof (round_frame_trans _ _ _ Hfr (captured_round_frame _ _ (proj1 Hfr) Hc)) as Hfr1
  end.

Ltac final_step Hrun :=
  erewrite final_bind_done in Hrun by reflexivity; cbn beta in Hrun.

(** The wait of the round, if it ends. *)
Lemma wait_loop_frame (fuel : nat) (s : Irq.schedule) (st : node) x st' :
  node_ok st →
  final (while fuel
           (λ _ : unit * Irq.schedule,
              a ← Wire_available; u ← gets bytes_unsynched; mret (a <? u))
           (λ l, s ← Irq.interrupt (snd l); mret (tt, s))
           (tt, s) st) = Some (x, st') →
  round_frame st st' ∧ wire_rx st' = wire_rx st ∧
  bytes_unsynched st' <= Z.of_nat (length (wire_rx st')).
Proof.
  revert s st. induction fuel as [|fuel IH]; intros s st Hok Hrun; [discriminate|].
  cbn [while] in Hrun. final_step Hrun.
  destruct (Z.ltb_spec (Z.of_nat (length (wire_rx st))) (bytes_unsynched st)) as [Hlt|Hge].
  - pose proof (round_frame_refl st Hok) as Hfr.
    rewrite bind_unfold in Hrun. cbn [snd] in Hrun.
    destruct (interrupt_captured s st (node_ok_ours st Hok)) as (st1 & out1 & Hi & Hc).
    rewrite (bind_done _ _ _ _ _ _ Hi) in Hrun. cbn [mret M_ret after] in Hrun.
    rewrite final_after in Hrun.
    pose proof (captured_round_frame _ _ Hok Hc) as Hfr1.
    destruct (IH _ _ (proj1 Hfr1) Hrun) as (Hfr2 & Hrx2 & Hexit).
    split; [eapply round_frame_trans; eassumption|].
    split; [|exact Hexit].
    rewrite Hrx2. apply Hc.
  - cbn in Hrun. inversion Hrun; subst.
    split_and!; [now apply round_frame_refl | reflexivity | exact Hge].
Qed.

(** The receive loop of the round: it ends, having read all that is there. *)
Lemma receive_loop_frame (fuel : nat) (n : Z) (s : Irq.schedule) (st : node) x st' :
  node_ok st →
  final (while fuel
           (λ _ : Z * Irq.schedule, a ← Wire_available; mret (0 <? a))
           (λ l, s ← Irq.interrupt (snd l);
                 s ← Irq.their_log_put s;
                 s ← Irq.interrupt s;
                 mret (fst l + 1, s))
           (n, s) st) = Some (x, st') →
  fst x = n + Z.of_nat (length (wire_rx st)) ∧ round_frame st st' ∧ wire_rx st' = [].
Proof.
  revert n s st. induction fuel as [|fuel IH]; intros n s st Hok Hrun; [discriminate|].
  cbn [while] in Hrun. final_step Hrun.
  destruct (wire_rx st) as [|b rest] eqn:Hrx.
  - cbn in Hrun. inversion Hrun; subst. cbn.
    split_and!; [lia | now apply round_frame_refl | assumption].
  - change (0 <? Z.of_nat (length (b :: rest))) with true in Hrun. cbn iota in Hrun.
    rewrite bind_unfold in Hrun. cbn [fst snd] in Hrun.
    destruct (interrupt_captured s st (node_ok_ours st Hok)) as (st1 & out1 & Hi & Hc).
    rewrite (bind_done _ _ _ _ _ _ Hi) in Hrun.
    pose proof (captured_round_frame _ _ Hok Hc) as Hfr1.
    assert (Hrx1 : wire_rx st1 = b :: rest) by (rewrite <- Hrx; apply Hc).
    destruct (their_log_put_frame (tail s) b rest st1 (proj1 Hfr1) Hrx1)
      as (s2 & st2 & out2 & Hput & Hfr2 & Hrx2).
    rewrite (bind_done _ _ _ _ _ _ Hput) in Hrun.
    destruct (interrupt_captured s2 st2 (node_ok_ours st2 (proj1 Hfr2))) as (st3 & out3 & Hi3 & Hc3).
    rewrite (bind_done _ _ _ _ _ _ Hi3) in Hrun. cbn [mret M_ret after] in Hrun.
    rewrite !final_after in Hrun.
    pose proof (captured_round_frame _ _ (proj1 Hfr2) Hc3) as Hfr3.
    assert (Hrx3 : wire_rx st3 = rest) by (rewrite <- Hrx2; apply Hc3).
    destruct (IH _ _ _ (proj1 Hfr3) Hrun) as (Hn & Hfr4 & Hrx4).
    rewrite Hrx3 in Hn. cbn [length]. split_and!; [lia | | assumption].
    eapply round_frame_trans; [exact Hfr1|].
    eapply round_frame_trans; [exact Hfr2|].
    eapply round_frame_trans; eassumption.
Qed.

(** The transmission of the round, if it ends. *)
Lemma transmit_frame (fuel : nat) (uhead i : Z) (s : Irq.schedule) (st : node) x st' :
  node_ok st →
  final (while fuel
           (λ l : Z * Irq.schedule, u ← gets bytes_unsynched; mret (fst l <? u))
           (λ l, s ← Irq.interrupt (snd l);
                 log ← gets our_log;
                 b ← defined (load log (Z.rem (uhead + fst l) LOG_SIZE));
                 s ← Irq.interrupt s;
                 emit (WireWrite b);;
                 s ← Irq.interrupt s;
                 mret (fst l + 1, s))
           (i, s) st) = Some (x, st') →
  round_frame st st'.
Proof.
  revert i s st. induction fuel as [|fuel IH]; intros i s st Hok Hrun; [discriminate|].
  cbn [while] in Hrun. final_step Hrun. cbn [fst] in Hrun.
  destruct (i <? bytes_unsynched st).
  - rewrite bind_unfold in Hrun. cbn [fst snd] in Hrun.
    destruct (interrupt_captured s st (node_ok_ours st Hok)) as (st1 & out1 & Hi & Hc).
    rewrite (bind_done _ _ _ _ _ _ Hi) in Hrun.
    pose proof (captured_round_frame _ _ Hok Hc) as Hfr1.
    rewrite bind_unfold in Hrun. cbn [gets after app] in Hrun.
    rewrite bind_unfold in Hrun. unfold defined in Hrun.
    destruct (load (our_log st1) (Z.rem (uhead + i) LOG_SIZE)) as [b|]; [|discriminate].
    cbn [after app] in Hrun.
    destruct (interrupt_captured (tail s) st1 (node_ok_ours st1 (proj1 Hfr1)))
      as (st2 & out2 & Hi2 & Hc2).
    rewrite (bind_done _ _ _ _ _ _ Hi2) in Hrun.
    pose proof (captured_round_frame _ _ (proj1 Hfr1) Hc2) as Hfr2.
    rewrite bind_unfold in Hrun. cbn [emit after app] in Hrun.
    destruct (interrupt_captured (tail (tail s)) st2 (node_ok_ours st2 (proj1 Hfr2)))
      as (st3 & out3 & Hi3 & Hc3).
    rewrite (bind_done _ _ _ _ _ _ Hi3) in Hrun. cbn [mret M_ret after] in Hrun.
    rewrite !final_after in Hrun.
    pose proof (captured_round_frame _ _ (proj1 Hfr2) Hc3) as Hfr3.
    pose proof (IH _ _ _ (proj1 Hfr3) Hrun) as Hfr4.
    eapply round_frame_trans; [exact Hfr1|].
    eapply round_frame_trans; [exact Hfr2|].
    eapply round_frame_trans; eassumption.
  - cbn in Hrun. inversion Hrun; subst. now apply round_frame_refl.
Qed.

Lemma load_span_captured (tail_first : bool) (s : Irq.schedule) (st : node) :
  ours_ok st →
  ∃ x st' out, Irq.load_span tail_first s st = Done x st' out ∧ captured st st'.
Proof.
  intros Hok. destruct (interrupt_captured s st Hok) as (st1 & out1 & Hi & Hc).
  unfold Irq.load_span. destruct tail_first; run_step;
    rewrite (bind_done _ _ _ _ _ _ Hi); cbn beta; run_step;
    eexists _, _, _; (split; [reflexivity | exact Hc]).
Qed.

Lemma final_bind_inversion {A B : Type} (m : M A) (f : A → M B) (st : node) r :
  final ((m ≫= f) st) = Some r →
  ∃ a st1 out1, m st = Done a st1 out1 ∧ final (f a st1) = Some r.
Proof.
  rewrite bind_unfold. destruct (m st) as [a st1 out1| |]; try discriminate.
  rewrite final_after. intros Hf. now exists a, st1, out1.
Qed.

(** A round of the initiator with bytes arriving at any of its interrupt
    points, if it ends. *)
Lemma alpha_synchronize_with_captures (tail_first : bool) (fuel : nat)
  (delivered : list byte) (s : Irq.schedule) (st : node) n s' st' out :
  node_ok st →
  Irq.alpha_synchronize tail_first fuel delivered s st = Done (n, s') st' out →
  node_ok st' ∧ our_id st' = our_id st ∧ our_log_head st' = our_log_head st ∧
  bytes_unreported st' = bytes_unreported st + n ∧
  bytes_unsynched st - n <= bytes_unsynched st' ∧
  uncounted st <= uncounted st' ∧
  (n = 0 ∨ n = Z.of_nat (length delivered)) ∧
  (our_id st = alpha → 0 < bytes_unsynched st →
   n = Z.of_nat (length delivered) ∧ bytes_unsynched st <= Z.of_nat (length delivered)).
Proof.
  intros Hok Hrun. apply (f_equal final) in Hrun. cbn [final] in Hrun.
  unfold Irq.alpha_synchronize in Hrun.
  pose proof (round_frame_refl st Hok) as Hfr.
  final_step Hrun.
  destruct (our_id st) eqn:Hid; cbn [id_eqb negb] in Hrun.
  2:{ cbn in Hrun. inversion Hrun; subst.
      unfold uncounted. split_and!; (done || lia || auto). }
  interrupt_step Hrun Hfr st1 Hc1 Hfr1.
  final_step Hrun.
  destruct (Z.eqb_spec (bytes_unsynched st1) 0) as [Hz|Hnz].
  { cbn in Hrun. inversion Hrun; subst.
    destruct Hfr1 as (? & ? & ? & ? & ? & ? & ?).
    split_and!; (done || lia || congruence || auto). }
  interrupt_step Hrun Hfr1 st2 Hc2 Hfr2.
  final_step Hrun.
  interrupt_step Hrun Hfr2 st3 Hc3 Hfr3.
  unfold Wire_requestFrom in Hrun. final_step Hrun.
  assert (Hfr3' : round_frame st (set_wire_rx delivered st3)) by exact Hfr3.
  interrupt_step Hrun Hfr3' st4 Hc4 Hfr4.
  final_step Hrun.
  interrupt_step Hrun Hfr4 st5 Hc5 Hfr5.
  apply final_bind_inversion in Hrun. destruct Hrun as (waited & st6 & out6 & Hwait & Hrun).
  apply (f_equal final) in Hwait. cbn [final] in Hwait.
  destruct (wait_loop_frame _ _ _ _ _ (proj1 Hfr5) Hwait) as (Hfr6 & Hrx6 & Hexit).
  pose proof (round_frame_trans _ _ _ Hfr5 Hfr6) as Hfr6'.
  interrupt_step Hrun Hfr6' st6' Hc6 Hfr6''.
  apply final_bind_inversion in Hrun. destruct Hrun as (received & st7 & out7 & Hrecv & Hrun).
  apply (f_equal final) in Hrecv. cbn [final] in Hrecv.
  destruct (receive_loop_frame _ _ _ _ _ _ (proj1 Hfr6'') Hrecv) as (Hn & Hfr7 & Hrx7).
  assert (Hrx : wire_rx st6 = delivered).
  { rewrite Hrx6. destruct Hc5 as (_ & _ & _ & _ & _ & _ & _ & -> & _).
    now destruct Hc4 as (_ & _ & _ & _ & _ & _ & _ & -> & _). }
  assert (Hdelivered : fst received = Z.of_nat (length delivered)).
  { rewrite Hn. destruct Hc6 as (_ & _ & _ & _ & _ & _ & _ & -> & _). rewrite Hrx. lia. }
  rewrite Hrx in Hexit.
  assert (Hasked : bytes_unsynched st <= Z.of_nat (length delivered)).
  { destruct Hfr5 as (_ & _ & _ & _ & _ & _ & HU5).
    destruct Hfr6 as (_ & _ & _ & _ & _ & _ & HU6). lia. }
  pose proof (round_frame_trans _ _ _ Hfr6'' Hfr7) as Hfr7'.
  cbn zeta in Hrun. final_step Hrun.
  interrupt_step Hrun Hfr7' st8 Hc8 Hfr8.
  destruct (load_span_captured tail_first (tail (snd received)) st8
              (node_ok_ours st8 (proj1 Hfr8))) as (span & st9 & out9 & Hspan & Hc9).
  rewrite (final_bind_done _ _ _ _ _ _ Hspan) in Hrun. cbn beta zeta in Hrun.
  pose proof (round_frame_trans _ _ _ Hfr8 (captured_round_frame _ _ (proj1 Hfr8) Hc9)) as Hfr9.
  interrupt_step Hrun Hfr9 st10 Hc10 Hfr10.
  final_step Hrun.
  interrupt_step Hrun Hfr10 st11 Hc11 Hfr11.
  unfold Irq.transmit in Hrun.
  apply final_bind_inversion in Hrun. destruct Hrun as (sent & st12 & out12 & Htx & Hrun).
  apply (f_equal final) in Htx. cbn [final] in Htx.
  pose proof (round_frame_trans _ _ _ Hfr11
                (transmit_frame _ _ _ _ _ _ _ (proj1 Hfr11) Htx)) as Hfr12.
  interrupt_step Hrun Hfr12 st12' Hc12 Hfr12'.
  final_step Hrun.
  interrupt_step Hrun Hfr12' st13 Hc13 Hfr13.
  final_step Hrun.
  interrupt_step Hrun Hfr13 st14 Hc14 Hfr14.
  assert (Hflag : ∃ flag,
    (if negb (bytes_unsynched st13 =? fst received)
     then digitalWrite UNSYNCHRONIZED_LED HIGH else mret ()) st14 = Done tt st14 flag)
    by (destruct (negb (bytes_unsynched st13 =? fst received)); eexists; reflexivity).
  destruct Hflag as (flag & Hflag).
  rewrite (final_bind_done _ _ _ _ _ _ Hflag) in Hrun. cbn beta in Hrun.
  interrupt_step Hrun Hfr14 st15 Hc15 Hfr15.
  final_step Hrun.
  interrupt_step Hrun Hfr15 st16 Hc16 Hfr16.
  final_step Hrun.
  set (st16' := set_bytes_unsynched (bytes_unsynched st15 - fst received) st16) in Hrun.
  assert (Hours16 : ours_ok st16') by exact (node_ok_ours st16 (proj1 Hfr16)).
  destruct (interrupt_captured (tail (tail (tail (tail (tail (snd sent)))))) st16' Hours16)
    as (st17 & o17 & Hi17 & Hc17).
  rewrite (final_bind_done _ _ _ _ _ _ Hi17) in Hrun. cbn beta in Hrun.
  final_step Hrun.
  destruct (interrupt_captured (tail (tail (tail (tail (tail (tail (snd sent))))))) st17 (proj1 Hc17))
    as (st18 & o18 & Hi18 & Hc18).
  rewrite (final_bind_done _ _ _ _ _ _ Hi18) in Hrun. cbn beta in Hrun.
  final_step Hrun. cbn in Hrun. inversion Hrun; subst n s' st'. clear Hrun.
  destruct Hfr16 as ((_ & _ & [Hlen16 Htt16] & [_ Hth16]) & Hid16 & Hh16 & _ & Hr16 & Hun16 & HU16).
  destruct Hfr15 as (_ & _ & _ & _ & _ & _ & HU15).
  destruct Hc16 as (_ & _ & _ & _ & _ & _ & _ & _ & _ & HU156).
  destruct Hc17 as (_ & Hid17 & Hh17 & Hl17 & Hth17 & Htt17 & Hr17 & _ & Hun17 & HU17).
  destruct Hc18 as ([Ho1 Ho2] & Hid18 & Hh18 & Hl18 & Hth18 & Htt18 & Hr18 & _ & Hun18 & HU18).
  unfold node_ok, log_ok, uncounted in *. cbn in *.
  rewrite Hl18, Hl17, Hth18, Hth17, Htt18, Htt17.
  split_and!; try (done || lia || congruence || auto).
Qed.

(** C8.  As the code has it: a round in which the node had
    [U = bytes_unsynched] bytes to synchronise and [R] were delivered.  The
    responder's round runs as a callback, with interrupts off, and always
    ends.  The initiator's round runs in the main program; when no byte is
    captured while it runs (the empty schedule) it ends when [U <= R], and
    with [R < U] it stays in its wait.  Of a round that ends so:
    [bytes_synched] is [R] (every delivered byte was read, stored or not),
    [bytes_unsynched] went down by [R], [bytes_unreported] up by [R], and
    the unsynchronised indicator was lit exactly when [R] differs from [U].
    Whatever is captured while the initiator's round runs, if the round ends
    then [U <= R], [bytes_synched] is [R], [bytes_unreported] went up by [R]
    and [bytes_unsynched] went down by at most [R]; the rest does not hold then
    ([capture_after_the_wait], [capture_before_the_wait],
    [capture_inside_the_subtraction] below). *)
Theorem sync_round_accounting (tail_first : bool) (fuel : nat)
  (delivered : list byte) (st : node) :
  node_ok st → bytes_unsynched st <= LOG_SIZE →
  (length delivered < fuel)%nat →
  (our_id st = alpha → bytes_unsynched st ≠ 0 →
   bytes_unsynched st <= Z.of_nat (length delivered) →
   ∃ st' out,
     Irq.alpha_synchronize tail_first fuel delivered [] st
       = Done (Z.of_nat (length delivered), []) st' out ∧
     occurrences is_wire_read out = Z.of_nat (length delivered) ∧
     bytes_unsynched st' = bytes_unsynched st - Z.of_nat (length delivered) ∧
     bytes_unreported st' = bytes_unreported st + Z.of_nat (length delivered) ∧
     (0 < occurrences is_unsynchronized out
      ↔ Z.of_nat (length delivered) ≠ bytes_unsynched st)) ∧
  (∃ st' out,
     Wire_onReceive fuel delivered st = Done tt st' out ∧
     occurrences is_wire_read out = Z.of_nat (length delivered) ∧
     bytes_unsynched st' = bytes_unsynched st - Z.of_nat (length delivered) ∧
     bytes_unreported st' = bytes_unreported st + Z.of_nat (length delivered) ∧
     (0 < occurrences is_unsynchronized out
      ↔ Z.of_nat (length delivered) ≠ bytes_unsynched st)) ∧
  (our_id st = alpha → bytes_unsynched st ≠ 0 →
   Z.of_nat (length delivered) < bytes_unsynched st →
   ∀ fuel', Irq.alpha_synchronize tail_first fuel' delivered [] st = Spinning) ∧
  (our_id st = alpha → 0 < bytes_unsynched st →
   ∀ fuel' s n s' st' out,
     Irq.alpha_synchronize tail_first fuel' delivered s st = Done (n, s') st' out →
     bytes_unsynched st <= Z.of_nat (length delivered) ∧
     n = Z.of_nat (length delivered) ∧
     bytes_unreported st' = bytes_unreported st + Z.of_nat (length delivered) ∧
     bytes_unsynched st - Z.of_nat (length delivered) <= bytes_unsynched st').
Proof.
  intros Hok HU Hfuel. split_and!.
  - intros Hid Hnz HR. rewrite alpha_synchronize_uninterrupted.
    destruct (alpha_synchronize_round fuel delivered st Hok Hid Hnz HU HR Hfuel)
      as (st' & out & Hrun & H1 & H2 & H3 & H4 & _).
    exists st', out. rewrite Hrun. split_and!; try done. rewrite H3.
    destruct (Z.eqb_spec (bytes_unsynched st) (Z.of_nat (length delivered))); split; lia.
  - destruct (Wire_onReceive_round fuel delivered st Hok Hfuel)
      as (st' & out & Hrun & H1 & H2 & H3 & H4 & _).
    exists st', out. split_and!; try done. rewrite H3.
    destruct (Z.eqb_spec (bytes_unsynched st) (Z.of_nat (length delivered))); split; lia.
  - intros Hid Hnz Hshort fuel'.
    now rewrite alpha_synchronize_uninterrupted, alpha_synchronize_blocks.
  - intros Hid Hpos fuel' s n s' st' out Hrun.
    destruct (alpha_synchronize_with_captures _ _ _ _ _ _ _ _ _ Hok Hrun)
      as (_ & _ & _ & Hr & Hu & _ & _ & Hn).
    destruct (Hn Hid Hpos) as [-> Hasked]. split_and!; done.
Qed.

Example two_captured_history (me : id) :
  perform_all 0 [Capture x11; Capture x22] (boot me) = Done tt (two_captured me) [].
Proof. reflexivity. Qed.

Lemma two_captured_ok (me : id) : node_ok (two_captured me).
Proof.
  unfold node_ok, log_ok. cbn. unfold LOG_SIZE. lia.
Qed.

Lemma sync_round_accounting_witness :
  (our_id (two_captured alpha) = alpha → bytes_unsynched (two_captured alpha) ≠ 0 →
   bytes_unsynched (two_captured alpha) <= Z.of_nat (length [xaa; xbb]) →
   ∃ st' out,
     Irq.alpha_synchronize true 3 [xaa; xbb] [] (two_captured alpha)
       = Done (Z.of_nat (length [xaa; xbb]), []) st' out ∧
     occurrences is_wire_read out = Z.of_nat (length [xaa; xbb]) ∧
     bytes_unsynched st' = bytes_unsynched (two_captured alpha) - Z.of_nat (length [xaa; xbb]) ∧
     bytes_unreported st' = bytes_unreported (two_captured alpha) + Z.of_nat (length [xaa; xbb]) ∧
     (0 < occurrences is_unsynchronized out
      ↔ Z.of_nat (length [xaa; xbb]) ≠ bytes_unsynched (two_captured alpha))) ∧
  (∃ st' out,
     Wire_onReceive 3 [xaa; xbb] (two_captured alpha) = Done tt st' out ∧
     occurrences is_wire_read out = Z.of_nat (length [xaa; xbb]) ∧
     bytes_unsynched st' = bytes_unsynched (two_captured alpha) - Z.of_nat (length [xaa; xbb]) ∧
     bytes_unreported st' = bytes_unreported (two_captured alpha) + Z.of_nat (length [xaa; xbb]) ∧
     (0 < occurrences is_unsynchronized out
      ↔ Z.of_nat (length [xaa; xbb]) ≠ bytes_unsynched (two_captured alpha))) ∧
  (our_id (two_captured alpha) = alpha → bytes_unsynched (two_captured alpha) ≠ 0 →
   Z.of_nat (length [xaa; xbb]) < bytes_unsynched (two_captured alpha) →
   ∀ fuel', Irq.alpha_synchronize true fuel' [xaa; xbb] [] (two_captured alpha) = Spinning) ∧
  (our_id (two_captured alpha) = alpha → 0 < bytes_unsynched (two_captured alpha) →
   ∀ fuel' s n s' st' out,
     Irq.alpha_synchronize true fuel' [xaa; xbb] s (two_captured alpha) = Done (n, s') st' out →
     bytes_unsynched (two_captured alpha) <= Z.of_nat (length [xaa; xbb]) ∧
     n = Z.of_nat (length [xaa; xbb]) ∧
     bytes_unreported st' = bytes_unreported (two_captured alpha) + Z.of_nat (length [xaa; xbb]) ∧
     bytes_unsynched (two_captured alpha) - Z.of_nat (length [xaa; xbb]) <= bytes_unsynched st').
Proof.
  apply (sync_round_accounting true 3 [xaa; xbb] (two_captured alpha)).
  - apply two_captured_ok.
  - vm_compute. discriminate.
  - cbn. lia.
Defined.

(** C8 does not hold of every round on the initiator: asked for two bytes
    and given one, it never comes to its bookkeeping, whatever the fuel, so
    that no count is deducted and no indicator for the mismatch is lit. *)
Lemma alpha_short_delivery_never_ends :
  ¬ ∃ fuel n st' out,
      alpha_synchronize fuel [xaa] (two_captured alpha) = Done n st' out.
Proof.
  intros (fuel & n & st' & out & Hrun).
  rewrite alpha_synchronize_blocks in Hrun; [discriminate | reflexivity | | ].
  - cbn. discriminate.
  - cbn. lia.
Qed.

(** Nor does it with interrupts: whatever arrives while the round runs, the
    count it waits for only grows. *)
Example short_delivery_never_ends_with_captures :
  ¬ ∃ tail_first fuel s n s' st' out,
      Irq.alpha_synchronize tail_first fuel [xaa] s (two_captured alpha)
      = Done (n, s') st' out.
Proof.
  intros (tail_first & fuel & s & n & s' & st' & out & Hrun).
  destruct (alpha_synchronize_with_captures _ _ _ _ _ _ _ _ _ (two_captured_ok alpha) Hrun)
    as (_ & _ & _ & _ & _ & _ & _ & Hn).
  destruct Hn as [_ Hasked]; [reflexivity | cbn; lia |].
  cbn in Hasked. lia.
Qed.

(** Bytes that find [their_log] full are dropped and still counted. *)
Example full_their_log_still_counts :
  alpha_synchronize 4 [xaa; xbb]
    (Node alpha (x11 :: x22 :: replicate 126 x00) (replicate 128 x00) 0 2 0 127 2 0 [])
  = Done 2
      (Node alpha (x11 :: x22 :: replicate 126 x00) (replicate 128 x00) 0 2 0 127 0 2 [])
      [WireRequestFrom 42 2; DigitalWrite DEADLOCKED_LED HIGH;
       WireRead xaa; DigitalWrite SLOWDUMP_LED HIGH;
       WireRead xbb; DigitalWrite SLOWDUMP_LED HIGH;
       DigitalWrite DEADLOCKED_LED LOW;
       WireBeginTransmission 42; WireWrite x00; WireWrite x11; WireEndTransmission].
Proof. reflexivity. Qed.

(** A byte captured inside the initiator's round.  The node has captured 11
    and 22, asks for two bytes and is given two; the byte 33 arrives while
    the round runs.  The schedule says at which point. *)

(** Right after the wait, before the delivered bytes are read: the round
    sends three bytes for the two it asked for, lights the unsynchronised
    indicator although as many bytes were delivered as requested, and leaves
    one byte unsynchronised. *)
Example capture_after_the_wait :
  Irq.alpha_synchronize true 4 [xaa; xbb] [[]; []; []; []; []; [x33]] (two_captured alpha)
  = Done (2, [])
      (Node alpha (x11 :: x22 :: x33 :: replicate 125 x00)
         (xaa :: xbb :: replicate 126 x00) 0 3 0 2 1 2 [])
      [WireRequestFrom 42 2; DigitalWrite DEADLOCKED_LED HIGH;
       WireRead xaa; WireRead xbb; DigitalWrite DEADLOCKED_LED LOW;
       WireBeginTransmission 42; WireWrite x00; WireWrite x11; WireWrite x22;
       WireEndTransmission; DigitalWrite UNSYNCHRONIZED_LED HIGH].
Proof. reflexivity. Qed.

(** Between the request and the wait: the wait compares what is there with
    a count that has grown since the request, and never ends. *)
Example capture_before_the_wait (tail_first : bool) (fuel : nat) :
  Irq.alpha_synchronize tail_first fuel [xaa; xbb] [[]; []; []; [x33]] (two_captured alpha)
  = Spinning.
Proof.
  unfold Irq.alpha_synchronize.
  run_step. cbn [id_eqb negb two_captured our_id].
  do 2 run_step. cbn [two_captured bytes_unsynched Z.eqb].
  do 7 run_step.
  rewrite bind_unfold.
  rewrite (while_uninterrupted
             (λ _, a ← Wire_available; u ← gets bytes_unsynched; mret (a <? u))
             (λ _, mret tt)); [|reflexivity|reflexivity].
  rewrite busy_wait_spins; [reflexivity|]. vm_compute. reflexivity.
Qed.

(** Between the load and the store of [bytes_unsynched -= bytes_synched]:
    the store puts back the count without the new byte, which is then
    counted nowhere. *)
Example capture_inside_the_subtraction :
  ∃ st' out,
    Irq.alpha_synchronize true 3 [xaa; xbb] (replicate 26 [] ++ [[x33]]) (two_captured alpha)
    = Done (2, []) st' out ∧
    occurrences is_unsynchronized out = 0 ∧
    held (our_log_head st') (our_log_tail st') = 3 ∧
    bytes_unsynched st' = 0 ∧ bytes_unreported st' = 2.
Proof. eexists _, _. split; [reflexivity|]. vm_compute. repeat split. Qed.

(** Between the loads of the two arguments of [unsynched_head]: which bytes
    are sent depends on the order in which the arguments are loaded. *)
Example capture_between_the_arguments :
  wire_written_by (Irq.alpha_synchronize true 4 [xaa; xbb] (replicate 13 [] ++ [[x33]])
                     (two_captured alpha)) = Some [x00; x00; x11] ∧
  wire_written_by (Irq.alpha_synchronize false 4 [xaa; xbb] (replicate 13 [] ++ [[x33]])
                     (two_captured alpha)) = Some [x11; x22; x33].
Proof. split; reflexivity. Qed.

(** The reporter pass ends whenever its start index is not negative. *)
Lemma report_ends (fuel : nat) (st : node) :
  node_ok st →
  0 <= unreported_head (bytes_unreported st) (bytes_unsynched st) (our_log_tail st) LOG_SIZE →
  (Z.to_nat (bytes_unreported st) < fuel)%nat →
  ∃ out, report fuel st = Done tt st out ∧
         Z.of_nat (length out) = 3 * Z.max 0 (bytes_unreported st).
Proof.
  intros ([Hours Ht] & _ & [Htheirs _] & _) Hstart Hfuel.
  unfold report. run_step.
  destruct (Z.ltb_spec 0 (bytes_unreported st)) as [Hpos|Hnone].
  - do 2 run_step. cbn zeta.
    destruct (report_loop _ fuel 0 0 st Hours Htheirs Hstart ltac:(lia))
      as (locals & out & Hloop & Hcount).
    { now rewrite Z.sub_0_r. }
    rewrite (bind_done _ _ st _ st out Hloop). unfold mret, M_ret. cbn [after].
    exists (out ++ []). split; [reflexivity|].
    rewrite app_nil_r, Hcount. f_equal. f_equal. lia.
  - exists []. split; [reflexivity|]. cbn [length]. lia.
Qed.

(** With a negative start index the first pair is read below the logs. *)
Lemma report_below (fuel : nat) (st : node) :
  0 < bytes_unreported st →
  unreported_head (bytes_unreported st) (bytes_unsynched st) (our_log_tail st) LOG_SIZE < 0 →
  (0 < fuel)%nat →
  report fuel st = Undefined.
Proof.
  intros Hpos Hneg Hfuel.
  set (start := unreported_head (bytes_unreported st) (bytes_unsynched st)
                  (our_log_tail st) LOG_SIZE) in *.
  assert (Hstart : - LOG_SIZE < start).
  { unfold start, unreported_head. cbv zeta.
    pose proof (Z.rem_bound_abs
                  (unsynched_head (bytes_unsynched st) (our_log_tail st) LOG_SIZE
                   - bytes_unreported st + LOG_SIZE) LOG_SIZE) as Hb.
    unfold LOG_SIZE in *. lia. }
  assert (Hidx : Z.rem (start + 0) LOG_SIZE < 0).
  { rewrite Z.add_0_r. replace start with (- - start) by lia.
    rewrite Z.rem_opp_l', Z.rem_small by lia. lia. }
  assert (Hload : ∀ log, load log (Z.rem (start + 0) LOG_SIZE) = None).
  { intros log. unfold load. now rewrite decide_False by lia. }
  unfold report. run_step.
  rewrite (proj2 (Z.ltb_lt 0 (bytes_unreported st))) by assumption.
  do 2 run_step. cbn zeta. fold start.
  destruct fuel as [|fuel]; [lia|].
  unfold mbind at 1. unfold M_bind at 1. cbn [while].
  unfold mbind at 1. unfold M_bind at 1.
  unfold mbind at 1. unfold M_bind at 1. unfold gets at 1. cbn [after mret M_ret app].
  rewrite (proj2 (Z.ltb_lt 0 (bytes_unreported st))) by assumption.
  cbn iota. unfold mbind at 1. unfold M_bind at 1.
  unfold report_pair, mbind, M_bind, gets, defined.
  destruct (id_eqb (our_id st) alpha); rewrite Hload; reflexivity.
Qed.

(** C9.  With something unreported, the reporter pass is a peek exactly
    when its start index [unreported_head] is not negative, which it is for
    every backlog within the log ([bytes_unsynched] from [- LOG_SIZE] to
    [LOG_SIZE], negative after a surplus delivery, and [bytes_unreported] up
    to [LOG_SIZE]).  Then the pass ends, leaves the node as it was, backlog
    counts, tail and both logs included, has printed three items per
    unreported position, and a second pass prints the same again; a whole
    [loop] pass does the same when no synchronisation comes with it (the
    responder, or nothing unsynchronised).  With a negative start index the
    pass reads below the logs and nothing holds of it. *)
Theorem reporter_pass_is_a_peek (fuel : nat) (delivered : list byte) (st : node) :
  node_ok st → 0 < bytes_unreported st →
  (Z.to_nat (bytes_unreported st) < fuel)%nat →
  (- LOG_SIZE <= bytes_unsynched st <= LOG_SIZE → bytes_unreported st <= LOG_SIZE →
   0 <= unreported_head (bytes_unreported st) (bytes_unsynched st)
          (our_log_tail st) LOG_SIZE) ∧
  (0 <= unreported_head (bytes_unreported st) (bytes_unsynched st)
          (our_log_tail st) LOG_SIZE →
   ∃ out,
     report fuel st = Done tt st out ∧
     Z.of_nat (length out) = 3 * bytes_unreported st ∧
     (report fuel;; report fuel) st = Done tt st (out ++ out) ∧
     (our_id st = beta ∨ bytes_unsynched st = 0 →
      ∃ out', loop fuel delivered st = Done tt st out')) ∧
  (unreported_head (bytes_unreported st) (bytes_unsynched st)
     (our_log_tail st) LOG_SIZE < 0 →
   report fuel st = Undefined).
Proof.
  intros Hok Hpos Hfuel. split; [|split].
  - intros HU HR. destruct Hok as ([_ Ht] & _).
    unfold unreported_head. cbv zeta. apply Z.rem_nonneg; [unfold LOG_SIZE; lia|].
    assert (0 <= unsynched_head (bytes_unsynched st) (our_log_tail st) LOG_SIZE);
      [|lia].
    unfold unsynched_head. apply Z.rem_nonneg; unfold LOG_SIZE in *; lia.
  - intros Hstart.
    destruct (report_ends fuel st Hok Hstart Hfuel) as (out & Hrun & Hlen).
    exists out. split_and!.
    + exact Hrun.
    + lia.
    + rewrite (bind_done _ _ st tt st out Hrun). now rewrite Hrun.
    + intros Hquiet. unfold loop. run_step.
      destruct (our_id st) eqn:Hid; cbn [id_eqb].
      * destruct Hquiet as [Hbeta|Hz]; [discriminate|].
        erewrite bind_done.
        2:{ run_step. erewrite bind_done by (apply alpha_synchronize_bails; auto).
            cbn beta. reflexivity. }
        cbn [after app]. rewrite Hrun. cbn [after]. eauto.
      * run_step. rewrite Hrun. cbn [after]. eauto.
  - intros Hneg. apply report_below; [assumption..|lia].
Qed.

Lemma reporter_pass_is_a_peek_witness :
  (- LOG_SIZE <= bytes_unsynched two_unreported <= LOG_SIZE →
   bytes_unreported two_unreported <= LOG_SIZE →
   0 <= unreported_head (bytes_unreported two_unreported) (bytes_unsynched two_unreported)
          (our_log_tail two_unreported) LOG_SIZE) ∧
  (0 <= unreported_head (bytes_unreported two_unreported) (bytes_unsynched two_unreported)
          (our_log_tail two_unreported) LOG_SIZE →
   ∃ out,
     report 3 two_unreported = Done tt two_unreported out ∧
     Z.of_nat (length out) = 3 * bytes_unreported two_unreported ∧
     (report 3;; report 3) two_unreported = Done tt two_unreported (out ++ out) ∧
     (our_id two_unreported = beta ∨ bytes_unsynched two_unreported = 0 →
      ∃ out', loop 3 [] two_unreported = Done tt two_unreported out')) ∧
  (unreported_head (bytes_unreported two_unreported) (bytes_unsynched two_unreported)
     (our_log_tail two_unreported) LOG_SIZE < 0 →
   report 3 two_unreported = Undefined).
Proof.
  apply (reporter_pass_is_a_peek 3 [] two_unreported).
  - unfold node_ok, log_ok. cbn. unfold LOG_SIZE. lia.
  - reflexivity.
  - vm_compute. lia.
Defined.

(** C9 does not hold of every state with something unreported: a responder
    that was sent eight transfers of 32 bytes has 256 bytes unreported, and
    its reporter pass reads slot -1 of the logs. *)
Lemma reporter_pass_below_the_logs :
  ∃ st out,
    perform_all 33 (replicate 8 (OnReceive (replicate 32 xaa))) (boot beta)
    = Done tt st out ∧
    bytes_unreported st = 256 ∧
    unreported_head (bytes_unreported st) (bytes_unsynched st)
      (our_log_tail st) LOG_SIZE = - 1 ∧
    ∀ fuel delivered, (0 < fuel)%nat →
      report fuel st = Undefined ∧ loop fuel delivered st = Undefined.
Proof.
  eexists _, _. split; [vm_compute; reflexivity|].
  split; [reflexivity|]. split; [reflexivity|].
  intros fuel delivered Hfuel.
  assert (Hrep : ∀ st, 0 < bytes_unreported st →
            unreported_head (bytes_unreported st) (bytes_unsynched st)
              (our_log_tail st) LOG_SIZE < 0 →
            report fuel st = Undefined)
    by (intros; now apply report_below).
  split.
  - apply Hrep; reflexivity.
  - unfold loop. run_step. cbn [id_eqb]. run_step.
    now rewrite Hrep by reflexivity.
Qed.

(** What the pass prints there: the span starts one slot before the first
    pair. *)
Example report_two_unreported :
  report 3 two_unreported
  = Done tt two_unreported
      [SerialPrintHex x00; SerialPrintSlash; SerialPrintHex x00;
       SerialPrintHex xaa; SerialPrintSlash; SerialPrintHex x11].
Proof. reflexivity. Qed.


(** A node that never synchronises keeps the first 127 bytes and drops the
    rest, one indicator each. *)
Example capture_without_sync :
  perform_all 0 (replicate 130 (Capture x11)) (boot beta)
  = Done tt (Node beta (replicate 127 x11 ++ [x00]) (replicate 128 x00) 0 127 0 0 127 0 [])
      (replicate 3 (DigitalWrite SLOWSYNC_LED HIGH)).
Proof. vm_compute. reflexivity. Qed.

(** Three bytes on each side and one round on the initiator: the bytes it
    sends and the pairs it prints start one slot early, so that 33 is
    neither sent nor printed. *)
Example three_bytes_one_round :
  ∃ st,
    perform_all 4 [Capture x11; Capture x22; Capture x33; MainLoop [xaa; xbb; xcc]]
      (boot alpha)
    = Done tt st
        [DigitalWrite SYNCHRONIZATION_LED HIGH;
         WireRequestFrom 42 3; DigitalWrite DEADLOCKED_LED HIGH;
         WireRead xaa; WireRead xbb; WireRead xcc;
         DigitalWrite DEADLOCKED_LED LOW;
         WireBeginTransmission 42;
         WireWrite x00; WireWrite x11; WireWrite x22;
         WireEndTransmission;
         DigitalWrite SYNCHRONIZATION_LED LOW;
         SerialPrintHex x00; SerialPrintSlash; SerialPrintHex x00;
         SerialPrintHex x11; SerialPrintSlash; SerialPrintHex xaa;
         SerialPrintHex x22; SerialPrintSlash; SerialPrintHex xbb] ∧
    bytes_unsynched st = 0 ∧ bytes_unreported st = 3.
Proof. eexists. split; [vm_compute; reflexivity | split; reflexivity]. Qed.

(** * Further properties *)

(** ** The ring buffer as a queue *)

Section Queue.

Variables w k : Z.
Hypothesis width : 0 <= k < w - 1.

Let capacity : Z := 2 ^ k.

Lemma queue_sizes :
  0 < w ∧ 0 < capacity ∧ 0 <= capacity < 2 ^ (w - 1) ∧ 0 < 2 ^ w ∧ (capacity | 2 ^ w).
Proof.
  assert (0 < capacity) by (apply Z.pow_pos_nonneg; lia).
  assert (capacity < 2 ^ (w - 1)) by (apply Z.pow_lt_mono_r; lia).
  assert (0 < 2 ^ w) by (apply Z.pow_pos_nonneg; lia).
  split_and!; try lia.
  exists (2 ^ (w - k)). unfold capacity. rewrite <- Z.pow_add_r by lia. f_equal. lia.
Qed.

Lemma slot_of_wrapped (x j : Z) :
  (x mod 2 ^ w + j) mod capacity = (x + j) mod capacity.
Proof.
  destruct queue_sizes as (_ & Hpos & _ & _ & Hdiv).
  rewrite Zplus_mod, (Z.mod_mod_divide x _ _ Hdiv), <- Zplus_mod. reflexivity.
Qed.

Lemma slot_after_unread (r : ring) :
  (reads r + unread w r) mod capacity = writes r mod capacity.
Proof.
  unfold unread. rewrite Z.add_comm, slot_of_wrapped. f_equal. lia.
Qed.

Lemma slot_of_unread_fresh (r : ring) (i : Z) :
  0 <= i < unread w r → unread w r - i < capacity →
  (reads r + i) mod capacity ≠ writes r mod capacity.
Proof.
  intros Hi Hlt Heq. destruct queue_sizes as (_ & Hpos & _).
  rewrite <- slot_after_unread in Heq.
  assert (H0 : (unread w r - i) mod capacity = 0).
  { replace (unread w r - i) with ((reads r + unread w r) - (reads r + i)) by lia.
    rewrite Zminus_mod, Heq, Z.sub_diag. now apply Z.mod_0_l, Z.neq_sym, Z.lt_neq. }
  rewrite Z.mod_small in H0 by lia. lia.
Qed.

Lemma contents_length (r : ring) :
  Z.of_nat (length (contents w capacity r)) = unread w r.
Proof.
  destruct queue_sizes as (Hw & _ & Hcap & _).
  pose proof (unread_nonneg w capacity Hw Hcap r).
  unfold contents. rewrite length_fmap, length_seq. lia.
Qed.

Lemma buff_write_appends (item : byte) (r : ring) :
  ring_ok w capacity r → unread w r < capacity →
  ∃ r', buff_write w item capacity r = Some (true, r') ∧
        ring_ok w capacity r' ∧
        contents w capacity r' = contents w capacity r ++ [item].
Proof.
  intros Hok Hroom.
  destruct queue_sizes as (Hw & Hpos & Hcap & H2w & Hdiv).
  pose proof (unread_nonneg w capacity Hw Hcap r) as Hn.
  destruct (buff_write_ok w capacity Hw Hcap item r Hok) as (ok & r' & Hwr & Hiff & Hok' & Hnew).
  destruct ok; [|destruct Hiff as [Hiff _]; specialize (Hiff eq_refl); lia].
  exists r'. split; [exact Hwr|]. split; [exact Hok'|].
  pose proof (ring_ok_items w capacity Hw Hcap r Hok) as Hitems.
  destruct (capacity_as_unsigned w k width) as (Hu1 & Hu2 & _).
  fold capacity in Hu1, Hu2.
  unfold buff_write in Hwr. rewrite Hitems, Hu1, Hu2 in Hwr.
  rewrite (proj2 (Z.eqb_neq _ _)) in Hwr by lia.
  unfold capacity in Hwr at 1. rewrite land_mask_pow2 in Hwr by lia. fold capacity in Hwr.
  destruct Hok as (Hlen & Hr & Hwc & Hu).
  assert (Hslot : 0 <= writes r mod capacity < capacity) by (apply Z.mod_pos_bound; lia).
  rewrite store_in_bounds in Hwr by lia. cbn in Hwr. inversion Hwr as [Hr']. clear Hwr.
  rewrite Hr'. unfold contents. rewrite Hnew.
  replace (Z.to_nat (unread w r + 1)) with (S (Z.to_nat (unread w r))) by lia.
  rewrite seq_S, fmap_app. cbn [fmap list_fmap plus].
  rewrite <- Hr'. cbn [buff reads writes]. f_equal.
  - apply list_fmap_ext. intros idx i Hj.
    apply lookup_seq in Hj. destruct Hj as [Hi Hlt]. cbn in Hi. subst idx.
    apply list_lookup_total_insert_ne.
    assert (Hfresh := slot_of_unread_fresh r (Z.of_nat i) ltac:(lia) ltac:(lia)).
    assert (0 <= (reads r + Z.of_nat i) mod capacity) by (apply Z.mod_pos_bound; lia).
    lia.
  - f_equal. rewrite Z2Nat.id by lia. rewrite slot_after_unread.
    apply list_lookup_total_insert_eq. lia.
Qed.

Lemma buff_read_pops (cell : byte) (r : ring) :
  ring_ok w capacity r → 0 < unread w r →
  ∃ v r', buff_read w cell capacity r = Some (true, v, r') ∧
          ring_ok w capacity r' ∧
          contents w capacity r = v :: contents w capacity r'.
Proof.
  intros Hok Hsome.
  destruct queue_sizes as (Hw & Hpos & Hcap & H2w & Hdiv).
  destruct (buff_read_ok w capacity Hw Hcap cell r Hok) as (ok & v & r' & Hrd & Hiff & Hok' & Hnew).
  destruct ok; [|destruct Hiff as [Hiff _]; specialize (Hiff eq_refl); lia].
  exists v, r'. split; [exact Hrd|]. split; [exact Hok'|].
  destruct (capacity_as_unsigned w k width) as (_ & Hu2 & _). fold capacity in Hu2.
  unfold buff_read in Hrd. rewrite Hu2 in Hrd.
  destruct (writes r =? reads r); [discriminate|].
  unfold capacity in Hrd at 1. rewrite land_mask_pow2 in Hrd by lia. fold capacity in Hrd.
  destruct Hok as (Hlen & Hr & Hwc & Hu).
  assert (Hslot : 0 <= reads r mod capacity < capacity) by (apply Z.mod_pos_bound; lia).
  destruct (load_in_bounds (buff r) (reads r mod capacity) ltac:(lia)) as (v0 & Hload & Hv0).
  rewrite Hload in Hrd. cbn in Hrd. inversion Hrd as [[Hv Hr']]. subst v0. clear Hrd.
  rewrite Hr'. unfold contents. rewrite Hnew.
  replace (Z.to_nat (unread w r)) with (S (Z.to_nat (unread w r - 1))) by lia.
  cbn [seq fmap list_fmap]. f_equal.
  - rewrite Z.add_0_r. now apply list_lookup_total_correct.
  - rewrite <- fmap_S_seq, <- list_fmap_compose.
    apply list_fmap_ext. intros j i Hj. cbn.
    rewrite <- Hr'. cbn [buff reads]. unfold to_unsigned.
    rewrite slot_of_wrapped. do 3 f_equal. lia.
Qed.

End Queue.


Ltac concrete :=
  vm_compute; repeat split;
  first [reflexivity | discriminate | lia | (intros; discriminate)].

Section QueueRuns.

Variables w k : Z.
Hypothesis width : 0 <= k < w - 1.

Lemma write_all_appends (items : list byte) :
  ∀ r, ring_ok w (2 ^ k) r →
  unread w r + Z.of_nat (length items) <= 2 ^ k →
  ∃ r', write_all w (2 ^ k) items r = Some (replicate (length items) true, r') ∧
        ring_ok w (2 ^ k) r' ∧
        contents w (2 ^ k) r' = contents w (2 ^ k) r ++ items.
Proof.
  induction items as [|item rest IH]; intros r Hok Hfit.
  - exists r. cbn. now rewrite app_nil_r.
  - cbn [length] in Hfit.
    destruct (buff_write_appends w k width item r Hok ltac:(lia)) as (r1 & Hw1 & Hok1 & Hc1).
    assert (Hlen1 : unread w r1 = unread w r + 1).
    { rewrite <- !(contents_length w k width), Hc1, length_app. cbn [length]. lia. }
    destruct (IH r1 Hok1 ltac:(lia)) as (r2 & Hw2 & Hok2 & Hc2).
    exists r2. cbn [write_all]. rewrite Hw1. cbn. rewrite Hw2. cbn.
    split; [reflexivity|]. split; [exact Hok2|].
    now rewrite Hc2, Hc1, <- app_assoc.
Qed.

Lemma read_all_drains (n : nat) :
  ∀ r, ring_ok w (2 ^ k) r → Z.of_nat n = unread w r →
  ∃ r', read_all w (2 ^ k) n r = Some ((λ v, (true, v)) <$> contents w (2 ^ k) r, r') ∧
        ring_ok w (2 ^ k) r' ∧ unread w r' = 0.
Proof.
  induction n as [|n IH]; intros r Hok Hn.
  - exists r. cbn [read_all]. unfold contents. rewrite <- Hn. cbn. auto.
  - destruct (buff_read_pops w k width x00 r Hok ltac:(lia)) as (v & r1 & Hr1 & Hok1 & Hc1).
    assert (Hlen1 : unread w r = unread w r1 + 1).
    { rewrite <- !(contents_length w k width), Hc1. cbn [length]. lia. }
    destruct (IH r1 Hok1 ltac:(lia)) as (r2 & Hr2 & Hok2 & Hempty).
    exists r2. cbn [read_all]. rewrite Hr1. cbn. rewrite Hr2. cbn.
    split; [now rewrite Hc1|]. auto.
Qed.

End QueueRuns.

(** X1.  [buff_write] is the enqueue of a bounded queue: on a ring with
    room it returns true and the unread items are those of before followed
    by the new one; on a full ring it returns false and changes nothing. *)
Theorem ring_write_is_enqueue (w k : Z) (item : byte) (r : ring) :
  0 <= k < w - 1 → ring_ok w (2 ^ k) r →
  (unread w r < 2 ^ k →
     ∃ r', buff_write w item (2 ^ k) r = Some (true, r') ∧
           ring_ok w (2 ^ k) r' ∧
           contents w (2 ^ k) r' = contents w (2 ^ k) r ++ [item]) ∧
  (unread w r = 2 ^ k →
     buff_write w item (2 ^ k) r = Some (false, r)).
Proof.
  intros Hk Hok. split.
  - now apply buff_write_appends.
  - intros Hfull.
    assert (Hw : 0 < w) by lia.
    assert (Hcap : 0 <= 2 ^ k < 2 ^ (w - 1)).
    { split; [apply Z.pow_nonneg; lia | apply Z.pow_lt_mono_r; lia]. }
    destruct (buff_write_ok w (2 ^ k) Hw Hcap item r Hok) as (ok & r' & Hwr & _ & _ & _).
    unfold buff_write in *.
    rewrite (ring_ok_items w (2 ^ k) Hw Hcap r Hok), Hfull in *.
    destruct (capacity_as_unsigned w k Hk) as (-> & _ & _).
    now rewrite Z.eqb_refl.
Qed.

Lemma ring_write_is_enqueue_witness :
  (unread 16 (Ring [x11; x22; x00; x00] 65535 1) < 2 ^ 2 →
     ∃ r', buff_write 16 x33 (2 ^ 2) (Ring [x11; x22; x00; x00] 65535 1) = Some (true, r') ∧
           ring_ok 16 (2 ^ 2) r' ∧
           contents 16 (2 ^ 2) r'
           = contents 16 (2 ^ 2) (Ring [x11; x22; x00; x00] 65535 1) ++ [x33]) ∧
  (unread 16 (Ring [x11; x22; x00; x00] 65535 1) = 2 ^ 2 →
     buff_write 16 x33 (2 ^ 2) (Ring [x11; x22; x00; x00] 65535 1)
     = Some (false, Ring [x11; x22; x00; x00] 65535 1)).
Proof.
  apply (ring_write_is_enqueue 16 2 x33 (Ring [x11; x22; x00; x00] 65535 1)).
  - lia.
  - concrete.
Defined.

(** X2.  [buff_read] is the dequeue: on a ring with unread items it returns
    true and the oldest of them, the others staying in order; on an empty
    ring it returns false and leaves the cell and the ring alone. *)
Theorem ring_read_is_dequeue (w k : Z) (cell : byte) (r : ring) :
  0 <= k < w - 1 → ring_ok w (2 ^ k) r →
  (0 < unread w r →
     ∃ v r', buff_read w cell (2 ^ k) r = Some (true, v, r') ∧
             ring_ok w (2 ^ k) r' ∧
             contents w (2 ^ k) r = v :: contents w (2 ^ k) r') ∧
  (unread w r = 0 →
     buff_read w cell (2 ^ k) r = Some (false, cell, r) ∧
     contents w (2 ^ k) r = []).
Proof.
  intros Hk Hok. split.
  - now apply buff_read_pops.
  - intros Hempty.
    assert (Hw : 0 < w) by lia.
    assert (Hcap : 0 <= 2 ^ k < 2 ^ (w - 1)).
    { split; [apply Z.pow_nonneg; lia | apply Z.pow_lt_mono_r; lia]. }
    apply (unread_zero_iff w (2 ^ k) Hw Hcap r Hok) in Hempty as Heq.
    unfold buff_read, contents. rewrite Hempty, Heq, Z.eqb_refl. auto.
Qed.

Lemma ring_read_is_dequeue_witness :
  (0 < unread 16 (Ring [x11; x22; x00; x44] 65535 2) →
     ∃ v r', buff_read 16 x00 (2 ^ 2) (Ring [x11; x22; x00; x44] 65535 2) = Some (true, v, r') ∧
             ring_ok 16 (2 ^ 2) r' ∧
             contents 16 (2 ^ 2) (Ring [x11; x22; x00; x44] 65535 2)
             = v :: contents 16 (2 ^ 2) r') ∧
  (unread 16 (Ring [x11; x22; x00; x44] 65535 2) = 0 →
     buff_read 16 x00 (2 ^ 2) (Ring [x11; x22; x00; x44] 65535 2)
     = Some (false, x00, Ring [x11; x22; x00; x44] 65535 2) ∧
     contents 16 (2 ^ 2) (Ring [x11; x22; x00; x44] 65535 2) = []).
Proof.
  apply (ring_read_is_dequeue 16 2 x00 (Ring [x11; x22; x00; x44] 65535 2)).
  - lia.
  - concrete.
Defined.

Example contents_across_wrap :
  contents 16 4 (Ring [x11; x22; x00; x44] 65535 2) = [x44; x11; x22].
Proof. reflexivity. Qed.

(** X3.  Round trip: a run of at most [capacity] items written into an
    empty ring (counters anywhere) is accepted whole, and as many reads
    return exactly these items in the order written, after which the ring
    is empty and a further read returns false. *)
Theorem ring_round_trip (w k : Z) (b items : list byte) (c : Z) :
  0 <= k < w - 1 → Z.of_nat (length b) = 2 ^ k → 0 <= c < 2 ^ w →
  Z.of_nat (length items) <= 2 ^ k →
  ∃ r1 r2,
    write_all w (2 ^ k) items (Ring b c c) = Some (replicate (length items) true, r1) ∧
    read_all w (2 ^ k) (length items) r1 = Some ((λ v, (true, v)) <$> items, r2) ∧
    buff_read w x00 (2 ^ k) r2 = Some (false, x00, r2).
Proof.
  intros Hk Hlen Hc Hfit.
  assert (Hw : 0 < w) by lia.
  assert (Hcap : 0 <= 2 ^ k < 2 ^ (w - 1)).
  { split; [apply Z.pow_nonneg; lia | apply Z.pow_lt_mono_r; lia]. }
  assert (Hok : ring_ok w (2 ^ k) (Ring b c c)).
  { apply reachable_ring_ok; try assumption. now apply reach_empty. }
  assert (Hempty : unread w (Ring b c c) = 0).
  { apply (unread_zero_iff w (2 ^ k) Hw Hcap _ Hok). reflexivity. }
  destruct (write_all_appends w k Hk items _ Hok ltac:(lia)) as (r1 & Hw1 & Hok1 & Hc1).
  assert (Hnil : contents w (2 ^ k) (Ring b c c) = []).
  { unfold contents. now rewrite Hempty. }
  rewrite Hnil in Hc1. cbn [app] in Hc1.
  destruct (read_all_drains w k Hk (length items) r1 Hok1) as (r2 & Hr2 & Hok2 & Hempty2).
  { now rewrite <- (contents_length w k Hk), Hc1. }
  rewrite Hc1 in Hr2.
  exists r1, r2. split; [exact Hw1|]. split; [exact Hr2|].
  apply (unread_zero_iff w (2 ^ k) Hw Hcap r2 Hok2) in Hempty2.
  unfold buff_read. now rewrite Hempty2, Z.eqb_refl.
Qed.

Lemma ring_round_trip_witness :
  ∃ r1 r2,
    write_all 16 (2 ^ 5) [x11; x22; x33] (Ring (replicate 32 x00) 65534 65534)
      = Some (replicate (length [x11; x22; x33]) true, r1) ∧
    read_all 16 (2 ^ 5) (length [x11; x22; x33]) r1
      = Some ((λ v, (true, v)) <$> [x11; x22; x33], r2) ∧
    buff_read 16 x00 (2 ^ 5) r2 = Some (false, x00, r2).
Proof.
  apply (ring_round_trip 16 5 (replicate 32 x00) [x11; x22; x33] 65534).
  - lia.
  - reflexivity.
  - concrete.
  - concrete.
Defined.

(** ** The ring buffer: bounds, the two ends, and the mask *)

(** X4.  Whatever the counters hold, and whether or not the capacity is a
    power of two, [buff_write] and [buff_read] stay inside a buffer of
    [capacity] slots. *)
Theorem ring_accesses_in_bounds (w capacity : Z) (item cell : byte) (r : ring) :
  0 < w → 0 < capacity < 2 ^ (w - 1) →
  Z.of_nat (length (buff r)) = capacity →
  is_Some (buff_write w item capacity r) ∧ is_Some (buff_read w cell capacity r).
Proof.
  intros Hw Hcap Hlen.
  destruct (capacity_fits w capacity Hw ltac:(lia)) as [Hlt _].
  assert (Hmask : to_unsigned w (capacity - 1) = capacity - 1)
    by (apply to_unsigned_small; lia).
  assert (Hslot : ∀ x, 0 <= Z.land x (capacity - 1) < Z.of_nat (length (buff r))).
  { intros x. pose proof (land_upper x (capacity - 1) ltac:(lia)).
    assert (0 <= Z.land x (capacity - 1)) by (apply Z.land_nonneg; lia). lia. }
  unfold buff_write, buff_read. rewrite Hmask. split.
  - destruct (_ =? _); [eauto|]. rewrite store_in_bounds by apply Hslot. cbn. eauto.
  - destruct (_ =? _); [eauto|].
    destruct (load_in_bounds (buff r) _ (Hslot (reads r))) as (v & -> & _). cbn. eauto.
Qed.

Lemma ring_accesses_in_bounds_witness :
  is_Some (buff_write 16 x2a 6 (Ring (replicate 6 x00) 40000 123)) ∧
  is_Some (buff_read 16 x00 6 (Ring (replicate 6 x00) 40000 123)).
Proof.
  apply (ring_accesses_in_bounds 16 6 x2a x00 (Ring (replicate 6 x00) 40000 123)).
  - lia.
  - concrete.
  - reflexivity.
Defined.

Section TwoEnds.

Variables w k : Z.
Hypothesis width : 0 <= k < w - 1.

Lemma buff_write_stores (item : byte) (r : ring) :
  ring_ok w (2 ^ k) r → unread w r < 2 ^ k →
  buff_write w item (2 ^ k) r
  = Some (true, Ring (<[Z.to_nat (writes r mod 2 ^ k) := item]> (buff r))
                     (reads r) ((writes r + 1) mod 2 ^ w)).
Proof.
  intros Hok Hroom.
  destruct (queue_sizes w k width) as (Hw & Hpos & Hcap & _).
  destruct (capacity_as_unsigned w k width) as (Hu1 & Hu2 & _).
  unfold buff_write.
  rewrite (ring_ok_items w (2 ^ k) Hw Hcap r Hok), Hu1, Hu2.
  rewrite (proj2 (Z.eqb_neq _ _)) by lia.
  rewrite land_mask_pow2 by lia.
  destruct Hok as (Hlen & _).
  rewrite store_in_bounds; [reflexivity|].
  rewrite Hlen. apply Z.mod_pos_bound. lia.
Qed.

Lemma buff_read_loads (cell : byte) (r : ring) :
  ring_ok w (2 ^ k) r → 0 < unread w r →
  buff_read w cell (2 ^ k) r
  = Some (true, buff r !!! Z.to_nat (reads r mod 2 ^ k),
          Ring (buff r) ((reads r + 1) mod 2 ^ w) (writes r)).
Proof.
  intros Hok Hsome.
  destruct (queue_sizes w k width) as (Hw & Hpos & Hcap & _).
  destruct (capacity_as_unsigned w k width) as (_ & Hu2 & _).
  assert (Hne : writes r ≠ reads r).
  { intros Heq. apply (unread_zero_iff w (2 ^ k) Hw Hcap r Hok) in Heq. lia. }
  unfold buff_read. rewrite Hu2, (proj2 (Z.eqb_neq _ _) Hne).
  rewrite land_mask_pow2 by lia.
  destruct Hok as (Hlen & _).
  destruct (load_in_bounds (buff r) (reads r mod 2 ^ k)) as (v & Hload & Hv).
  { rewrite Hlen. apply Z.mod_pos_bound. lia. }
  rewrite Hload. cbn. now rewrite (list_lookup_total_correct _ _ _ Hv).
Qed.

End TwoEnds.

(** X5.  On a ring that is neither empty nor full the producer's write and
    the consumer's read can go in either order: both orders succeed, the
    read returns the same byte and the ring ends up the same. *)
Theorem write_read_commute (w k : Z) (item cell : byte) (r : ring) :
  0 <= k < w - 1 → ring_ok w (2 ^ k) r → 0 < unread w r < 2 ^ k →
  ∃ v r1 r2 r',
    buff_write w item (2 ^ k) r = Some (true, r1) ∧
    buff_read w cell (2 ^ k) r1 = Some (true, v, r') ∧
    buff_read w cell (2 ^ k) r = Some (true, v, r2) ∧
    buff_write w item (2 ^ k) r2 = Some (true, r').
Proof.
  intros Hk Hok [Hsome Hroom].
  destruct (queue_sizes w k Hk) as (Hw & Hpos & Hcap & _).
  destruct (buff_write_appends w k Hk item r Hok Hroom) as (r1 & Hw1 & Hok1 & Hc1).
  destruct (buff_read_pops w k Hk cell r Hok Hsome) as (v & r2 & Hr2 & Hok2 & Hc2).
  assert (Hn1 : unread w r1 = unread w r + 1).
  { rewrite <- !(contents_length w k Hk), Hc1, length_app. cbn [length]. lia. }
  assert (Hn2 : unread w r = unread w r2 + 1).
  { rewrite <- !(contents_length w k Hk), Hc2. cbn [length]. lia. }
  pose proof (buff_read_loads w k Hk cell r1 Hok1 ltac:(lia)) as Hr1.
  pose proof (buff_write_stores w k Hk item r2 Hok2 ltac:(lia)) as Hw2.
  rewrite (buff_write_stores w k Hk item r Hok Hroom) in Hw1.
  rewrite (buff_read_loads w k Hk cell r Hok Hsome) in Hr2.
  inversion Hw1 as [Hr1eq]. inversion Hr2 as [[Hv Hr2eq]].
  rewrite <- Hr1eq in Hr1. rewrite <- Hr2eq in Hw2. cbn [buff reads writes] in Hr1, Hw2.
  assert (Hslots : Z.to_nat (writes r mod 2 ^ k) ≠ Z.to_nat (reads r mod 2 ^ k)).
  { pose proof (slot_of_unread_fresh w k Hk r 0 ltac:(lia) ltac:(lia)) as Hfresh.
    rewrite Z.add_0_r in Hfresh.
    pose proof (Z.mod_pos_bound (writes r) (2 ^ k) Hpos).
    pose proof (Z.mod_pos_bound (reads r) (2 ^ k) Hpos). lia. }
  rewrite list_lookup_total_insert_ne in Hr1 by exact Hslots.
  eexists _, _, _, _. split_and!.
  - rewrite (buff_write_stores w k Hk item r Hok Hroom). reflexivity.
  - exact Hr1.
  - rewrite (buff_read_loads w k Hk cell r Hok Hsome). reflexivity.
  - exact Hw2.
Qed.

Lemma write_read_commute_witness :
  ∃ v r1 r2 r',
    buff_write 16 x33 (2 ^ 2) (Ring [x11; x22; x00; x00] 0 2) = Some (true, r1) ∧
    buff_read 16 x00 (2 ^ 2) r1 = Some (true, v, r') ∧
    buff_read 16 x00 (2 ^ 2) (Ring [x11; x22; x00; x00] 0 2) = Some (true, v, r2) ∧
    buff_write 16 x33 (2 ^ 2) r2 = Some (true, r').
Proof.
  apply (write_read_commute 16 2 x33 x00 (Ring [x11; x22; x00; x00] 0 2)).
  - lia.
  - concrete.
  - concrete.
Defined.

Lemma land_pow2_clear (j m : Z) :
  0 <= j → Z.testbit m j = false → Z.land (2 ^ j) m = 0.
Proof.
  intros Hj Hbit. apply Z.bits_inj'. intros n Hn.
  rewrite Z.land_spec, Z.bits_0, Z.pow2_bits_eqb by lia.
  destruct (Z.eqb_spec j n) as [->|_]; [now rewrite Hbit | reflexivity].
Qed.

(** X6.  The mask is the power-of-two trick the source says it is: when a
    bit below the capacity is missing from [capacity - 1] (no power of two
    has such a bit), a ring with [2^j] unread items, the oldest in slot 0,
    takes the next item into slot 0, and the next read returns that item
    instead of the oldest. *)
Theorem mask_needs_power_of_two (w capacity j : Z) (item cell : byte) (b : list byte) :
  0 < w → 0 <= j → 2 ^ j < capacity → capacity < 2 ^ (w - 1) →
  Z.testbit (capacity - 1) j = false →
  Z.of_nat (length b) = capacity →
  buff_write w item capacity (Ring b 0 (2 ^ j))
    = Some (true, Ring (<[0%nat := item]> b) 0 (2 ^ j + 1)) ∧
  buff_read w cell capacity (Ring (<[0%nat := item]> b) 0 (2 ^ j + 1))
    = Some (true, item, Ring (<[0%nat := item]> b) 1 (2 ^ j + 1)).
Proof.
  intros Hw Hj Hlt Hcap Hbit Hlen.
  assert (Hpj : 0 < 2 ^ j) by (apply Z.pow_pos_nonneg; lia).
  destruct (capacity_fits w capacity Hw ltac:(lia)) as [Hhalf Hu].
  assert (Hmask : to_unsigned w (capacity - 1) = capacity - 1)
    by (apply to_unsigned_small; lia).
  split.
  - unfold buff_write. cbn [reads writes buff].
    rewrite buff_items_low by (rewrite ?Z.sub_0_r, ?Z.mod_small; lia).
    rewrite Z.sub_0_r, (Z.mod_small (2 ^ j)), Hu, Hmask by lia.
    rewrite (proj2 (Z.eqb_neq _ _)) by lia.
    rewrite land_pow2_clear by assumption.
    rewrite store_in_bounds by lia. cbn.
    unfold to_unsigned. rewrite Z.mod_small by lia. reflexivity.
  - unfold buff_read. cbn [reads writes buff]. rewrite Hmask.
    rewrite (proj2 (Z.eqb_neq _ _)) by lia.
    rewrite Z.land_0_l. unfold load. rewrite decide_True by lia.
    change (Z.to_nat 0) with 0%nat.
    rewrite list_lookup_insert_eq by lia. cbn.
    unfold to_unsigned. rewrite Z.mod_small by lia. reflexivity.
Qed.

Lemma mask_needs_power_of_two_witness :
  buff_write 16 x33 6 (Ring [x11; x22; x00; x00; x00; x00] 0 (2 ^ 1))
    = Some (true, Ring (<[0%nat := x33]> [x11; x22; x00; x00; x00; x00]) 0 (2 ^ 1 + 1)) ∧
  buff_read 16 x00 6 (Ring (<[0%nat := x33]> [x11; x22; x00; x00; x00; x00]) 0 (2 ^ 1 + 1))
    = Some (true, x33, Ring (<[0%nat := x33]> [x11; x22; x00; x00; x00; x00]) 1 (2 ^ 1 + 1)).
Proof.
  apply (mask_needs_power_of_two 16 6 1 x33 x00 [x11; x22; x00; x00; x00; x00]).
  - lia.
  - lia.
  - concrete.
  - concrete.
  - reflexivity.
  - reflexivity.
Defined.

(** ** A node's life: what a history leaves in its logs and counts *)

(** What a round of the initiator that ends has done. *)
Lemma alpha_synchronize_inversion (fuel : nat) (delivered : list byte)
  (st st' : node) (out : list event) (n : Z) :
  backlog_ok st → alpha_synchronize fuel delivered st = Done n st' out →
  (st' = st ∧ out = [] ∧ n = 0) ∨
  (our_id st = alpha ∧ bytes_unsynched st ≠ 0 ∧
   bytes_unsynched st <= Z.of_nat (length delivered) ∧
   n = Z.of_nat (length delivered) ∧
   bytes_unsynched st' = bytes_unsynched st - n ∧
   bytes_unreported st' = bytes_unreported st + n ∧
   occurrences is_wire_read out = n ∧
   our_id st' = our_id st ∧ our_log st' = our_log st ∧
   our_log_head st' = our_log_head st ∧ our_log_tail st' = our_log_tail st).
Proof.
  intros [Hok HU] Hrun.
  apply (alpha_synchronize_monotone delivered fuel (fuel + S (length delivered))%nat)
    in Hrun; [|lia].
  pose proof (held_range (our_log_head st) (our_log_tail st)) as Hheld.
  destruct (our_id st) eqn:Hid.
  - destruct (Z.eq_dec (bytes_unsynched st) 0) as [Hz|Hnz].
    + rewrite alpha_synchronize_bails in Hrun by auto. inversion Hrun; subst. auto.
    + destruct (Z.lt_ge_cases (Z.of_nat (length delivered)) (bytes_unsynched st)) as [Hshort|Hfits].
      * rewrite alpha_synchronize_blocks in Hrun by assumption. discriminate.
      * destruct (alpha_synchronize_round (fuel + S (length delivered)) delivered st Hok Hid Hnz
                    ltac:(unfold LOG_SIZE in *; lia) Hfits ltac:(lia))
          as (st2 & out2 & Hrun2 & Hu & Hr & _ & Hrd & _ & _ & Hi & Hl & Hh & Ht & _).
        rewrite Hrun2 in Hrun. inversion Hrun; subst.
        right. rewrite Hid in Hi. split_and!; try done.
  - rewrite alpha_synchronize_bails in Hrun by (left; congruence). inversion Hrun; subst. auto.
Qed.

Lemma Wire_onReceive_inversion (fuel : nat) (delivered : list byte)
  (st st' : node) (out : list event) :
  backlog_ok st → Wire_onReceive fuel delivered st = Done tt st' out →
  bytes_unsynched st' = bytes_unsynched st - Z.of_nat (length delivered) ∧
  bytes_unreported st' = bytes_unreported st + Z.of_nat (length delivered) ∧
  occurrences is_wire_read out = Z.of_nat (length delivered) ∧
  our_id st' = our_id st ∧ our_log st' = our_log st ∧
  our_log_head st' = our_log_head st ∧ our_log_tail st' = our_log_tail st.
Proof.
  intros [Hok HU] Hrun.
  apply (perform_monotone (OnReceive delivered) fuel (fuel + S (length delivered))%nat)
    in Hrun; [|lia]. cbn [perform] in Hrun.
  destruct (Wire_onReceive_round (fuel + S (length delivered)) delivered st Hok ltac:(lia))
    as (st2 & out2 & Hrun2 & Hu & Hr & _ & Hrd & _ & _ & Hi & Hl & Hh & Ht & _).
  rewrite Hrun2 in Hrun. inversion Hrun; subst. split_and!; done.
Qed.

(** A pass of [loop] is the round of the initiator, if the node is one,
    between the two writes of its indicator, and then the reporter. *)
Lemma loop_inversion (fuel : nat) (delivered : list byte)
  (st st' : node) (out : list event) :
  loop fuel delivered st = Done tt st' out →
  ∃ n out1 out2,
    (if id_eqb (our_id st) alpha
     then alpha_synchronize fuel delivered st = Done n st' out1 ∧
          out = [DigitalWrite SYNCHRONIZATION_LED HIGH] ++ out1
                ++ [DigitalWrite SYNCHRONIZATION_LED LOW] ++ out2
     else st' = st ∧ out1 = [] ∧ out = out2) ∧
    report fuel st' = Done tt st' out2 ∧ Forall quiet out2.
Proof.
  unfold loop. run_step.
  unfold mbind at 1. unfold M_bind at 1.
  destruct (id_eqb (our_id st) alpha).
  - unfold mbind at 1. unfold M_bind at 1. cbn [digitalWrite emit after].
    unfold mbind at 1. unfold M_bind at 1.
    destruct (alpha_synchronize fuel delivered st) as [n st1 out1| |] eqn:Hsync;
      try discriminate.
    cbn [after app digitalWrite emit].
    destruct (report fuel st1) as [[] st2 out2| |] eqn:Hrep; try discriminate.
    destruct (report_keeps_state _ _ _ _ Hrep) as [-> Hq].
    cbn [after app]. intros H; inversion H; subst.
    exists n, out1, out2. split_and!; try done.
    cbn [app]. now rewrite <- app_assoc.
  - cbn [mret M_ret after].
    destruct (report fuel st) as [[] st2 out2| |] eqn:Hrep; try discriminate.
    destruct (report_keeps_state _ _ _ _ Hrep) as [-> Hq].
    cbn [after app]. intros H; inversion H; subst.
    exists 0, [], out. split_and!; done.
Qed.

(** One action, seen from the books: what it does to the capture side and
    to the two backlog counts. *)
Lemma perform_books (fuel : nat) (a : action) (st st' : node) (out : list event) :
  backlog_ok st → perform fuel a st = Done tt st' out →
  bytes_unreported st' = bytes_unreported st + occurrences is_wire_read out ∧
  (∀ b, a = Capture b →
     bytes_unreported st' = bytes_unreported st ∧
     ((st' = st ∧ out = [DigitalWrite SLOWSYNC_LED HIGH] ∧
       our_log_head st = Z.rem (our_log_tail st + 1) LOG_SIZE) ∨
      (our_log st' = <[Z.to_nat (our_log_tail st) := b]> (our_log st) ∧
       our_log_tail st' = Z.rem (our_log_tail st + 1) LOG_SIZE ∧
       our_log_head st' = our_log_head st ∧
       bytes_unsynched st' = bytes_unsynched st + 1 ∧ out = [] ∧
       our_log_head st ≠ Z.rem (our_log_tail st + 1) LOG_SIZE))) ∧
  (is_capture a = false →
     our_log st' = our_log st ∧ our_log_tail st' = our_log_tail st ∧
     our_log_head st' = our_log_head st ∧
     bytes_unsynched st' + bytes_unreported st'
     = bytes_unsynched st + bytes_unreported st).
Proof.
  intros Hok Hrun. pose proof Hok as [Hnode _]. pose proof Hnode as (Hlog & _).
  destruct a as [SPDR|delivered| |delivered]; cbn [perform is_capture] in *.
  - destruct (Z.eq_dec (our_log_head st) (Z.rem (our_log_tail st + 1) LOG_SIZE)) as [Heq|Hne].
    + rewrite (ISR_full SPDR st Heq) in Hrun. inversion Hrun; subst.
      split; [count_events; lia|]. split; [|discriminate].
      intros b _. split; [reflexivity|]. left. auto.
    + rewrite (ISR_room SPDR st Hne Hlog) in Hrun. inversion Hrun; subst.
      split; [count_events; cbn; lia|]. split; [|discriminate].
      intros b Hb. inversion Hb; subst. split; [reflexivity|]. right. cbn. split_and!; done.
  - split_and!; [|discriminate|intros _].
    + destruct (loop_inversion _ _ _ _ _ Hrun) as (n & out1 & out2 & Hsync & _ & Hq).
      destruct (quiet_occurrences out2 Hq) as (_ & _ & Hrd2 & _).
      destruct (id_eqb (our_id st) alpha).
      * destruct Hsync as [Hsync ->].
        rewrite !occurrences_app, Hrd2. count_events.
        destruct (alpha_synchronize_inversion _ _ _ _ _ _ Hok Hsync)
          as [(-> & -> & _)|(_ & _ & _ & _ & _ & Hr & Hrd & _)].
        -- count_events. lia.
        -- lia.
      * destruct Hsync as (-> & _ & ->). lia.
    + destruct (loop_inversion _ _ _ _ _ Hrun) as (n & out1 & out2 & Hsync & _ & Hq).
      destruct (id_eqb (our_id st) alpha).
      * destruct Hsync as [Hsync ->].
        destruct (alpha_synchronize_inversion _ _ _ _ _ _ Hok Hsync)
          as [(-> & _)|(_ & _ & _ & _ & Hu & Hr & _ & _ & Hl & Hh & Ht)].
        -- auto.
        -- split_and!; try done. lia.
      * destruct Hsync as (-> & _). auto.
  - destruct (beta_synchronize_tx_keeps_state _ _ _ _ Hrun) as [-> Hq].
    destruct (quiet_occurrences out Hq) as (_ & _ & Hrd & _).
    split_and!; [lia|discriminate|auto].
  - destruct (Wire_onReceive_inversion _ _ _ _ _ Hok Hrun)
      as (Hu & Hr & Hrd & _ & Hl & Hh & Ht).
    split_and!; [lia|discriminate|intros _; split_and!; try done; lia].
Qed.

Lemma log_of_snoc (bs : list byte) (b : byte) :
  (length bs < 127)%nat → <[length bs := b]> (log_of bs) = log_of (bs ++ [b]).
Proof.
  intros Hlen. unfold log_of.
  change (Z.to_nat (LOG_SIZE - 1)) with 127%nat. change (Z.to_nat LOG_SIZE) with 128%nat.
  rewrite !take_ge by (rewrite ?length_app; cbn; lia).
  rewrite length_app. cbn [length].
  rewrite insert_app_r_alt by lia. rewrite Nat.sub_diag.
  replace (128 - length bs)%nat with (S (128 - (length bs + 1))) by lia.
  cbn. now rewrite <- app_assoc.
Qed.

Lemma log_of_length (bs : list byte) : length (log_of bs) = 128%nat.
Proof.
  unfold log_of. change (Z.to_nat (LOG_SIZE - 1)) with 127%nat.
  change (Z.to_nat LOG_SIZE) with 128%nat.
  rewrite length_app, length_replicate, length_take. lia.
Qed.

Lemma log_of_full (bs : list byte) (b : byte) :
  (127 <= length bs)%nat → log_of (bs ++ [b]) = log_of bs.
Proof.
  intros Hlen. unfold log_of. change (Z.to_nat (LOG_SIZE - 1)) with 127%nat.
  now rewrite take_app_le by lia.
Qed.

Lemma captured_bytes_length (acts : list action) :
  Z.of_nat (length (captured_bytes acts)) = captures acts.
Proof.
  unfold captures, captured_bytes. f_equal.
  induction acts as [|[b| | |] acts IH]; cbn; congruence.
Qed.

Lemma captured_bytes_cons (a : action) (acts : list action) :
  captured_bytes (a :: acts)
  = match a with Capture b => [b] | _ => [] end ++ captured_bytes acts.
Proof. destruct a; reflexivity. Qed.

Lemma boot_books_ok (me : id) : books_ok [] (boot me).
Proof. split; [apply boot_backlog_ok | repeat split]. Qed.

(** One action keeps the books. *)
Lemma perform_books_ok (fuel : nat) (a : action) (bs : list byte)
  (st st' : node) (out : list event) :
  books_ok bs st → perform fuel a st = Done tt st' out →
  books_ok (bs ++ match a with Capture b => [b] | _ => [] end) st'.
Proof.
  intros (Hok & Hh & Hl & Ht & Hsum) Hrun.
  pose proof (perform_accounted _ _ _ _ _ Hok Hrun) as (Hok' & _).
  destruct (perform_books _ _ _ _ _ Hok Hrun) as (_ & Hcap & Hrest).
  change (Z.to_nat (LOG_SIZE - 1)) with 127%nat in *.
  destruct (decide (length bs < 127)%nat) as [Hshort|Hlong].
  2: assert (length (take 127 bs) = 127%nat) as Hfull by (rewrite length_take; lia).
  1: assert (take 127 bs = bs) as Hall by (apply take_ge; lia).
  all: destruct a as [b|delivered| |delivered].
  all: try (rewrite app_nil_r; destruct (Hrest eq_refl) as (Hl' & Ht' & Hh' & Hsum')).
  all: try (split; [done|]; change (Z.to_nat (LOG_SIZE - 1)) with 127%nat;
            split_and!; [congruence|congruence|congruence|lia]).
  - destruct (Hcap b eq_refl) as (Hr & [(-> & _ & Hfull)|(Hl' & Ht' & Hh' & Hu' & _)]).
    + exfalso. rewrite Hh, Ht, Hall in Hfull. unfold LOG_SIZE in Hfull.
      rewrite Z.rem_small in Hfull by lia. lia.
    + split; [done|]. rewrite Ht, Hall in *. unfold LOG_SIZE in Ht'.
      rewrite Z.rem_small in Ht' by lia.
      change (Z.to_nat (LOG_SIZE - 1)) with 127%nat.
      rewrite take_ge by (rewrite length_app; cbn; lia).
      rewrite length_app. cbn [length].
      split_and!; [congruence| |lia|lia].
      rewrite Hl', Hl, Nat2Z.id. now apply log_of_snoc.
  - destruct (Hcap b eq_refl) as (Hr & [(-> & _ & _)|(_ & _ & _ & _ & _ & Hne)]).
    + split; [done|]. rewrite log_of_full by lia.
      change (Z.to_nat (LOG_SIZE - 1)) with 127%nat.
      rewrite take_app_le by lia. done.
    + exfalso. apply Hne. rewrite Hh, Ht, Hfull. reflexivity.
Qed.

(** A history keeps the books, and counts what it read off the wire. *)
Lemma perform_all_books_ok (fuel : nat) (acts : list action) :
  ∀ (bs : list byte) (st st' : node) (out : list event),
  books_ok bs st → perform_all fuel acts st = Done tt st' out →
  books_ok (bs ++ captured_bytes acts) st' ∧
  bytes_unreported st' = bytes_unreported st + occurrences is_wire_read out.
Proof.
  induction acts as [|a acts IH]; intros bs st st' out Hbooks Hrun.
  - cbn in Hrun. inversion Hrun; subst. rewrite app_nil_r. split; [done|].
    rewrite occurrences_nil. lia.
  - cbn [perform_all] in Hrun. unfold mbind, M_bind in Hrun.
    destruct (perform fuel a st) as [[] st1 out1| |] eqn:Hstep; try discriminate.
    destruct (perform_all fuel acts st1) as [[] st2 out2| |] eqn:Hrest; try discriminate.
    cbn [after] in Hrun. inversion Hrun; subst.
    pose proof (perform_books_ok _ _ _ _ _ _ Hbooks Hstep) as Hbooks1.
    destruct (perform_books _ _ _ _ _ (proj1 Hbooks) Hstep) as (Hr1 & _).
    destruct (IH _ _ _ _ Hbooks1 Hrest) as (Hbooks2 & Hr2).
    rewrite captured_bytes_cons, app_assoc. split; [done|].
    rewrite occurrences_app. lia.
Qed.

(** X7 (ISR(SPI_STC_vect), with every other entry point of the sketch).
    [our_log] is written once: nothing in the sketch moves [our_log_head], so
    after any history from boot the log is the first [LOG_SIZE - 1] bytes
    that arrived on the bus, in order, followed by the zeros of boot, the
    tail is their number, and every later byte was dropped with the
    slow-synchronisation indicator lit. *)
Theorem our_log_is_written_once (fuel : nat) (me : id) (acts : list action)
  (st : node) (out : list event) :
  perform_all fuel acts (boot me) = Done tt st out →
  our_log_head st = 0 ∧
  our_log st = log_of (captured_bytes acts) ∧
  our_log_tail st = Z.min (captures acts) (LOG_SIZE - 1) ∧
  occurrences is_slow_sync out = Z.max 0 (captures acts - (LOG_SIZE - 1)).
Proof.
  intros Hrun.
  destruct (perform_all_books_ok _ _ _ _ _ _ (boot_books_ok me) Hrun)
    as ((Hok & Hh & Hl & Ht & _) & _).
  pose proof (perform_all_accounted _ _ _ _ _ (boot_backlog_ok me) Hrun)
    as (_ & _ & _ & Hours & _).
  cbn [app] in *. rewrite <- captured_bytes_length.
  change (Z.to_nat (LOG_SIZE - 1)) with 127%nat in *.
  rewrite length_take in Ht.
  unfold held in Hours. rewrite Hh, Ht in Hours. cbn [boot our_log_head our_log_tail] in Hours.
  unfold LOG_SIZE in *. rewrite Z.sub_0_r, Z.mod_small in Hours by lia.
  rewrite <- captured_bytes_length in Hours.
  change ((0 - 0) `mod` 128) with 0 in Hours.
  split_and!; [done|done|lia|lia].
Qed.

Lemma our_log_is_written_once_witness :
  our_log_head synced_node = 0 ∧
  our_log synced_node = log_of (captured_bytes synced_history) ∧
  our_log_tail synced_node = Z.min (captures synced_history) (LOG_SIZE - 1) ∧
  occurrences is_slow_sync synced_trace
    = Z.max 0 (captures synced_history - (LOG_SIZE - 1)).
Proof.
  apply (our_log_is_written_once 4 alpha synced_history synced_node synced_trace).
  reflexivity.
Defined.

(** X8 (ISR(SPI_STC_vect), alpha_synchronize, beta_synchronize_rx).
    No stored byte is counted twice, and each is counted once as long as no
    byte arrives while a pass of the main program runs.  After a history
    from boot made of captures, whole main-loop passes and the two
    callbacks, the bytes waiting for synchronisation and the bytes waiting
    for the report add up to the bytes [our_log] holds.  (On the responder,
    whose counts change in the capture handler and in a callback only, these
    are all histories.)  After a further round of the initiator during
    which bytes arrive at any of its interrupt points, the two counts add up
    to at most what [our_log] holds, and to exactly that if none arrives.
    They can add up to less: a byte captured between the load and the store
    of [bytes_unsynched -= bytes_synched] is stored and counted nowhere
    ([capture_inside_the_subtraction]). *)
Theorem backlogs_add_up (fuel : nat) (me : id) (acts : list action)
  (st : node) (out : list event) :
  perform_all fuel acts (boot me) = Done tt st out →
  bytes_unsynched st + bytes_unreported st
  = held (our_log_head st) (our_log_tail st) ∧
  ∀ tail_first fuel' delivered s n s' st' out',
    Irq.alpha_synchronize tail_first fuel' delivered s st = Done (n, s') st' out' →
    bytes_unsynched st' + bytes_unreported st'
    <= held (our_log_head st') (our_log_tail st') ∧
    (s = [] →
     bytes_unsynched st' + bytes_unreported st'
     = held (our_log_head st') (our_log_tail st')).
Proof.
  intros Hrun.
  destruct (perform_all_books_ok _ _ _ _ _ _ (boot_books_ok me) Hrun)
    as ((Hback & Hh & _ & _ & Hsum) & _).
  pose proof Hback as [Hok _]. pose proof Hok as ([_ Ht] & _).
  assert (Hheld : bytes_unsynched st + bytes_unreported st
                  = held (our_log_head st) (our_log_tail st)).
  { unfold held. rewrite Hh, Z.sub_0_r, Z.mod_small; [done|]. exact Ht. }
  split; [exact Hheld|].
  intros tail_first fuel' delivered s n s' st' out' Hround. split.
  - destruct (alpha_synchronize_with_captures _ _ _ _ _ _ _ _ _ Hok Hround)
      as (_ & _ & _ & _ & _ & Hun & _).
    unfold uncounted in Hun. lia.
  - intros ->. rewrite alpha_synchronize_uninterrupted in Hround.
    destruct (alpha_synchronize fuel' delivered st) as [n2 st2 out2| |] eqn:Hquiet;
      try discriminate.
    cbn [uninterrupted] in Hround. inversion Hround; subst n2 st2 out2. clear Hround.
    destruct (alpha_synchronize_inversion _ _ _ _ _ _ Hback Hquiet)
      as [(-> & _ & _) | (_ & _ & _ & _ & Hu & Hr & _ & _ & _ & Hh' & Ht')].
    + exact Hheld.
    + rewrite Hh', Ht'. lia.
Qed.

Lemma backlogs_add_up_witness :
  bytes_unsynched synced_node + bytes_unreported synced_node
  = held (our_log_head synced_node) (our_log_tail synced_node) ∧
  ∀ tail_first fuel' delivered s n s' st' out',
    Irq.alpha_synchronize tail_first fuel' delivered s synced_node = Done (n, s') st' out' →
    bytes_unsynched st' + bytes_unreported st'
    <= held (our_log_head st') (our_log_tail st') ∧
    (s = [] →
     bytes_unsynched st' + bytes_unreported st'
     = held (our_log_head st') (our_log_tail st')).
Proof.
  apply (backlogs_add_up 4 alpha synced_history synced_node synced_trace).
  reflexivity.
Defined.

(** X9 (alpha_synchronize, beta_synchronize_rx, loop).
    The report backlog is never worked off: over any stretch of a node's
    life [bytes_unreported] grows by exactly the bytes read off the wire,
    whether they were stored or dropped, and nothing ever lowers it.  (The
    count is an [int]; the statement is about the stretch in which it has
    not overflowed.) *)
Theorem unreported_counts_wire_reads (fuel : nat) (acts : list action)
  (st st' : node) (out : list event) :
  backlog_ok st → perform_all fuel acts st = Done tt st' out →
  bytes_unreported st' = bytes_unreported st + occurrences is_wire_read out ∧
  bytes_unreported st <= bytes_unreported st'.
Proof.
  revert st st' out.
  induction acts as [|a acts IH]; intros st st' out Hok Hrun.
  - cbn in Hrun. inversion Hrun; subst. rewrite occurrences_nil. lia.
  - cbn [perform_all] in Hrun. unfold mbind, M_bind in Hrun.
    destruct (perform fuel a st) as [[] st1 out1| |] eqn:Hstep; try discriminate.
    destruct (perform_all fuel acts st1) as [[] st2 out2| |] eqn:Hrest; try discriminate.
    cbn [after] in Hrun. inversion Hrun; subst.
    destruct (perform_books _ _ _ _ _ Hok Hstep) as (Hr1 & _).
    pose proof (perform_accounted _ _ _ _ _ Hok Hstep) as (Hok1 & _).
    destruct (IH _ _ _ Hok1 Hrest) as (Hr2 & Hle).
    rewrite occurrences_app.
    assert (0 <= occurrences is_wire_read out1)
      by (unfold occurrences; lia).
    lia.
Qed.

Lemma unreported_counts_wire_reads_witness :
  bytes_unreported synced_node
  = bytes_unreported (boot alpha) + occurrences is_wire_read synced_trace ∧
  bytes_unreported (boot alpha) <= bytes_unreported synced_node.
Proof.
  apply (unreported_counts_wire_reads 4 synced_history (boot alpha) synced_node synced_trace).
  - concrete.
  - reflexivity.
Defined.

(** ** What goes over the wire and to the serial port *)

Lemma log_span_nil (log : list byte) (start n : Z) :
  n <= 0 → log_span log start n = [].
Proof. intros Hn. unfold log_span. now replace (Z.to_nat n) with 0%nat by lia. Qed.

Lemma log_span_cons (log : list byte) (start n : Z) :
  0 < n →
  log_span log start n
  = log !!! Z.to_nat (start mod LOG_SIZE) :: log_span log (start + 1) (n - 1).
Proof.
  intros Hn. unfold log_span.
  replace (Z.to_nat n) with (S (Z.to_nat (n - 1))) by lia.
  cbn [seq fmap list_fmap]. f_equal.
  - now rewrite Z.add_0_r.
  - rewrite <- fmap_S_seq, <- list_fmap_compose.
    apply list_fmap_ext. intros _ j _. cbn. do 3 f_equal. lia.
Qed.

Lemma log_span_length (log : list byte) (start n : Z) :
  length (log_span log start n) = Z.to_nat n.
Proof. unfold log_span. now rewrite length_fmap, length_seq. Qed.

Lemma wire_written_writes (bs : list byte) : wire_written (WireWrite <$> bs) = bs.
Proof. induction bs as [|b bs IH]; [reflexivity|]. cbn. now f_equal. Qed.

Lemma load_lookup_total (log : list byte) (i : Z) (b : byte) :
  load log i = Some b → log !!! Z.to_nat i = b.
Proof.
  unfold load. destruct (decide (0 <= i)); [|discriminate].
  intros H. now apply list_lookup_total_correct.
Qed.

(** The transmit loop sends the slots from [uhead + i] on, one for each
    byte still unsynchronised, and leaves the node alone. *)
Lemma transmit_sends (uhead : Z) (fuel : nat) :
  ∀ (i : Z) (st : node),
  Z.of_nat (length (our_log st)) = LOG_SIZE → 0 <= uhead → 0 <= i →
  (Z.to_nat (bytes_unsynched st - i) < fuel)%nat →
  while fuel
    (λ i, u ← gets bytes_unsynched; mret (i <? u))
    (λ i, log ← gets our_log;
          b ← defined (load log (Z.rem (uhead + i) LOG_SIZE));
          emit (WireWrite b);;
          mret (i + 1))
    i st
  = Done (Z.max i (bytes_unsynched st)) st
      (WireWrite <$> log_span (our_log st) (uhead + i) (bytes_unsynched st - i)).
Proof.
  induction fuel as [|fuel IH]; intros i st Hlen Hhead Hi Hfuel; [lia|].
  cbn [while]. unfold mbind at 1. unfold M_bind at 1.
  unfold mbind at 1. unfold M_bind at 1. unfold gets at 1. cbn [after mret M_ret app].
  destruct (Z.ltb_spec i (bytes_unsynched st)) as [Hlt|Hge]; cbn iota.
  - destruct (load_in_bounds (our_log st) (Z.rem (uhead + i) LOG_SIZE)) as (b & Hload & _).
    { rewrite Hlen, Z.rem_mod_nonneg by (unfold LOG_SIZE; lia).
      apply Z.mod_pos_bound. unfold LOG_SIZE. lia. }
    rewrite (bind_done _ _ st (i + 1) st [WireWrite b]).
    2:{ unfold mbind, M_bind, gets, defined, emit, mret, M_ret. rewrite Hload. reflexivity. }
    rewrite (IH (i + 1) st Hlen Hhead) by lia. cbn [after app].
    rewrite (log_span_cons _ (uhead + i)) by lia. cbn [fmap list_fmap].
    apply load_lookup_total in Hload.
    rewrite Z.rem_mod_nonneg in Hload by (unfold LOG_SIZE; lia).
    rewrite Hload.
    replace (uhead + (i + 1)) with (uhead + i + 1) by lia.
    replace (bytes_unsynched st - (i + 1)) with (bytes_unsynched st - i - 1) by lia.
    now replace ((i + 1) `max` bytes_unsynched st) with (i `max` bytes_unsynched st) by lia.
  - unfold mret, M_ret. cbn [after app].
    rewrite log_span_nil by lia. f_equal. lia.
Qed.

(** The answer to a request, byte for byte. *)
Lemma beta_synchronize_tx_content (fuel : nat) (st : node) :
  node_ok st → bytes_unsynched st <= LOG_SIZE →
  (Z.to_nat (bytes_unsynched st) < fuel)%nat →
  beta_synchronize_tx fuel st
  = Done tt st
      (WireWrite <$> log_span (our_log st)
         (unsynched_head (bytes_unsynched st) (our_log_tail st) LOG_SIZE)
         (bytes_unsynched st)).
Proof.
  intros ([Hlen Ht] & _) HU Hfuel. unfold beta_synchronize_tx.
  do 2 run_step. cbn zeta. unfold transmit.
  assert (Hhead : 0 <= unsynched_head (bytes_unsynched st) (our_log_tail st) LOG_SIZE)
    by (unfold unsynched_head; apply Z.rem_nonneg; unfold LOG_SIZE in *; lia).
  assert (Hfuel' : (Z.to_nat (bytes_unsynched st - 0) < fuel)%nat)
    by now rewrite Z.sub_0_r.
  rewrite (bind_done _ _ st _ st _
             (transmit_sends _ fuel 0 st Hlen Hhead (Z.le_refl 0) Hfuel')).
  cbn beta. unfold mret, M_ret. cbn [after app].
  now rewrite app_nil_r, Z.add_0_r, Z.sub_0_r.
Qed.

(** X10 (beta_synchronize_tx).  The answer to a request is exactly one byte
    for each byte still unsynchronised: the slots of [our_log] from
    [unsynched_head] on, around the ring, in order; nothing else is emitted
    and the node is left as it was. *)
Theorem beta_synchronize_tx_sends (fuel : nat) (st : node) :
  node_ok st → bytes_unsynched st <= LOG_SIZE →
  (Z.to_nat (bytes_unsynched st) < fuel)%nat →
  beta_synchronize_tx fuel st
  = Done tt st
      (WireWrite <$> log_span (our_log st)
         (unsynched_head (bytes_unsynched st) (our_log_tail st) LOG_SIZE)
         (bytes_unsynched st)).
Proof.
  intros ([Hlen Ht] & _) HU Hfuel. unfold beta_synchronize_tx.
  do 2 run_step. cbn zeta. unfold transmit.
  assert (Hhead : 0 <= unsynched_head (bytes_unsynched st) (our_log_tail st) LOG_SIZE)
    by (unfold unsynched_head; apply Z.rem_nonneg; unfold LOG_SIZE in *; lia).
  assert (Hfuel' : (Z.to_nat (bytes_unsynched st - 0) < fuel)%nat)
    by now rewrite Z.sub_0_r.
  rewrite (bind_done _ _ st _ st _
             (transmit_sends _ fuel 0 st Hlen Hhead (Z.le_refl 0) Hfuel')).
  cbn beta. unfold mret, M_ret. cbn [after app].
  now rewrite app_nil_r, Z.add_0_r, Z.sub_0_r.
Qed.

Lemma beta_synchronize_tx_sends_witness :
  beta_synchronize_tx 3 (two_captured beta)
  = Done tt (two_captured beta)
      (WireWrite <$> log_span (our_log (two_captured beta))
         (unsynched_head (bytes_unsynched (two_captured beta))
            (our_log_tail (two_captured beta)) LOG_SIZE)
         (bytes_unsynched (two_captured beta))).
Proof.
  apply (beta_synchronize_tx_sends 3 (two_captured beta)).
  - concrete.
  - concrete.
  - vm_compute. lia.
Defined.

Lemma take_as_lookups (l : list byte) :
  ∀ n : nat, (n <= length l)%nat → (λ j : nat, l !!! j) <$> seq 0 n = take n l.
Proof.
  induction l as [|a l IH]; intros [|n] Hn; try reflexivity; [cbn in Hn; lia|].
  cbn [seq fmap list_fmap take]. f_equal.
  rewrite <- fmap_S_seq, <- list_fmap_compose, <- IH by (cbn in Hn; lia).
  now apply list_fmap_ext.
Qed.

(** Read from the slot before the first, a log that has not wrapped gives
    the zero of boot and then its bytes from the front. *)
Lemma log_span_from_last (bs : list byte) (n : Z) :
  0 < n <= Z.of_nat (length bs) → (length bs <= 127)%nat →
  log_span (log_of bs) (LOG_SIZE - 1) n = x00 :: take (Z.to_nat (n - 1)) bs.
Proof.
  intros Hn Hlen. rewrite log_span_cons by lia.
  unfold log_of. change (Z.to_nat (LOG_SIZE - 1)) with 127%nat.
  change (Z.to_nat LOG_SIZE) with 128%nat. rewrite take_ge by lia. f_equal.
  - change (Z.to_nat ((LOG_SIZE - 1) `mod` LOG_SIZE)) with 127%nat.
    rewrite lookup_total_app_r by lia. apply lookup_total_replicate_2. lia.
  - rewrite <- (take_as_lookups bs) by lia. unfold log_span.
    apply list_fmap_ext. intros i j Hj.
    apply lookup_seq in Hj as [Hi Hj]. cbn [Nat.add] in Hi. subst j.
    replace ((LOG_SIZE - 1 + 1 + Z.of_nat i) `mod` LOG_SIZE) with (Z.of_nat i).
    + rewrite Nat2Z.id. apply lookup_total_app_l. lia.
    + unfold LOG_SIZE. replace (128 - 1 + 1 + Z.of_nat i) with (Z.of_nat i + 1 * 128) by lia.
      rewrite Z_mod_plus_full, Z.mod_small; lia.
Qed.

(** Captures that find room are stored without an event, and keep the
    books. *)
Lemma captures_fill (fuel : nat) (bs : list byte) :
  ∀ (pre : list byte) (st : node),
  books_ok pre st → (length pre + length bs <= 127)%nat →
  ∃ st', perform_all fuel (Capture <$> bs) st = Done tt st' [] ∧
         books_ok (pre ++ bs) st' ∧
         bytes_unreported st' = bytes_unreported st ∧ our_id st' = our_id st.
Proof.
  induction bs as [|b bs IH]; intros pre st Hbooks Hlen.
  - exists st. rewrite app_nil_r. split_and!; done.
  - pose proof Hbooks as (Hok & Hh & _ & Ht & _).
    pose proof Hok as [(Hlog & _) _].
    change (Z.to_nat (LOG_SIZE - 1)) with 127%nat in Ht.
    rewrite take_ge in Ht by (cbn in Hlen; lia).
    assert (Hne : our_log_head st ≠ Z.rem (our_log_tail st + 1) LOG_SIZE).
    { rewrite Hh, Ht. unfold LOG_SIZE. cbn in Hlen. rewrite Z.rem_small; lia. }
    assert (Hstep : perform fuel (Capture b) st = ISR b st) by reflexivity.
    rewrite (ISR_room b st Hne Hlog) in Hstep.
    pose proof (perform_books_ok _ _ _ _ _ _ Hbooks Hstep) as Hbooks1.
    destruct (IH (pre ++ [b]) _ Hbooks1) as (st' & Hrun & Hbooks' & Hr & Hid).
    { rewrite length_app. cbn in *. lia. }
    exists st'. cbn [fmap list_fmap perform_all].
    rewrite (bind_done _ _ st tt _ [] Hstep). cbn beta. rewrite Hrun. cbn [after app].
    rewrite <- app_assoc in Hbooks'. split_and!; done.
Qed.

(** The unsynchronised span of a node that has only captured so far: the
    zero boot left in the last slot, then all its bytes but the newest. *)
Lemma first_span (bs : list byte) (st : node) :
  books_ok bs st → bytes_unreported st = 0 → (0 < length bs <= 127)%nat →
  bytes_unsynched st = Z.of_nat (length bs) ∧
  log_span (our_log st)
    (unsynched_head (bytes_unsynched st) (our_log_tail st) LOG_SIZE)
    (bytes_unsynched st)
  = x00 :: take (length bs - 1) bs.
Proof.
  intros (Hok & Hh & Hl & Ht & Hsum) Hr Hlen.
  change (Z.to_nat (LOG_SIZE - 1)) with 127%nat in Ht.
  rewrite take_ge in Ht by lia.
  assert (HU : bytes_unsynched st = Z.of_nat (length bs)) by lia.
  split; [exact HU|]. rewrite HU, Ht, Hl.
  replace (unsynched_head (Z.of_nat (length bs)) (Z.of_nat (length bs)) LOG_SIZE)
    with (LOG_SIZE - 1).
  - rewrite log_span_from_last by lia.
    now replace (Z.to_nat (Z.of_nat (length bs) - 1)) with (length bs - 1)%nat by lia.
  - unfold unsynched_head.
    replace (Z.of_nat (length bs) - Z.of_nat (length bs) - 1 + 2 * LOG_SIZE)
      with (LOG_SIZE - 1 + 1 * LOG_SIZE) by lia.
    reflexivity.
Qed.

(** X11 (ISR(SPI_STC_vect), unsynched_head, beta_synchronize_tx).
    The first answer of a node lags by one byte: a node that has
    captured the bytes [bs] since boot, one at least and no more than fit,
    answers the request with the zero that boot left in the last slot of the
    log followed by all of [bs] but its newest byte. *)
Theorem first_answer_lags_by_one (fuel : nat) (me : id) (bs : list byte) :
  (0 < length bs <= 127)%nat → (length bs < fuel)%nat →
  ∃ st, perform_all fuel (Capture <$> bs) (boot me) = Done tt st [] ∧
        beta_synchronize_tx fuel st
        = Done tt st (WireWrite <$> (x00 :: take (length bs - 1) bs)).
Proof.
  intros Hlen Hfuel.
  destruct (captures_fill fuel bs [] (boot me) (boot_books_ok me) ltac:(cbn; lia))
    as (st & Hrun & Hbooks & Hr & _).
  cbn [app boot bytes_unreported] in *.
  destruct (first_span bs st Hbooks Hr Hlen) as [HU Hspan].
  exists st. split; [exact Hrun|].
  rewrite beta_synchronize_tx_content;
    [|exact (proj1 (proj1 Hbooks))|unfold LOG_SIZE; lia|lia].
  now rewrite Hspan.
Qed.

Lemma first_answer_lags_by_one_witness :
  ∃ st, perform_all 4 (Capture <$> [x11; x22; x33]) (boot beta) = Done tt st [] ∧
        beta_synchronize_tx 4 st
        = Done tt st (WireWrite <$> (x00 :: take (length [x11; x22; x33] - 1) [x11; x22; x33])).
Proof.
  apply (first_answer_lags_by_one 4 beta [x11; x22; x33]); cbn; lia.
Defined.

Lemma report_lines_cons (me : id) (b c : byte) (ours theirs : list byte) :
  report_lines me (b :: ours) (c :: theirs)
  = report_line me b c ++ report_lines me ours theirs.
Proof. reflexivity. Qed.

Lemma report_lines_mirror (me : id) (ours : list byte) :
  ∀ theirs : list byte,
  report_lines (match me with alpha => beta | beta => alpha end) theirs ours
  = report_lines me ours theirs.
Proof.
  induction ours as [|b ours IH]; intros [|c theirs]; try reflexivity.
  rewrite !report_lines_cons, IH. now destruct me.
Qed.

(** One pass of the body prints the pair of slot [start + i]. *)
Lemma report_pair_prints (start i n : Z) (st : node) :
  Z.of_nat (length (our_log st)) = LOG_SIZE →
  Z.of_nat (length (their_log st)) = LOG_SIZE →
  0 <= start → 0 <= i →
  report_pair start (i, n) st
  = Done (i + 1, n + 1) st
      (report_line (our_id st)
         (our_log st !!! Z.to_nat ((start + i) mod LOG_SIZE))
         (their_log st !!! Z.to_nat ((start + i) mod LOG_SIZE))).
Proof.
  intros Hours Htheirs Hstart Hi.
  assert (Hidx : 0 <= Z.rem (start + i) LOG_SIZE < LOG_SIZE).
  { rewrite Z.rem_mod_nonneg by (unfold LOG_SIZE; lia).
    apply Z.mod_pos_bound. unfold LOG_SIZE. lia. }
  destruct (load_in_bounds (our_log st) (Z.rem (start + i) LOG_SIZE)) as (b & Hb & _); [lia|].
  destruct (load_in_bounds (their_log st) (Z.rem (start + i) LOG_SIZE)) as (c & Hc & _); [lia|].
  pose proof (load_lookup_total _ _ _ Hb) as Hb'.
  pose proof (load_lookup_total _ _ _ Hc) as Hc'.
  rewrite Z.rem_mod_nonneg in Hb', Hc' by (unfold LOG_SIZE; lia).
  rewrite Hb', Hc'.
  unfold report_pair, mbind, M_bind, gets, defined, emit, mret, M_ret.
  destruct (our_id st); cbn beta iota; cbn [id_eqb];
    repeat (first [rewrite Hb | rewrite Hc]; cbn [after app]); reflexivity.
Qed.

Lemma report_loop_prints (start : Z) (fuel : nat) :
  ∀ (i n : Z) (st : node),
  Z.of_nat (length (our_log st)) = LOG_SIZE →
  Z.of_nat (length (their_log st)) = LOG_SIZE →
  0 <= start → 0 <= i →
  (Z.to_nat (bytes_unreported st - i) < fuel)%nat →
  while fuel (λ '(i, _), r ← gets bytes_unreported; mret (i <? r))
    (report_pair start) (i, n) st
  = Done (Z.max i (bytes_unreported st), n + Z.max 0 (bytes_unreported st - i)) st
      (report_lines (our_id st)
         (log_span (our_log st) (start + i) (bytes_unreported st - i))
         (log_span (their_log st) (start + i) (bytes_unreported st - i))).
Proof.
  induction fuel as [|fuel IH]; intros i n st Hours Htheirs Hstart Hi Hfuel; [lia|].
  cbn [while]. unfold mbind at 1. unfold M_bind at 1.
  unfold mbind at 1. unfold M_bind at 1. unfold gets at 1. cbn [after mret M_ret app].
  destruct (Z.ltb_spec i (bytes_unreported st)) as [Hlt|Hge]; cbn iota.
  - rewrite (bind_done _ _ st _ st _ (report_pair_prints start i n st Hours Htheirs Hstart Hi)).
    rewrite (IH (i + 1) (n + 1) st Hours Htheirs Hstart) by lia. cbn [after].
    rewrite !(log_span_cons _ (start + i)) by lia. rewrite report_lines_cons.
    replace (start + (i + 1)) with (start + i + 1) by lia.
    replace (bytes_unreported st - (i + 1)) with (bytes_unreported st - i - 1) by lia.
    replace ((i + 1) `max` bytes_unreported st) with (i `max` bytes_unreported st) by lia.
    now replace (n + 1 + 0 `max` (bytes_unreported st - i - 1))
      with (n + 0 `max` (bytes_unreported st - i)) by lia.
  - unfold mret, M_ret. cbn [after app].
    rewrite !log_span_nil by lia.
    replace (i `max` bytes_unreported st) with i by lia.
    now replace (n + 0 `max` (bytes_unreported st - i)) with n by lia.
Qed.

(** What the reporter prints, pair for pair. *)
Lemma report_content (fuel : nat) (st : node) :
  node_ok st →
  0 <= bytes_unsynched st < LOG_SIZE →
  bytes_unreported st <= LOG_SIZE →
  (Z.to_nat (bytes_unreported st) < fuel)%nat →
  report fuel st
  = Done tt st
      (report_lines (our_id st)
         (log_span (our_log st)
            (unreported_head (bytes_unreported st) (bytes_unsynched st)
               (our_log_tail st) LOG_SIZE)
            (bytes_unreported st))
         (log_span (their_log st)
            (unreported_head (bytes_unreported st) (bytes_unsynched st)
               (our_log_tail st) LOG_SIZE)
            (bytes_unreported st))).
Proof.
  intros ([Hours Ht] & _ & [Htheirs _] & _) HU HR Hfuel.
  unfold report. run_step.
  destruct (Z.ltb_spec 0 (bytes_unreported st)) as [Hpos|Hnone].
  - do 2 run_step. cbn zeta.
    pose proof (unreported_head_range (bytes_unreported st) (bytes_unsynched st)
                  (our_log_tail st) LOG_SIZE HU ltac:(lia) Ht) as [Hstart _].
    assert (Hfuel' : (Z.to_nat (bytes_unreported st - 0) < fuel)%nat)
      by now rewrite Z.sub_0_r.
    rewrite (bind_done _ _ st _ st _
               (report_loop_prints _ fuel 0 0 st Hours Htheirs Hstart (Z.le_refl 0) Hfuel')).
    unfold mret, M_ret. cbn [after].
    now rewrite app_nil_r, Z.add_0_r, Z.sub_0_r.
  - now rewrite !log_span_nil by lia.
Qed.

(** X12 (loop, unreported_head).  The reporter prints one pair for each
    unreported byte: the slots of [our_log] and [their_log] at the same
    index, from [unreported_head] on, around the ring; the initiator prints
    its own byte first, the responder the peer's, so that the node of the
    other role holding the two logs exchanged prints the same lines.  The
    pass changes nothing in the node. *)
Theorem report_prints_pairs (fuel : nat) (st : node) :
  node_ok st →
  0 <= bytes_unsynched st < LOG_SIZE →
  bytes_unreported st <= LOG_SIZE →
  (Z.to_nat (bytes_unreported st) < fuel)%nat →
  let start := unreported_head (bytes_unreported st) (bytes_unsynched st)
                 (our_log_tail st) LOG_SIZE in
  let lines := report_lines (our_id st)
                 (log_span (our_log st) start (bytes_unreported st))
                 (log_span (their_log st) start (bytes_unreported st)) in
  report fuel st = Done tt st lines ∧
  report fuel (mirror st) = Done tt (mirror st) lines.
Proof.
  intros Hok HU HR Hfuel start lines. split.
  - now apply report_content.
  - rewrite report_content; try assumption.
    + unfold lines, start, mirror.
      cbn [our_id our_log their_log bytes_unreported bytes_unsynched our_log_tail].
      now rewrite report_lines_mirror.
    + destruct Hok as ([H1 H2] & [_ H3] & [H4 H5] & [_ H6]).
      unfold node_ok, log_ok, mirror. cbn. unfold LOG_SIZE in *. lia.
Qed.

Lemma report_prints_pairs_witness :
  let st := two_unreported in
  let start := unreported_head (bytes_unreported st) (bytes_unsynched st)
                 (our_log_tail st) LOG_SIZE in
  let lines := report_lines (our_id st)
                 (log_span (our_log st) start (bytes_unreported st))
                 (log_span (their_log st) start (bytes_unreported st)) in
  report 3 st = Done tt st lines ∧
  report 3 (mirror st) = Done tt (mirror st) lines.
Proof.
  apply (report_prints_pairs 3 two_unreported).
  - concrete.
  - concrete.
  - concrete.
  - vm_compute. lia.
Defined.

(** X13 (loop, unreported_head).  Nothing ever lowers [bytes_unreported],
    and the reporter does not bound it: once it exceeds the log size by more
    than [unsynched_head], the sum inside [unreported_head] is negative, the
    remainder of C keeps the sign, and unless the sum is a multiple of the
    log size the first pair is read from below both logs. *)
Theorem report_reads_below_the_logs (fuel : nat) (st : node) :
  0 <= unsynched_head (bytes_unsynched st) (our_log_tail st) LOG_SIZE →
  LOG_SIZE + unsynched_head (bytes_unsynched st) (our_log_tail st) LOG_SIZE
    < bytes_unreported st →
  (unsynched_head (bytes_unsynched st) (our_log_tail st) LOG_SIZE
   - bytes_unreported st) mod LOG_SIZE ≠ 0 →
  (0 < fuel)%nat →
  unreported_head (bytes_unreported st) (bytes_unsynched st) (our_log_tail st) LOG_SIZE < 0 ∧
  report fuel st = Undefined.
Proof.
  intros Hhead Hover Hrest Hfuel.
  set (start := unreported_head (bytes_unreported st) (bytes_unsynched st)
                  (our_log_tail st) LOG_SIZE).
  assert (Hstart : - LOG_SIZE < start < 0).
  { unfold start, unreported_head. cbv zeta.
    set (x := unsynched_head _ _ _ - _ + LOG_SIZE).
    assert (Hx : x < 0) by (unfold x; lia).
    pose proof (Z.rem_bound_pos_neg x LOG_SIZE ltac:(unfold LOG_SIZE; lia) ltac:(lia)) as Hb.
    assert (Z.rem x LOG_SIZE ≠ 0); [|lia].
    rewrite Z.rem_mod_eq_0 by (unfold LOG_SIZE; lia).
    unfold x. replace (unsynched_head (bytes_unsynched st) (our_log_tail st) LOG_SIZE
                       - bytes_unreported st + LOG_SIZE)
      with (unsynched_head (bytes_unsynched st) (our_log_tail st) LOG_SIZE
            - bytes_unreported st + 1 * LOG_SIZE) by lia.
    now rewrite Z_mod_plus_full. }
  split; [lia|].
  assert (Hidx : Z.rem (start + 0) LOG_SIZE < 0).
  { rewrite Z.add_0_r. replace start with (- - start) by lia.
    rewrite Z.rem_opp_l', Z.rem_small by lia. lia. }
  assert (Hload : ∀ log, load log (Z.rem (start + 0) LOG_SIZE) = None).
  { intros log. unfold load. now rewrite decide_False by lia. }
  unfold report. run_step.
  rewrite (proj2 (Z.ltb_lt 0 (bytes_unreported st))) by (unfold LOG_SIZE in *; lia).
  do 2 run_step. cbn zeta. fold start.
  destruct fuel as [|fuel]; [lia|].
  unfold mbind at 1. unfold M_bind at 1. cbn [while].
  unfold mbind at 1. unfold M_bind at 1.
  unfold mbind at 1. unfold M_bind at 1. unfold gets at 1. cbn [after mret M_ret app].
  rewrite (proj2 (Z.ltb_lt 0 (bytes_unreported st))) by (unfold LOG_SIZE in *; lia).
  cbn iota. unfold mbind at 1. unfold M_bind at 1.
  unfold report_pair, mbind, M_bind, gets, defined.
  destruct (id_eqb (our_id st) alpha); rewrite Hload; reflexivity.
Qed.

Lemma report_reads_below_the_logs_witness :
  let st := Node beta (replicate 128 x00) (replicate 128 x00) 0 0 0 0 0 256 [] in
  unreported_head (bytes_unreported st) (bytes_unsynched st) (our_log_tail st) LOG_SIZE < 0 ∧
  report 1 st = Undefined.
Proof.
  apply (report_reads_below_the_logs 1
           (Node beta (replicate 128 x00) (replicate 128 x00) 0 0 0 0 0 256 [])).
  - concrete.
  - concrete.
  - concrete.
  - lia.
Defined.

(** ** The peer's log, and a round seen byte for byte *)

Lemma wire_reads_app (o1 o2 : list event) :
  wire_reads (o1 ++ o2) = wire_reads o1 ++ wire_reads o2.
Proof. apply omap_app. Qed.

Lemma wire_written_app (o1 o2 : list event) :
  wire_written (o1 ++ o2) = wire_written o1 ++ wire_written o2.
Proof. apply omap_app. Qed.

Lemma wire_reads_cons (e : event) (out : list event) :
  wire_reads (e :: out)
  = match e with WireRead b => [b] | _ => [] end ++ wire_reads out.
Proof. now destruct e. Qed.

Lemma wire_reads_writes (bs : list byte) : wire_reads (WireWrite <$> bs) = [].
Proof. induction bs as [|b bs IH]; [reflexivity | exact IH]. Qed.

Lemma quiet_wire_reads (out : list event) : Forall quiet out → wire_reads out = [].
Proof.
  induction 1 as [|e out (_ & _ & Hrd & _) _ IH]; [reflexivity|].
  destruct e; try exact IH. discriminate.
Qed.

(** One [Wire.read()] into [their_log], byte for byte. *)
Lemma their_log_put_books (b : byte) (rest rs : list byte) (st : node) :
  node_ok st → wire_rx st = b :: rest → their_books_ok rs st →
  ∃ st' out, their_log_put st = Done tt st' out ∧
    wire_reads out = [b] ∧ wire_written out = [] ∧
    wire_rx st' = rest ∧ receive_frame st st' ∧ node_ok st' ∧
    their_books_ok (rs ++ [b]) st'.
Proof.
  intros ([Hol Hot] & [_ Hoh] & [Hlen Htt] & [_ Hth]) Hrx (Hh & Hl & Ht).
  change (Z.to_nat (LOG_SIZE - 1)) with 127%nat in Ht.
  unfold their_books_ok. change (Z.to_nat (LOG_SIZE - 1)) with 127%nat.
  unfold their_log_put, mbind, M_bind, gets, Wire_read. cbn.
  destruct (Z.eqb_spec (their_log_head st) (Z.rem (their_log_tail st + 1) LOG_SIZE)) as [Heq|Hne]; cbn.
  - rewrite Hrx. cbn. eexists _, _. split; [reflexivity|].
    assert (Hfull : (127 <= length rs)%nat).
    { rewrite Hh, Ht, length_take in Heq. unfold LOG_SIZE in Heq.
      destruct (decide (127 <= length rs)%nat); [assumption|].
      rewrite Z.rem_small in Heq; lia. }
    unfold node_ok, log_ok, receive_frame. cbn.
    rewrite log_of_full, take_app_le by lia. split_and!; try done; lia.
  - rewrite Hrx. cbn. rewrite store_in_bounds by (cbn; lia). cbn.
    eexists _, _. split; [reflexivity|].
    assert (Hroom : (length rs < 127)%nat).
    { rewrite Hh, Ht, length_take in Hne.
      destruct (decide (length rs < 127)%nat); [assumption|]. exfalso. apply Hne.
      now replace (127 `min` length rs)%nat with 127%nat by lia. }
    rewrite take_ge in Ht by lia.
    rewrite (take_ge (rs ++ [b])) by (rewrite length_app; cbn; lia).
    rewrite length_app. cbn [length].
    unfold node_ok, log_ok, receive_frame. cbn. rewrite ?length_insert.
    rewrite Hl, Ht, Nat2Z.id, log_of_snoc by assumption.
    unfold LOG_SIZE in *. rewrite Z.rem_small, ?log_of_length by lia.
    split_and!; try done; lia.
Qed.

(** The receive loop of both nodes, byte for byte. *)
Lemma receive_books {A : Type} (body : A → M A) (g : A → A) :
  (∀ a st, body a st = match their_log_put st with
                       | Done _ st' out => Done (g a) st' out
                       | Undefined => Undefined
                       | Spinning => Spinning
                       end) →
  ∀ (rx : list byte) (fuel : nat) (a : A) (rs : list byte) (st : node),
  node_ok st → wire_rx st = rx → their_books_ok rs st → (length rx < fuel)%nat →
  ∃ st' out,
    while fuel (λ _, av ← Wire_available; mret (0 <? av)) body a st
      = Done (Nat.iter (length rx) g a) st' out ∧
    wire_reads out = rx ∧ wire_written out = [] ∧
    wire_rx st' = [] ∧ receive_frame st st' ∧ node_ok st' ∧
    their_books_ok (rs ++ rx) st'.
Proof.
  intros Hbody rx. induction rx as [|b rest IH]; intros fuel a rs st Hok Hrx Hbooks Hfuel.
  - destruct fuel as [|fuel]; [cbn in Hfuel; lia|].
    cbn [while]. unfold mbind, M_bind, Wire_available, gets, mret, M_ret.
    rewrite Hrx. cbn. eexists _, _. split; [reflexivity|].
    rewrite !app_nil_r. unfold receive_frame. split_and!; done.
  - destruct fuel as [|fuel]; [cbn in Hfuel; lia|].
    destruct (their_log_put_books b rest rs st Hok Hrx Hbooks)
      as (st1 & out1 & Hput & Hrd1 & Hwr1 & Hrx1 & Hfr1 & Hok1 & Hbooks1).
    destruct (IH fuel (g a) (rs ++ [b]) st1 Hok1 Hrx1 Hbooks1 ltac:(cbn in Hfuel; lia))
      as (st2 & out2 & Hloop & Hrd2 & Hwr2 & Hrx2 & Hfr2 & Hok2 & Hbooks2).
    cbn [while]. unfold mbind at 1. unfold M_bind at 1.
    unfold mbind at 1. unfold M_bind at 1. unfold Wire_available, gets at 1.
    rewrite Hrx. cbn [length after mret M_ret app].
    change (0 <? Z.of_nat (S (length rest))) with true. cbn iota.
    rewrite (bind_done _ _ st (g a) st1 out1) by (rewrite Hbody, Hput; reflexivity).
    change (gets (λ st0 : node, Z.of_nat (length (wire_rx st0)))) with Wire_available.
    rewrite Hloop. cbn [after app].
    eexists _, _. split; [rewrite Nat.iter_succ_r; reflexivity|].
    rewrite wire_reads_app, wire_written_app, Hrd1, Hrd2, Hwr1, Hwr2.
    rewrite <- app_assoc in Hbooks2.
    split_and!; try done. eapply receive_frame_trans; eassumption.
Qed.

(** A round of the initiator that ends, event for event. *)
Lemma alpha_synchronize_trace (fuel : nat) (delivered rs : list byte) (st : node) :
  node_ok st → our_id st = alpha →
  bytes_unsynched st ≠ 0 →
  bytes_unsynched st <= LOG_SIZE →
  bytes_unsynched st <= Z.of_nat (length delivered) →
  (length delivered < fuel)%nat →
  their_books_ok rs st →
  ∃ st' rxout,
    alpha_synchronize fuel delivered st
    = Done (Z.of_nat (length delivered)) st'
        ([WireRequestFrom I2C_SLAVE_ADDRESS (bytes_unsynched st);
          DigitalWrite DEADLOCKED_LED HIGH]
         ++ rxout
         ++ [DigitalWrite DEADLOCKED_LED LOW; WireBeginTransmission I2C_SLAVE_ADDRESS]
         ++ (WireWrite <$> log_span (our_log st)
               (unsynched_head (bytes_unsynched st) (our_log_tail st) LOG_SIZE)
               (bytes_unsynched st))
         ++ [WireEndTransmission]
         ++ (if bytes_unsynched st =? Z.of_nat (length delivered)
             then [] else [DigitalWrite UNSYNCHRONIZED_LED HIGH])) ∧
    wire_reads rxout = delivered ∧ wire_written rxout = [] ∧
    their_books_ok (rs ++ delivered) st' ∧ node_ok st' ∧ wire_rx st' = [] ∧
    bytes_unsynched st' = bytes_unsynched st - Z.of_nat (length delivered) ∧
    bytes_unreported st' = bytes_unreported st + Z.of_nat (length delivered) ∧
    our_id st' = our_id st ∧ our_log st' = our_log st ∧
    our_log_head st' = our_log_head st ∧ our_log_tail st' = our_log_tail st.
Proof.
  intros Hok Hid Hnz HU HR Hfuel Hbooks.
  unfold alpha_synchronize.
  run_step. rewrite Hid. cbn [id_eqb negb].
  run_step. rewrite (proj2 (Z.eqb_neq _ _) Hnz).
  run_step. run_step.
  set (st1 := set_wire_rx delivered st).
  assert (Hok1 : node_ok st1) by exact Hok.
  assert (Hbooks1 : their_books_ok rs st1) by exact Hbooks.
  rewrite (bind_done _ _ st1 tt st1 []) by (apply busy_wait_passes; [lia | exact HR]).
  cbn beta; cbn [after app].
  destruct (receive_books (λ n, their_log_put;; mret (n + 1)) (λ n, n + 1)
              alpha_body_is_put delivered fuel 0 rs st1 Hok1 eq_refl Hbooks1 Hfuel)
    as (st2 & out2 & Hloop & Hrd & Hwr & Hrx2 & Hfr & Hok2 & Hbooks2).
  rewrite iter_succ, Z.add_0_l in Hloop.
  rewrite (bind_done _ _ st1 _ st2 out2 Hloop). cbn beta; cbn [after app].
  destruct Hfr as (Hf1 & Hf2 & Hf3 & Hf4 & Hf5 & Hf6 & Hf7). cbn in Hf1, Hf2, Hf3, Hf4, Hf5, Hf6, Hf7.
  do 4 run_step. cbn zeta.
  pose proof Hok2 as ([Hlen2 Ht2] & Hok2'). pose proof Hok as ([_ Ht0] & _).
  assert (Hhead : 0 <= unsynched_head (bytes_unsynched st2) (our_log_tail st2) LOG_SIZE)
    by (unfold unsynched_head; apply Z.rem_nonneg; unfold LOG_SIZE in *; lia).
  assert (Hfuel' : (Z.to_nat (bytes_unsynched st2 - 0) < fuel)%nat) by lia.
  unfold transmit.
  rewrite (bind_done _ _ st2 _ st2 _
             (transmit_sends _ fuel 0 st2 Hlen2 Hhead (Z.le_refl 0) Hfuel')).
  cbn beta; cbn [after app].
  do 2 run_step.
  rewrite Z.add_0_r, Z.sub_0_r, Hf2, Hf4, Hf6.
  destruct Hbooks2 as (Hb1 & Hb2 & Hb3). destruct Hok2' as ([_ Hk1] & [Hk2 Hk3] & _).
  destruct (bytes_unsynched st =? Z.of_nat (length delivered)) eqn:Hmatch; cbn [negb];
    repeat run_step; unfold mret, M_ret; cbn [after app];
    (eexists _, out2; split; [f_equal|]);
    unfold their_books_ok, node_ok, log_ok; cbn;
    split_and!; try done; try congruence; try lia.
Qed.

(** The responder taking the initiator's bytes, event for event. *)
Lemma Wire_onReceive_trace (fuel : nat) (delivered rs : list byte) (st : node) :
  node_ok st → (length delivered < fuel)%nat → their_books_ok rs st →
  ∃ st' rxout,
    Wire_onReceive fuel delivered st
    = Done tt st'
        (rxout ++ (if bytes_unsynched st =? Z.of_nat (length delivered)
                   then [] else [DigitalWrite UNSYNCHRONIZED_LED HIGH])) ∧
    wire_reads rxout = delivered ∧ wire_written rxout = [] ∧
    their_books_ok (rs ++ delivered) st' ∧ node_ok st' ∧ wire_rx st' = [] ∧
    bytes_unsynched st' = bytes_unsynched st - Z.of_nat (length delivered) ∧
    bytes_unreported st' = bytes_unreported st + Z.of_nat (length delivered) ∧
    our_id st' = our_id st ∧ our_log st' = our_log st ∧
    our_log_head st' = our_log_head st ∧ our_log_tail st' = our_log_tail st.
Proof.
  intros Hok Hfuel Hbooks. unfold Wire_onReceive, beta_synchronize_rx.
  run_step.
  set (st1 := set_wire_rx delivered st).
  assert (Hok1 : node_ok st1) by exact Hok.
  assert (Hbooks1 : their_books_ok rs st1) by exact Hbooks.
  destruct (receive_books (λ _ : unit, their_log_put) (λ _, tt)
              (λ _, beta_body_is_put) delivered fuel tt rs st1 Hok1 eq_refl Hbooks1 Hfuel)
    as (st2 & out2 & Hloop & Hrd & Hwr & Hrx2 & Hfr & Hok2 & Hbooks2).
  assert (Hiter : Nat.iter (length delivered) (λ _ : unit, tt) tt = tt)
    by (now destruct (Nat.iter _ _ _)).
  rewrite Hiter in Hloop.
  rewrite (bind_done _ _ st1 _ st2 out2 Hloop). cbn beta; cbn [after app].
  destruct Hfr as (Hf1 & Hf2 & Hf3 & Hf4 & Hf5 & Hf6 & Hf7).
  cbn in Hf1, Hf2, Hf3, Hf4, Hf5, Hf6, Hf7.
  run_step. rewrite Hf6.
  destruct Hbooks2 as (Hb1 & Hb2 & Hb3).
  destruct Hok2 as ([Hk0 Hk0'] & [_ Hk1] & [Hk2 Hk3] & _).
  destruct (bytes_unsynched st =? Z.of_nat (length delivered)) eqn:Hmatch; cbn [negb];
    repeat run_step; unfold modify, mret, M_ret; cbn [after app];
    (eexists _, out2; split; [f_equal|]);
    unfold their_books_ok, node_ok, log_ok; cbn;
    split_and!; try done; try congruence; try lia.
Qed.

(** One action keeps the peer's side of the books. *)
Lemma perform_their_books (fuel : nat) (a : action) (rs : list byte)
  (st st' : node) (out : list event) :
  backlog_ok st → their_books_ok rs st → perform fuel a st = Done tt st' out →
  their_books_ok (rs ++ wire_reads out) st'.
Proof.
  intros Hok Hbooks Hrun. pose proof Hok as [Hnode HU].
  pose proof (held_range (our_log_head st) (our_log_tail st)) as Hheld.
  destruct a as [SPDR|delivered| |delivered]; cbn [perform] in Hrun.
  - pose proof Hnode as (Hlog & _).
    destruct (Z.eq_dec (our_log_head st) (Z.rem (our_log_tail st + 1) LOG_SIZE)) as [Heq|Hne].
    + rewrite (ISR_full SPDR st Heq) in Hrun. inversion Hrun; subst.
      cbn. now rewrite app_nil_r.
    + rewrite (ISR_room SPDR st Hne Hlog) in Hrun. inversion Hrun; subst.
      cbn. now rewrite app_nil_r.
  - destruct (loop_inversion _ _ _ _ _ Hrun) as (n & out1 & out2 & Hsync & _ & Hq).
    pose proof (quiet_wire_reads out2 Hq) as Hrd2.
    destruct (id_eqb (our_id st) alpha) eqn:Hrole.
    + destruct Hsync as [Hsync ->].
      rewrite !wire_reads_app, Hrd2. cbn [wire_reads omap]. rewrite app_nil_r.
      apply (alpha_synchronize_monotone delivered fuel (fuel + S (length delivered))%nat)
        in Hsync; [|lia].
      destruct (our_id st) eqn:Hid; [|discriminate].
      destruct (Z.eq_dec (bytes_unsynched st) 0) as [Hz|Hnz].
      * rewrite alpha_synchronize_bails in Hsync by auto. inversion Hsync; subst.
        cbn. now rewrite app_nil_r.
      * destruct (Z.lt_ge_cases (Z.of_nat (length delivered)) (bytes_unsynched st)) as [Hshort|Hfits].
        -- rewrite alpha_synchronize_blocks in Hsync by assumption. discriminate.
        -- destruct (alpha_synchronize_trace (fuel + S (length delivered)) delivered rs st
                       Hnode Hid Hnz ltac:(unfold LOG_SIZE in *; lia) Hfits ltac:(lia) Hbooks)
             as (st2 & rxout & Hrun2 & Hrd & Hwr & Hbooks2 & _).
           rewrite Hrun2 in Hsync. inversion Hsync; subst.
           destruct (bytes_unsynched st =? Z.of_nat (length (wire_reads rxout)));
             repeat (rewrite wire_reads_cons || rewrite wire_reads_app);
             rewrite wire_reads_writes; cbn; now rewrite ?app_nil_r.
    + destruct Hsync as (-> & _ & ->). now rewrite Hrd2, app_nil_r.
  - destruct (beta_synchronize_tx_keeps_state _ _ _ _ Hrun) as [-> Hq].
    now rewrite (quiet_wire_reads out Hq), app_nil_r.
  - apply (perform_monotone (OnReceive delivered) fuel (fuel + S (length delivered))%nat)
      in Hrun; [|lia]. cbn [perform] in Hrun.
    destruct (Wire_onReceive_trace (fuel + S (length delivered)) delivered rs st
                Hnode ltac:(lia) Hbooks)
      as (st2 & rxout & Hrun2 & Hrd & Hwr & Hbooks2 & _).
    rewrite Hrun2 in Hrun. inversion Hrun; subst.
    rewrite wire_reads_app.
    destruct (bytes_unsynched st =? Z.of_nat (length (wire_reads rxout)));
      cbn; now rewrite ?app_nil_r.
Qed.

Lemma perform_all_their_books (fuel : nat) (acts : list action) :
  ∀ (rs : list byte) (st st' : node) (out : list event),
  backlog_ok st → their_books_ok rs st → perform_all fuel acts st = Done tt st' out →
  their_books_ok (rs ++ wire_reads out) st'.
Proof.
  induction acts as [|a acts IH]; intros rs st st' out Hok Hbooks Hrun.
  - cbn in Hrun. inversion Hrun; subst. cbn. now rewrite app_nil_r.
  - cbn [perform_all] in Hrun. unfold mbind, M_bind in Hrun.
    destruct (perform fuel a st) as [[] st1 out1| |] eqn:Hstep; try discriminate.
    destruct (perform_all fuel acts st1) as [[] st2 out2| |] eqn:Hrest; try discriminate.
    cbn [after] in Hrun. inversion Hrun; subst.
    pose proof (perform_accounted _ _ _ _ _ Hok Hstep) as (Hok1 & _).
    pose proof (perform_their_books _ _ _ _ _ _ Hok Hbooks Hstep) as Hbooks1.
    rewrite wire_reads_app, app_assoc. eauto.
Qed.

(** X14 (alpha_synchronize, beta_synchronize_rx).  [their_log] is written
    once as well: nothing moves [their_log_head], so after any history from
    boot the log is the first [LOG_SIZE - 1] bytes read off the wire, in
    order, followed by the zeros of boot, and every later byte was read and
    dropped with the slow-dump indicator lit. *)
Theorem their_log_is_written_once (fuel : nat) (me : id) (acts : list action)
  (st : node) (out : list event) :
  perform_all fuel acts (boot me) = Done tt st out →
  their_log_head st = 0 ∧
  their_log st = log_of (wire_reads out) ∧
  their_log_tail st = Z.min (Z.of_nat (length (wire_reads out))) (LOG_SIZE - 1) ∧
  occurrences is_slow_dump out
    = Z.max 0 (Z.of_nat (length (wire_reads out)) - (LOG_SIZE - 1)).
Proof.
  intros Hrun.
  assert (Hboot : their_books_ok [] (boot me)) by (repeat split).
  destruct (perform_all_their_books _ _ _ _ _ _ (boot_backlog_ok me) Hboot Hrun)
    as (Hh & Hl & Ht).
  pose proof (perform_all_accounted _ _ _ _ _ (boot_backlog_ok me) Hrun)
    as (_ & _ & _ & _ & Htheirs).
  cbn [app] in *.
  change (Z.to_nat (LOG_SIZE - 1)) with 127%nat in *.
  rewrite length_take in Ht.
  assert (Hcount : occurrences is_wire_read out = Z.of_nat (length (wire_reads out))).
  { unfold occurrences, wire_reads. f_equal. clear.
    induction out as [|[] out IH]; cbn; congruence. }
  unfold held in Htheirs. rewrite Hh, Ht, Hcount in Htheirs.
  cbn [boot their_log_head their_log_tail] in Htheirs.
  unfold LOG_SIZE in *. rewrite Z.sub_0_r, Z.mod_small in Htheirs by lia.
  change ((0 - 0) `mod` 128) with 0 in Htheirs.
  split_and!; [done|done|lia|lia].
Qed.

Lemma their_log_is_written_once_witness :
  their_log_head synced_node = 0 ∧
  their_log synced_node = log_of (wire_reads synced_trace) ∧
  their_log_tail synced_node
    = Z.min (Z.of_nat (length (wire_reads synced_trace))) (LOG_SIZE - 1) ∧
  occurrences is_slow_dump synced_trace
    = Z.max 0 (Z.of_nat (length (wire_reads synced_trace)) - (LOG_SIZE - 1)).
Proof.
  apply (their_log_is_written_once 4 alpha synced_history synced_node synced_trace).
  reflexivity.
Defined.

Lemma wire_written_cons (e : event) (out : list event) :
  wire_written (e :: out)
  = match e with WireWrite b => [b] | _ => [] end ++ wire_written out.
Proof. now destruct e. Qed.

(** One [Wire.read()] into [their_log], event for event. *)
Lemma their_log_put_events (b : byte) (rest rs : list byte) (st : node) :
  node_ok st → wire_rx st = b :: rest → their_books_ok rs st →
  ∃ st', their_log_put st = Done tt st' (receive_events (length rs) [b]).
Proof.
  intros ([Hol Hot] & [_ Hoh] & [Hlen Htt] & [_ Hth]) Hrx (Hh & Hl & Ht).
  change (Z.to_nat (LOG_SIZE - 1)) with 127%nat in Ht.
  unfold their_log_put, mbind, M_bind, gets, Wire_read. cbn.
  destruct (Z.eqb_spec (their_log_head st) (Z.rem (their_log_tail st + 1) LOG_SIZE)) as [Heq|Hne]; cbn.
  - rewrite Hrx. cbn.
    assert (Hfull : (127 <= length rs)%nat).
    { rewrite Hh, Ht, length_take in Heq. unfold LOG_SIZE in Heq.
      destruct (decide (127 <= length rs)%nat); [assumption|].
      rewrite Z.rem_small in Heq; lia. }
    rewrite decide_True by exact Hfull. eexists. reflexivity.
  - rewrite Hrx. cbn. rewrite store_in_bounds by (cbn; lia). cbn.
    assert (Hroom : (length rs < 127)%nat).
    { rewrite Hh, Ht, length_take in Hne.
      destruct (decide (length rs < 127)%nat); [assumption|]. exfalso. apply Hne.
      now replace (127 `min` length rs)%nat with 127%nat by lia. }
    rewrite decide_False by lia. eexists. reflexivity.
Qed.

(** The receive loop of both nodes, event for event. *)
Lemma receive_loop_events {A : Type} (body : A → M A) (g : A → A) :
  (∀ a st, body a st = match their_log_put st with
                       | Done _ st' out => Done (g a) st' out
                       | Undefined => Undefined
                       | Spinning => Spinning
                       end) →
  ∀ (rx : list byte) (fuel : nat) (a : A) (rs : list byte) (st : node),
  node_ok st → wire_rx st = rx → their_books_ok rs st → (length rx < fuel)%nat →
  ∃ st',
    while fuel (λ _, av ← Wire_available; mret (0 <? av)) body a st
      = Done (Nat.iter (length rx) g a) st' (receive_events (length rs) rx).
Proof.
  intros Hbody rx. induction rx as [|b rest IH]; intros fuel a rs st Hok Hrx Hbooks Hfuel.
  - destruct fuel as [|fuel]; [cbn in Hfuel; lia|].
    cbn [while]. unfold mbind, M_bind, Wire_available, gets, mret, M_ret.
    rewrite Hrx. cbn. eexists. reflexivity.
  - destruct fuel as [|fuel]; [cbn in Hfuel; lia|].
    destruct (their_log_put_books b rest rs st Hok Hrx Hbooks)
      as (st1 & out1 & Hput & _ & _ & Hrx1 & _ & Hok1 & Hbooks1).
    destruct (their_log_put_events b rest rs st Hok Hrx Hbooks) as (st1' & Hput').
    rewrite Hput in Hput'. inversion Hput'; subst st1' out1. clear Hput'.
    destruct (IH fuel (g a) (rs ++ [b]) st1 Hok1 Hrx1 Hbooks1 ltac:(cbn in Hfuel; lia))
      as (st2 & Hloop).
    cbn [while]. unfold mbind at 1. unfold M_bind at 1.
    unfold mbind at 1. unfold M_bind at 1. unfold Wire_available, gets at 1.
    rewrite Hrx. cbn [length after mret M_ret app].
    change (0 <? Z.of_nat (S (length rest))) with true. cbn iota.
    rewrite (bind_done _ _ st (g a) st1 _) by (rewrite Hbody, Hput; reflexivity).
    change (gets (λ st0 : node, Z.of_nat (length (wire_rx st0)))) with Wire_available.
    rewrite Hloop. cbn [after app].
    exists st2. rewrite Nat.iter_succ_r. f_equal.
    rewrite length_app, Nat.add_1_r. cbn [receive_events length].
    now rewrite app_nil_r.
Qed.

(** A round of the initiator that ends, with what the receive loop does
    spelled out. *)
Lemma alpha_synchronize_events (fuel : nat) (delivered rs : list byte) (st : node) :
  node_ok st → our_id st = alpha →
  bytes_unsynched st ≠ 0 →
  bytes_unsynched st <= LOG_SIZE →
  bytes_unsynched st <= Z.of_nat (length delivered) →
  (length delivered < fuel)%nat →
  their_books_ok rs st →
  ∃ st',
    alpha_synchronize fuel delivered st
    = Done (Z.of_nat (length delivered)) st'
        ([WireRequestFrom I2C_SLAVE_ADDRESS (bytes_unsynched st);
          DigitalWrite DEADLOCKED_LED HIGH]
         ++ receive_events (length rs) delivered
         ++ [DigitalWrite DEADLOCKED_LED LOW; WireBeginTransmission I2C_SLAVE_ADDRESS]
         ++ (WireWrite <$> log_span (our_log st)
               (unsynched_head (bytes_unsynched st) (our_log_tail st) LOG_SIZE)
               (bytes_unsynched st))
         ++ [WireEndTransmission]
         ++ (if bytes_unsynched st =? Z.of_nat (length delivered)
             then [] else [DigitalWrite UNSYNCHRONIZED_LED HIGH])).
Proof.
  intros Hok Hid Hnz HU HR Hfuel Hbooks.
  unfold alpha_synchronize.
  run_step. rewrite Hid. cbn [id_eqb negb].
  run_step. rewrite (proj2 (Z.eqb_neq _ _) Hnz).
  run_step. run_step.
  set (st1 := set_wire_rx delivered st).
  assert (Hok1 : node_ok st1) by exact Hok.
  assert (Hbooks1 : their_books_ok rs st1) by exact Hbooks.
  rewrite (bind_done _ _ st1 tt st1 []) by (apply busy_wait_passes; [lia | exact HR]).
  cbn beta; cbn [after app].
  destruct (receive_books (λ n, their_log_put;; mret (n + 1)) (λ n, n + 1)
              alpha_body_is_put delivered fuel 0 rs st1 Hok1 eq_refl Hbooks1 Hfuel)
    as (st2 & out2 & Hloop & _ & _ & _ & Hfr & Hok2 & _).
  destruct (receive_loop_events (λ n, their_log_put;; mret (n + 1)) (λ n, n + 1)
              alpha_body_is_put delivered fuel 0 rs st1 Hok1 eq_refl Hbooks1 Hfuel)
    as (st2' & Hloop').
  rewrite Hloop in Hloop'. inversion Hloop'; subst st2' out2. clear Hloop'.
  rewrite iter_succ, Z.add_0_l in Hloop.
  rewrite (bind_done _ _ st1 _ st2 _ Hloop). cbn beta; cbn [after app].
  destruct Hfr as (Hf1 & Hf2 & Hf3 & Hf4 & Hf5 & Hf6 & Hf7). cbn in Hf1, Hf2, Hf3, Hf4, Hf5, Hf6, Hf7.
  do 4 run_step. cbn zeta.
  pose proof Hok2 as ([Hlen2 Ht2] & _). pose proof Hok as ([_ Ht0] & _).
  assert (Hhead : 0 <= unsynched_head (bytes_unsynched st2) (our_log_tail st2) LOG_SIZE)
    by (unfold unsynched_head; apply Z.rem_nonneg; unfold LOG_SIZE in *; lia).
  assert (Hfuel' : (Z.to_nat (bytes_unsynched st2 - 0) < fuel)%nat) by lia.
  unfold transmit.
  rewrite (bind_done _ _ st2 _ st2 _
             (transmit_sends _ fuel 0 st2 Hlen2 Hhead (Z.le_refl 0) Hfuel')).
  cbn beta; cbn [after app].
  do 2 run_step.
  rewrite Z.add_0_r, Z.sub_0_r, Hf2, Hf4, Hf6.
  destruct (bytes_unsynched st =? Z.of_nat (length delivered)) eqn:Hmatch; cbn [negb];
    repeat run_step; unfold mret, M_ret; cbn [after app];
    eexists; reflexivity.
Qed.

(** X15 (alpha_synchronize).  A round of the initiator during which no
    byte is captured and which ends, event for event: the request for as
    many bytes as are unsynchronised; the deadlock indicator lit; one
    [Wire.read()] for each delivered byte, in order, with the slow-dump
    indicator lit after each read that found [their_log] full and with
    nothing else in between; the deadlock indicator put out; one
    transmission of the unsynchronised span of [our_log]; and the
    unsynchronised indicator exactly if the counts differ.  The bytes read
    are stored in [their_log] behind what was read before, as long as there
    is room. *)
Theorem alpha_round_event_for_event (tail_first : bool) (fuel : nat)
  (delivered rs : list byte) (st : node) :
  node_ok st → our_id st = alpha →
  bytes_unsynched st ≠ 0 →
  bytes_unsynched st <= LOG_SIZE →
  bytes_unsynched st <= Z.of_nat (length delivered) →
  (length delivered < fuel)%nat →
  their_books_ok rs st →
  ∃ st',
    Irq.alpha_synchronize tail_first fuel delivered [] st
    = Done (Z.of_nat (length delivered), []) st'
        ([WireRequestFrom I2C_SLAVE_ADDRESS (bytes_unsynched st);
          DigitalWrite DEADLOCKED_LED HIGH]
         ++ receive_events (length rs) delivered
         ++ [DigitalWrite DEADLOCKED_LED LOW; WireBeginTransmission I2C_SLAVE_ADDRESS]
         ++ (WireWrite <$> log_span (our_log st)
               (unsynched_head (bytes_unsynched st) (our_log_tail st) LOG_SIZE)
               (bytes_unsynched st))
         ++ [WireEndTransmission]
         ++ (if bytes_unsynched st =? Z.of_nat (length delivered)
             then [] else [DigitalWrite UNSYNCHRONIZED_LED HIGH])) ∧
    their_log st' = log_of (rs ++ delivered) ∧ our_log st' = our_log st.
Proof.
  intros Hok Hid Hnz HU HR Hfuel Hbooks.
  destruct (alpha_synchronize_events fuel delivered rs st Hok Hid Hnz HU HR Hfuel Hbooks)
    as (st' & Hrun).
  destruct (alpha_synchronize_trace fuel delivered rs st Hok Hid Hnz HU HR Hfuel Hbooks)
    as (st2 & rxout & Hrun2 & _ & _ & (_ & Hl & _) & _ & _ & _ & _ & _ & Hours & _).
  assert (st2 = st') as -> by congruence.
  exists st'. rewrite alpha_synchronize_uninterrupted, Hrun.
  split_and!; [reflexivity | assumption | assumption].
Qed.

Lemma alpha_round_event_for_event_witness :
  ∃ st',
    Irq.alpha_synchronize true 3 [xaa; xbb] [] (two_captured alpha)
    = Done (Z.of_nat (length [xaa; xbb]), []) st'
        ([WireRequestFrom I2C_SLAVE_ADDRESS (bytes_unsynched (two_captured alpha));
          DigitalWrite DEADLOCKED_LED HIGH]
         ++ receive_events (length (@nil byte)) [xaa; xbb]
         ++ [DigitalWrite DEADLOCKED_LED LOW; WireBeginTransmission I2C_SLAVE_ADDRESS]
         ++ (WireWrite <$> log_span (our_log (two_captured alpha))
               (unsynched_head (bytes_unsynched (two_captured alpha))
                  (our_log_tail (two_captured alpha)) LOG_SIZE)
               (bytes_unsynched (two_captured alpha)))
         ++ [WireEndTransmission]
         ++ (if bytes_unsynched (two_captured alpha) =? Z.of_nat (length [xaa; xbb])
             then [] else [DigitalWrite UNSYNCHRONIZED_LED HIGH])) ∧
    their_log st' = log_of ([] ++ [xaa; xbb]) ∧
    our_log st' = our_log (two_captured alpha).
Proof.
  apply (alpha_round_event_for_event true 3 [xaa; xbb] [] (two_captured alpha)).
  - concrete.
  - reflexivity.
  - concrete.
  - concrete.
  - concrete.
  - cbn. lia.
  - concrete.
Defined.

(** A round that finds [their_log] one short of full: the first byte is
    stored, the second is read and dropped. *)
Example receive_events_at_the_end :
  receive_events 126 [xaa; xbb]
  = [WireRead xaa; WireRead xbb; DigitalWrite SLOWDUMP_LED HIGH].
Proof. reflexivity. Qed.

(** What a round of the initiator puts on the wire. *)
Lemma alpha_synchronize_answer (fuel : nat) (delivered rs : list byte) (st : node) :
  node_ok st → our_id st = alpha →
  bytes_unsynched st ≠ 0 →
  bytes_unsynched st <= LOG_SIZE →
  bytes_unsynched st <= Z.of_nat (length delivered) →
  (length delivered < fuel)%nat →
  their_books_ok rs st →
  ∃ st' out,
    alpha_synchronize fuel delivered st = Done (Z.of_nat (length delivered)) st' out ∧
    wire_written out
    = log_span (our_log st)
        (unsynched_head (bytes_unsynched st) (our_log_tail st) LOG_SIZE)
        (bytes_unsynched st) ∧
    occurrences is_unsynchronized out
      = (if bytes_unsynched st =? Z.of_nat (length delivered) then 0 else 1) ∧
    their_books_ok (rs ++ delivered) st' ∧ node_ok st' ∧ wire_rx st' = [] ∧
    bytes_unsynched st' = bytes_unsynched st - Z.of_nat (length delivered) ∧
    bytes_unreported st' = bytes_unreported st + Z.of_nat (length delivered) ∧
    our_id st' = our_id st ∧ our_log st' = our_log st ∧
    our_log_head st' = our_log_head st ∧ our_log_tail st' = our_log_tail st.
Proof.
  intros Hok Hid Hnz HU HR Hfuel Hbooks.
  destruct (alpha_synchronize_trace fuel delivered rs st Hok Hid Hnz HU HR Hfuel Hbooks)
    as (st' & rxout & Hrun & Hrd & Hwr & Hrest).
  destruct (alpha_synchronize_round fuel delivered st Hok Hid Hnz HU HR Hfuel)
    as (st2 & out2 & Hrun2 & _ & _ & Hflag & _).
  rewrite Hrun in Hrun2. inversion Hrun2; subst st2 out2. clear Hrun2.
  eexists _, _. split; [exact Hrun|]. split; [|split; [exact Hflag | exact Hrest]].
  destruct (bytes_unsynched st =? Z.of_nat (length delivered));
    repeat (rewrite wire_written_cons || rewrite wire_written_app);
    rewrite Hwr, wire_written_writes; cbn; now rewrite ?app_nil_r.
Qed.

(** X16 (beta_synchronize_tx, alpha_synchronize, beta_synchronize_rx).
    A matched round during which no byte is captured clears both backlogs.
    The two nodes have the same number of unsynchronised bytes; no byte
    arrives on the initiator while its round runs (the empty schedule) nor
    on the responder between its answer and its receipt (both callbacks
    start from the same state); and the bus carries what each writes to the
    other whole (what the Wire library can carry in one transfer is outside
    the sketch).  Then the responder's answer lets the initiator's round end,
    the initiator's transmission is taken by the responder, each log of the
    peer grows by the other's span, both unsynchronised counts end at 0,
    both unreported counts grow by the number exchanged, and neither node
    lights its unsynchronised indicator. *)
Theorem matched_round_clears_both (tail_first : bool) (fuel : nat) (a b : node)
  (ra rb : list byte) :
  node_ok a → node_ok b → our_id a = alpha →
  their_books_ok ra a → their_books_ok rb b →
  0 < bytes_unsynched a <= LOG_SIZE →
  bytes_unsynched b = bytes_unsynched a →
  (Z.to_nat (bytes_unsynched a) < fuel)%nat →
  let answer := log_span (our_log b)
                  (unsynched_head (bytes_unsynched b) (our_log_tail b) LOG_SIZE)
                  (bytes_unsynched b) in
  let sent := log_span (our_log a)
                (unsynched_head (bytes_unsynched a) (our_log_tail a) LOG_SIZE)
                (bytes_unsynched a) in
  ∃ a' out_a b' out_b,
    beta_synchronize_tx fuel b = Done tt b (WireWrite <$> answer) ∧
    Irq.alpha_synchronize tail_first fuel answer [] a
      = Done (bytes_unsynched a, []) a' out_a ∧
    wire_written out_a = sent ∧
    Wire_onReceive fuel sent b = Done tt b' out_b ∧
    their_log a' = log_of (ra ++ answer) ∧
    their_log b' = log_of (rb ++ sent) ∧
    bytes_unsynched a' = 0 ∧ bytes_unsynched b' = 0 ∧
    bytes_unreported a' = bytes_unreported a + bytes_unsynched a ∧
    bytes_unreported b' = bytes_unreported b + bytes_unsynched a ∧
    occurrences is_unsynchronized out_a = 0 ∧
    occurrences is_unsynchronized out_b = 0.
Proof.
  intros Hoka Hokb Hid Hra Hrb HU Hsame Hfuel answer sent.
  assert (Hla : Z.of_nat (length answer) = bytes_unsynched a).
  { unfold answer. rewrite log_span_length. lia. }
  assert (Hls : Z.of_nat (length sent) = bytes_unsynched a).
  { unfold sent. rewrite log_span_length. lia. }
  destruct (alpha_synchronize_answer fuel answer ra a Hoka Hid ltac:(lia) ltac:(lia)
              ltac:(lia) ltac:(lia) Hra)
    as (a' & out_a & Hrun_a & Hwr_a & Hflag_a & (_ & Hl_a & _) & _ & _ & Hu_a & Hr_a & _).
  destruct (Wire_onReceive_trace fuel sent rb b Hokb ltac:(lia) Hrb)
    as (b' & rxout & Hrun_b & Hrd_b & Hwr_b & (_ & Hl_b & _) & _ & _ & Hu_b & Hr_b & _).
  destruct (Wire_onReceive_round fuel sent b Hokb ltac:(lia))
    as (b2 & out2 & Hrun2 & _ & _ & Hflag_b & _).
  rewrite Hrun_b in Hrun2. inversion Hrun2; subst b2 out2. clear Hrun2.
  rewrite Hla in Hrun_a, Hflag_a, Hu_a, Hr_a. rewrite Hls in Hu_b, Hr_b, Hflag_b.
  rewrite Z.eqb_refl in Hflag_a. rewrite Hsame, Z.eqb_refl in Hflag_b.
  rewrite Hls, Hsame, Z.eqb_refl in Hrun_b.
  eexists a', out_a, b', _. rewrite alpha_synchronize_uninterrupted, Hrun_a.
  split_and!; try done; try lia.
  apply beta_synchronize_tx_content; [assumption|lia|lia].
Qed.

Lemma matched_round_clears_both_witness :
  let a := two_captured alpha in
  let b := two_captured beta in
  let answer := log_span (our_log b)
                  (unsynched_head (bytes_unsynched b) (our_log_tail b) LOG_SIZE)
                  (bytes_unsynched b) in
  let sent := log_span (our_log a)
                (unsynched_head (bytes_unsynched a) (our_log_tail a) LOG_SIZE)
                (bytes_unsynched a) in
  ∃ a' out_a b' out_b,
    beta_synchronize_tx 3 b = Done tt b (WireWrite <$> answer) ∧
    Irq.alpha_synchronize true 3 answer [] a = Done (bytes_unsynched a, []) a' out_a ∧
    wire_written out_a = sent ∧
    Wire_onReceive 3 sent b = Done tt b' out_b ∧
    their_log a' = log_of ([] ++ answer) ∧
    their_log b' = log_of ([] ++ sent) ∧
    bytes_unsynched a' = 0 ∧ bytes_unsynched b' = 0 ∧
    bytes_unreported a' = bytes_unreported a + bytes_unsynched a ∧
    bytes_unreported b' = bytes_unreported b + bytes_unsynched a ∧
    occurrences is_unsynchronized out_a = 0 ∧
    occurrences is_unsynchronized out_b = 0.
Proof.
  apply (matched_round_clears_both true 3 (two_captured alpha) (two_captured beta) [] []).
  - concrete.
  - concrete.
  - reflexivity.
  - concrete.
  - concrete.
  - concrete.
  - reflexivity.
  - vm_compute. lia.
Defined.

(** X17 (ISR(SPI_STC_vect), beta_synchronize_tx, alpha_synchronize, loop).
    The first report pairs each byte with the peer's byte before it.  Two
    nodes boot and capture equally many bytes, [bs_a] on the initiator and
    [bs_b] on the responder; the bus carries the responder's answer to the
    initiator.  The round ends; the initiator has sent the zero of boot and
    all of [bs_a] but its newest byte; and the reporter prints, for as many
    pairs as bytes were captured, first a pair of zeros, then the first
    byte of [bs_a] against a zero, then each further byte of [bs_a] against
    the byte of [bs_b] captured one earlier.  The newest byte of [bs_a] and
    the last two of [bs_b] (its only byte, if it has one) are not printed. *)
Theorem first_report_is_shifted (fuel : nat) (bs_a bs_b : list byte) :
  (0 < length bs_a <= 127)%nat → length bs_b = length bs_a →
  (length bs_a < fuel)%nat →
  let n := length bs_a in
  let answer := x00 :: take (n - 1) bs_b in
  ∃ a b a' out,
    perform_all fuel (Capture <$> bs_a) (boot alpha) = Done tt a [] ∧
    perform_all fuel (Capture <$> bs_b) (boot beta) = Done tt b [] ∧
    beta_synchronize_tx fuel b = Done tt b (WireWrite <$> answer) ∧
    alpha_synchronize fuel answer a = Done (Z.of_nat n) a' out ∧
    wire_written out = x00 :: take (n - 1) bs_a ∧
    report fuel a'
    = Done tt a'
        (report_lines alpha (x00 :: take (n - 1) bs_a)
                            (x00 :: take (n - 1) answer)).
Proof.
  intros Hlen Hsame Hfuel n answer.
  destruct (captures_fill fuel bs_a [] (boot alpha) (boot_books_ok alpha) ltac:(cbn; lia))
    as (a & Hrun_a & Hbooks_a & Hr_a & Hid_a).
  destruct (captures_fill fuel bs_b [] (boot beta) (boot_books_ok beta) ltac:(cbn; lia))
    as (b & Hrun_b & Hbooks_b & Hr_b & _).
  cbn [app boot bytes_unreported our_id] in *.
  destruct (first_span bs_a a Hbooks_a Hr_a Hlen) as [HU_a Hspan_a].
  destruct (first_span bs_b b Hbooks_b Hr_b ltac:(lia)) as [HU_b Hspan_b].
  rewrite Hsame in Hspan_b. fold n in Hspan_a, Hspan_b. fold answer in Hspan_b.
  assert (Htheirs : their_books_ok [] a).
  { assert (Hboot : their_books_ok [] (boot alpha)) by (repeat split).
    exact (perform_all_their_books _ _ _ _ _ _ (boot_backlog_ok alpha) Hboot Hrun_a). }
  assert (Hla : length answer = n).
  { unfold answer. cbn [length]. rewrite length_take. lia. }
  pose proof Hbooks_a as ((Hok_a & _) & Hh_a & Hl_a & Ht_a & _).
  change (Z.to_nat (LOG_SIZE - 1)) with 127%nat in Ht_a.
  rewrite take_ge in Ht_a by lia.
  destruct (alpha_synchronize_answer fuel answer [] a Hok_a Hid_a
              ltac:(lia) ltac:(unfold LOG_SIZE; lia) ltac:(lia) ltac:(lia) Htheirs)
    as (a' & out & Hsync & Hwr & _ & (_ & Hl' & _) & Hok' & _ & Hu' & Hr' & Hid' & Hol' & _ & Ht').
  rewrite Hla in Hsync, Hu', Hr'. rewrite Hspan_a in Hwr. cbn [app] in Hl'.
  exists a, b, a', out. split_and!; try assumption.
  - rewrite beta_synchronize_tx_content;
      [|exact (proj1 (proj1 Hbooks_b))|unfold LOG_SIZE; lia|lia].
    now rewrite Hspan_b.
  - rewrite report_content;
      [|assumption|unfold LOG_SIZE; lia|unfold LOG_SIZE; lia|lia].
    rewrite Hid', Hid_a, Hol', Hl_a, Hl', Hu', Hr', Ht', Ht_a, HU_a, Hr_a.
    replace (unreported_head (0 + Z.of_nat n) (Z.of_nat (length bs_a) - Z.of_nat n)
               (Z.of_nat (length bs_a)) LOG_SIZE) with (LOG_SIZE - 1).
    + rewrite !log_span_from_last by (fold n; lia).
      now replace (Z.to_nat (0 + Z.of_nat n - 1)) with (n - 1)%nat by lia.
    + fold n. unfold unreported_head. cbv zeta.
      rewrite unsynched_head_as_mod by (unfold LOG_SIZE; lia).
      replace (Z.of_nat n - (Z.of_nat n - Z.of_nat n) - 1) with (Z.of_nat n - 1) by lia.
      rewrite (Z.mod_small (Z.of_nat n - 1)) by (unfold LOG_SIZE; lia).
      now replace (Z.of_nat n - 1 - (0 + Z.of_nat n) + LOG_SIZE) with (LOG_SIZE - 1) by lia.
Qed.

Lemma first_report_is_shifted_witness :
  let bs_a := [x11; x22; x33] in
  let bs_b := [xaa; xbb; xcc] in
  let n := length bs_a in
  let answer := x00 :: take (n - 1) bs_b in
  ∃ a b a' out,
    perform_all 4 (Capture <$> bs_a) (boot alpha) = Done tt a [] ∧
    perform_all 4 (Capture <$> bs_b) (boot beta) = Done tt b [] ∧
    beta_synchronize_tx 4 b = Done tt b (WireWrite <$> answer) ∧
    alpha_synchronize 4 answer a = Done (Z.of_nat n) a' out ∧
    wire_written out = x00 :: take (n - 1) bs_a ∧
    report 4 a'
    = Done tt a'
        (report_lines alpha (x00 :: take (n - 1) bs_a)
                            (x00 :: take (n - 1) answer)).
Proof.
  apply (first_report_is_shifted 4 [x11; x22; x33] [xaa; xbb; xcc]); cbn; lia.
Defined.

(** ** The earlier sketches *)

(** X18 (unsynced_head of spi_sniff.ino).  The head computed on bytes.  For
    logs of [LOG_SIZE] slots it is for every pair of bytes the head the
    later sketch computes on [int], a slot of the log; for a smaller log the
    sum can be negative, the remainder keeps the sign, and the conversion
    to a byte puts the result beyond the log. *)
Theorem unsynced_head_on_bytes (unsynced log_pos : Z) :
  0 <= unsynced < 256 → 0 <= log_pos < 256 →
  unsynced_head unsynced log_pos LOG_SIZE
    = Some (unsynched_head unsynced log_pos LOG_SIZE) ∧
  unsynched_head unsynced log_pos LOG_SIZE = (log_pos - unsynced - 1) mod LOG_SIZE ∧
  0 <= unsynched_head unsynced log_pos LOG_SIZE < LOG_SIZE ∧
  (∀ log_size, 0 < log_size < 256 → log_pos + 2 * log_size <= unsynced →
     (log_pos - unsynced - 1) mod log_size ≠ 0 →
     ∃ h, unsynced_head unsynced log_pos log_size = Some h ∧ log_size < h).
Proof.
  intros Hu Hp.
  assert (Hmod : unsynched_head unsynced log_pos LOG_SIZE
                 = (log_pos - unsynced - 1) mod LOG_SIZE).
  { unfold unsynched_head, LOG_SIZE. rewrite Z.rem_mod_nonneg by lia.
    now rewrite Z_mod_plus_full. }
  assert (Hrange : 0 <= unsynched_head unsynced log_pos LOG_SIZE < LOG_SIZE).
  { rewrite Hmod. apply Z.mod_pos_bound. unfold LOG_SIZE. lia. }
  split; [|split; [exact Hmod|split; [exact Hrange|]]].
  - unfold unsynced_head. change (LOG_SIZE =? 0) with false. cbn iota.
    fold (unsynched_head unsynced log_pos LOG_SIZE).
    rewrite Z.mod_small; [reflexivity | unfold LOG_SIZE in *; lia].
  - intros log_size Hs Hover Hrest.
    unfold unsynced_head. rewrite (proj2 (Z.eqb_neq log_size 0)) by lia.
    eexists. split; [reflexivity|].
    set (x := log_pos - unsynced - 1 + 2 * log_size).
    pose proof (Z.rem_bound_pos_neg x log_size ltac:(lia) ltac:(unfold x; lia)) as Hb.
    assert (Z.rem x log_size ≠ 0).
    { rewrite Z.rem_mod_eq_0 by lia. unfold x. now rewrite Z_mod_plus_full. }
    rewrite <- (Z_mod_plus_full (Z.rem x log_size) 1 256), Z.mod_small; lia.
Qed.

Lemma unsynced_head_on_bytes_witness :
  unsynced_head 3 3 LOG_SIZE = Some (unsynched_head 3 3 LOG_SIZE) ∧
  unsynched_head 3 3 LOG_SIZE = (3 - 3 - 1) mod LOG_SIZE ∧
  0 <= unsynched_head 3 3 LOG_SIZE < LOG_SIZE ∧
  (∀ log_size, 0 < log_size < 256 → 3 + 2 * log_size <= 3 →
     (3 - 3 - 1) mod log_size ≠ 0 →
     ∃ h, unsynced_head 3 3 log_size = Some h ∧ log_size < h).
Proof. apply (unsynced_head_on_bytes 3 3); lia. Defined.

(** On a log of 8 slots, 200 unsynchronised bytes and position 0 give 255. *)
Example unsynced_head_beyond_the_log : unsynced_head 200 0 8 = Some 255.
Proof. reflexivity. Qed.

Lemma take_succ_insert (l : list byte) (i : nat) (x : byte) :
  (i < length l)%nat → take (S i) (<[i:=x]> l) = take i l ++ [x].
Proof.
  intros Hi. rewrite insert_take_drop by assumption.
  replace (S i) with (length (take i l) + 1)%nat by (rewrite length_take; lia).
  now rewrite take_app_add.
Qed.

(** A burst on the dump sketch: the handler stores until the buffer is
    full, at its position, and from then on only sets the flag. *)
Lemma burst_fills (bs : list byte) :
  ∀ (acc : list byte) (st : Dump.sketch),
  length (Dump.buff st) = 512%nat →
  Dump.pos st = Z.of_nat (length acc) → (length acc <= 512)%nat →
  take (length acc) (Dump.buff st) = acc →
  ∃ st', Dump.burst bs st = Some st' ∧
    length (Dump.buff st') = 512%nat ∧
    Dump.pos st' = Z.of_nat (length (take 512 (acc ++ bs))) ∧
    take (length (take 512 (acc ++ bs))) (Dump.buff st') = take 512 (acc ++ bs) ∧
    Dump.buffer_full st'
      = (Dump.buffer_full st || (512 <? length acc + length bs)%nat)%bool ∧
    Dump.flushes st' = Dump.flushes st ∧ Dump.SPCR st' = Dump.SPCR st.
Proof.
  induction bs as [|b bs IH]; intros acc st Hlen Hpos Hacc Htake.
  - exists st. rewrite app_nil_r, take_ge by lia.
    replace (512 <? length acc + length [])%nat with false
      by (symmetry; apply Nat.ltb_ge; cbn; lia).
    rewrite orb_false_r. split_and!; done.
  - cbn [Dump.burst]. unfold Dump.ISR, Dump.buff_size.
    destruct (Z.ltb_spec (Dump.pos st) 512) as [Hroom|Hfull].
    + rewrite store_in_bounds by lia. cbn [mbind option_bind].
      destruct (IH (acc ++ [b])
                  (Dump.Sketch (<[Z.to_nat (Dump.pos st) := b]> (Dump.buff st))
                     (Dump.pos st + 1) (Dump.buffer_full st) (Dump.flushes st)
                     (Dump.SPCR st)))
        as (st' & Hrun & H1 & H2 & H3 & H4 & H5 & H6); cbn.
      * now rewrite length_insert.
      * rewrite length_app. cbn. lia.
      * rewrite length_app. cbn. lia.
      * rewrite length_app, Hpos, Nat2Z.id. cbn [length].
        replace (length acc + 1)%nat with (S (length acc)) by lia.
        rewrite take_succ_insert by lia. now rewrite Htake.
      * exists st'. rewrite <- app_assoc in H2, H3. cbn [app] in H2, H3.
        rewrite length_app in H4. cbn in H4, H5, H6.
        replace (length acc + 1 + length bs)%nat
          with (length acc + S (length bs))%nat in H4 by lia.
        split_and!; done.
    + assert (Hat : length acc = 512%nat) by lia.
      cbn [mbind option_bind].
      destruct (IH acc (Dump.Sketch (Dump.buff st) (Dump.pos st) true (Dump.flushes st)
                          (Dump.SPCR st)))
        as (st' & Hrun & H1 & H2 & H3 & H4 & H5 & H6);
        [exact Hlen | exact Hpos | exact Hacc | exact Htake |].
      exists st'. rewrite !take_app_le by lia.
      rewrite take_app_le in H2, H3 by lia.
      cbn [Dump.buffer_full Dump.flushes Dump.SPCR orb] in H4, H5, H6.
      replace (512 <? length acc + length (b :: bs))%nat with true
        by (symmetry; apply Nat.ltb_lt; cbn; lia).
      rewrite orb_true_r. split_and!; done.
Qed.

Lemma println_from_prints (todo : nat) :
  ∀ (i : nat) (b : list byte),
  (i + todo <= length b)%nat →
  Dump.println_from todo (Z.of_nat i) b
  = Some (Dump.Serial_println_HEX <$> take todo (drop i b)).
Proof.
  induction todo as [|todo IH]; intros i b Hlen; [reflexivity|].
  cbn [Dump.println_from].
  destruct (load_in_bounds b (Z.of_nat i)) as (x & Hload & Hx); [lia|].
  rewrite Nat2Z.id in Hx. rewrite Hload. cbn [mbind option_bind].
  replace (Z.of_nat i + 1) with (Z.of_nat (S i)) by lia.
  rewrite IH by lia. cbn [mbind option_bind].
  now rewrite (drop_S _ _ _ Hx).
Qed.

(** X19 (ISR(SPI_STC_vect) and loop of the dump sketch).  A flush costs a
    byte.  From an emptied buffer, a burst of at most [buff_size] bytes is
    stored in order and [loop] prints nothing, however long it waits; only
    a byte that finds the buffer full raises the flag, and is itself lost.
    Then [loop] prints the first [buff_size] bytes of the burst, in order,
    and the running count, empties the buffer and leaves the interrupt
    enabled; the rest of the burst is gone, and no access fell outside the
    buffer. *)
Theorem flush_costs_a_byte (SPIE : Z) (bs : list byte) (st : Dump.sketch) :
  length (Dump.buff st) = 512%nat →
  Dump.pos st = 0 → Dump.buffer_full st = false →
  Dump.flushes st ≠ Dump.INT_MAX → 0 <= SPIE < 8 →
  ∃ st', Dump.burst bs st = Some st' ∧
    ((length bs <= 512)%nat →
       Dump.loop SPIE st' = Some (st', []) ∧
       Dump.pos st' = Z.of_nat (length bs) ∧
       take (length bs) (Dump.buff st') = bs) ∧
    ((512 < length bs)%nat →
       ∃ st'',
         Dump.loop SPIE st'
         = Some (st'', (Dump.Serial_println_HEX <$> take 512 bs)
                       ++ [Dump.Serial_print Dump.banner;
                           Dump.Serial_println_DEC (Dump.flushes st)]) ∧
         Dump.buff st'' = take 512 bs ∧
         Dump.pos st'' = 0 ∧ Dump.buffer_full st'' = false ∧
         Dump.flushes st'' = Dump.flushes st + 1 ∧
         Z.testbit (Dump.SPCR st'') SPIE = true).
Proof.
  intros Hlen Hpos Hflag Hcount HSPIE.
  destruct (burst_fills bs [] st Hlen Hpos ltac:(cbn; lia) eq_refl)
    as (st' & Hrun & H1 & H2 & H3 & H4 & H5 & H6).
  cbn [app length Nat.add] in *. rewrite Hflag in H4. cbn [orb] in H4.
  exists st'. split; [exact Hrun|]. split; intros Hbs.
  - rewrite (take_ge bs 512) in H2, H3 by lia.
    unfold Dump.loop. rewrite H4, (proj2 (Nat.ltb_ge 512 (length bs))) by lia.
    split_and!; done.
  - rewrite length_take in H2, H3.
    replace (512 `min` length bs)%nat with 512%nat in H2, H3 by lia.
    rewrite (take_ge (Dump.buff st') 512) in H3 by lia.
    unfold Dump.loop. rewrite H4, (proj2 (Nat.ltb_lt 512 (length bs))) by lia.
    change (Z.to_nat Dump.buff_size) with 512%nat.
    pose proof (println_from_prints 512 0 (Dump.buff st') ltac:(cbn; lia)) as Hlines.
    change (Z.of_nat 0) with 0 in Hlines.
    change (drop 0 (Dump.buff st')) with (Dump.buff st') in Hlines.
    rewrite (take_ge (Dump.buff st') 512) in Hlines by lia.
    rewrite Hlines. cbn [mbind option_bind].
    rewrite H5, (proj2 (Z.eqb_neq _ _)) by assumption.
    eexists. split; [rewrite H3; reflexivity|]. cbn.
    split_and!; try done.
    change 256 with (2 ^ 8). rewrite Z.mod_pow2_bits_low by lia.
    rewrite Z.lor_spec, Z.shiftl_spec, Z.sub_diag by lia.
    apply orb_true_r.
Qed.

Lemma flush_costs_a_byte_witness :
  let st := Dump.Sketch (replicate 512 x00) 0 false 0 0 in
  let bs := [x11; x22] in
  ∃ st', Dump.burst bs st = Some st' ∧
    ((length bs <= 512)%nat →
       Dump.loop 7 st' = Some (st', []) ∧
       Dump.pos st' = Z.of_nat (length bs) ∧
       take (length bs) (Dump.buff st') = bs) ∧
    ((512 < length bs)%nat →
       ∃ st'',
         Dump.loop 7 st'
         = Some (st'', (Dump.Serial_println_HEX <$> take 512 bs)
                       ++ [Dump.Serial_print Dump.banner;
                           Dump.Serial_println_DEC (Dump.flushes st)]) ∧
         Dump.buff st'' = take 512 bs ∧
         Dump.pos st'' = 0 ∧ Dump.buffer_full st'' = false ∧
         Dump.flushes st'' = Dump.flushes st + 1 ∧
         Z.testbit (Dump.SPCR st'') 7 = true).
Proof.
  apply (flush_costs_a_byte 7 [x11; x22] (Dump.Sketch (replicate 512 x00) 0 false 0 0)).
  - reflexivity.
  - reflexivity.
  - reflexivity.
  - discriminate.
  - lia.
Defined.

(** ** The ring buffer with the handler in between: still a queue *)

Section Linear.

Variables w k : Z.
Variable main : side.
Hypothesis width : 0 <= k < w - 1.

(** Storing into the slot behind the unread items does not touch them. *)
Lemma store_keeps_contents (item : byte) (r : ring) :
  ring_ok w (2 ^ k) r → unread w r < 2 ^ k →
  contents w (2 ^ k)
    (Ring (<[Z.to_nat (writes r mod 2 ^ k) := item]> (buff r)) (reads r) (writes r))
  = contents w (2 ^ k) r.
Proof.
  intros Hok Hroom.
  destruct (queue_sizes w k width) as (Hw & Hpos & Hcap & _).
  pose proof (unread_nonneg w (2 ^ k) Hw Hcap r) as Hn.
  unfold contents, unread. cbn [buff reads writes]. fold (unread w r).
  apply list_fmap_ext. intros i j Hj.
  apply lookup_seq in Hj. destruct Hj as [Hi Hlt]. cbn in Hi. subst j.
  apply list_lookup_total_insert_ne.
  assert (Hfresh := slot_of_unread_fresh w k width r (Z.of_nat i) ltac:(lia) ltac:(lia)).
  assert (0 <= (reads r + Z.of_nat i) mod 2 ^ k) by (apply Z.mod_pos_bound; lia).
  assert (0 <= writes r mod 2 ^ k) by (apply Z.mod_pos_bound; lia).
  lia.
Qed.

(** Moving [writes] on makes the slot it passes the newest unread item. *)
Lemma incr_appends (r : ring) :
  ring_ok w (2 ^ k) r → unread w r < 2 ^ k →
  contents w (2 ^ k) (Ring (buff r) (reads r) (to_unsigned w (writes r + 1)))
  = contents w (2 ^ k) r ++ [buff r !!! Z.to_nat (writes r mod 2 ^ k)].
Proof.
  intros Hok Hroom.
  destruct (queue_sizes w k width) as (Hw & Hpos & Hcap & _).
  destruct (buff_write_appends w k width (buff r !!! Z.to_nat (writes r mod 2 ^ k)) r Hok Hroom)
    as (r' & Hwr & _ & Hc).
  rewrite (buff_write_stores w k width _ r Hok Hroom) in Hwr.
  inversion Hwr as [Hr']. rewrite <- Hr' in Hc.
  rewrite list_insert_id in Hc; [exact Hc|].
  apply list_lookup_lookup_total_lt.
  destruct Hok as (Hlen & _).
  pose proof (Z.mod_pos_bound (writes r) (2 ^ k) Hpos). lia.
Qed.

(** Moving [reads] on takes the slot it passes off the unread items. *)
Lemma incr_pops (r : ring) :
  ring_ok w (2 ^ k) r → 0 < unread w r →
  contents w (2 ^ k) r
  = buff r !!! Z.to_nat (reads r mod 2 ^ k)
    :: contents w (2 ^ k) (Ring (buff r) (to_unsigned w (reads r + 1)) (writes r)).
Proof.
  intros Hok Hsome.
  destruct (buff_read_pops w k width x00 r Hok Hsome) as (v & r' & Hrd & _ & Hc).
  rewrite (buff_read_loads w k width _ r Hok Hsome) in Hrd.
  inversion Hrd as [[Hv Hr']]. now rewrite <- Hv, <- Hr' in Hc.
Qed.

Lemma interleaved_queue (s s' : progress * ring) :
  ring_ok w (2 ^ k) (snd s) →
  progress_ok w (2 ^ k) main (fst s) (snd s) →
  progress_sees w (2 ^ k) (fst s) (snd s) →
  interleaved w (2 ^ k) main s s' →
  progress_sees w (2 ^ k) (fst s') (snd s') ∧
  (contents w (2 ^ k) (snd s') = contents w (2 ^ k) (snd s) ∨
   (∃ item, contents w (2 ^ k) (snd s') = contents w (2 ^ k) (snd s) ++ [item] ∧
            (fst s = WriteStored ∨ main = Consumer ∧ fst s' = fst s)) ∨
   (∃ v, contents w (2 ^ k) (snd s) = v :: contents w (2 ^ k) (snd s') ∧
         (fst s = ReadLoaded v ∨ main = Producer ∧ fst s' = fst s))).
Proof.
  intros Hok Hp Hsees Hstep.
  destruct (queue_sizes w k width) as (Hw & Hpos & Hcap & _).
  destruct (capacity_as_unsigned w k width) as (Hu1 & Hu2 & _).
  destruct Hstep as [[p r] [p' r'] Hmain Hmicro | [p r] [p' r'] Hmain Hmicro
                    | p item r res Hmain Hcall | p item r res Hmain Hcall];
    cbn [fst snd] in *.
  - inversion Hmicro; subst; cbn [progress_sees progress_ok] in *;
      try (split; [exact I|]; left; reflexivity).
    + (* the store *)
      split; [exact I|]. left.
      match goal with H : store _ _ _ = Some _ |- _ => rename H into Hst end.
      rewrite Hu2, land_mask_pow2 in Hst by lia.
      unfold store in Hst. destruct (decide _); [|discriminate]. inversion Hst; subst.
      apply store_keeps_contents; tauto.
    + (* the increment of [writes] *)
      split; [exact I|]. right. left. eexists. split; [|left; reflexivity].
      apply incr_appends; tauto.
  - inversion Hmicro; subst; cbn [progress_sees progress_ok] in *;
      try (split; [exact I|]; left; reflexivity).
    + (* the load of the slot *)
      match goal with H : load _ _ = Some _ |- _ => rename H into Hld end.
      rewrite Hu2, land_mask_pow2 in Hld by lia.
      apply load_lookup_total in Hld.
      split; [|left; reflexivity].
      rewrite (incr_pops r') by (tauto || lia). rewrite Hld. eauto.
    + (* the increment of [reads] *)
      split; [exact I|]. right. right. exists v. split; [|left; reflexivity].
      destruct Hsees as [rest Hrest].
      rewrite (incr_pops r) in Hrest |- * by (tauto || lia).
      inversion Hrest; subst. reflexivity.
  - (* a read by the handler *)
    assert (Hnot : ∀ v, p ≠ ReadLoaded v).
    { intros v ->. cbn in Hp. destruct Hp as [Hc _]. congruence. }
    assert (Hsees' : ∀ r1, progress_sees w (2 ^ k) p r1).
    { intros r1. destruct p; try exact I. now destruct (Hnot v). }
    split; [apply Hsees'|].
    pose proof (unread_nonneg w (2 ^ k) Hw Hcap r) as Hn.
    destruct (Z.eq_dec (unread w r) 0) as [Hempty|Hsome].
    + apply (unread_zero_iff w (2 ^ k) Hw Hcap r Hok) in Hempty.
      unfold buff_read in Hcall. rewrite Hempty, Z.eqb_refl in Hcall.
      inversion Hcall; subst. left. reflexivity.
    + destruct (buff_read_pops w k width item r Hok ltac:(lia)) as (v & r1 & Hrd & _ & Hc).
      rewrite Hrd in Hcall. inversion Hcall; subst. cbn [snd].
      right. right. exists v. split; [exact Hc|]. right. auto.
  - (* a write by the handler *)
    pose proof Hok as (_ & _ & _ & Hfull).
    destruct (Z.eq_dec (unread w r) (2 ^ k)) as [Hfilled|Hroom].
    + unfold buff_write in Hcall.
      rewrite (ring_ok_items w (2 ^ k) Hw Hcap r Hok), Hfilled, Hu1, Z.eqb_refl in Hcall.
      inversion Hcall; subst. cbn [snd]. split; [exact Hsees|]. left. reflexivity.
    + destruct (buff_write_appends w k width item r Hok ltac:(lia)) as (r1 & Hw1 & _ & Hc).
      rewrite Hw1 in Hcall. inversion Hcall; subst. cbn [snd]. split.
      * destruct p; try exact I. destruct Hsees as [rest Hrest].
        cbn. rewrite Hc, Hrest. eauto.
      * right. left. exists item. split; [exact Hc|]. right. auto.
Qed.

End Linear.

(** X20 (buff_write, buff_read with an interrupt handler on the other end).
    The ring buffer stays a queue when the main program's call is
    interrupted between any two of its accesses by whole calls of the
    handler.  Every step of the pair either leaves the unread items as they
    are (in particular the store of [buff_write] into the slot behind them,
    and every full or empty outcome), or appends one item at the back (the
    increment of [writes], or a write by the handler: its item), or removes
    the oldest item (the increment of [reads]: the byte the main program had
    loaded; or a read by the handler: the byte it returns).  The byte the
    main program has loaded stays the oldest unread item whatever the
    handler writes meanwhile. *)
Theorem interrupted_ring_is_a_queue (w k : Z) (main : side) (s s' : progress * ring) :
  0 <= k < w - 1 →
  ring_ok w (2 ^ k) (snd s) →
  progress_ok w (2 ^ k) main (fst s) (snd s) →
  progress_sees w (2 ^ k) (fst s) (snd s) →
  interleaved w (2 ^ k) main s s' →
  ring_ok w (2 ^ k) (snd s') ∧
  progress_ok w (2 ^ k) main (fst s') (snd s') ∧
  progress_sees w (2 ^ k) (fst s') (snd s') ∧
  (contents w (2 ^ k) (snd s') = contents w (2 ^ k) (snd s) ∨
   (∃ item, contents w (2 ^ k) (snd s') = contents w (2 ^ k) (snd s) ++ [item] ∧
            (fst s = WriteStored ∨ main = Consumer ∧ fst s' = fst s)) ∨
   (∃ v, contents w (2 ^ k) (snd s) = v :: contents w (2 ^ k) (snd s') ∧
         (fst s = ReadLoaded v ∨ main = Producer ∧ fst s' = fst s))).
Proof.
  intros Hk Hok Hp Hsees Hstep.
  assert (Hw : 0 < w) by lia.
  assert (Hcap : 0 <= 2 ^ k < 2 ^ (w - 1)).
  { split; [apply Z.pow_nonneg; lia | apply Z.pow_lt_mono_r; lia]. }
  destruct (interleaved_ok w (2 ^ k) main Hw Hcap s s' Hstep (conj Hok Hp)) as [Hok' Hp'].
  destruct (interleaved_queue w k main Hk s s' Hok Hp Hsees Hstep) as [Hsees' Hq].
  split_and!; assumption.
Qed.

Lemma interrupted_ring_is_a_queue_witness :
  let s := (WriteStored, Ring [x11; x22; x00; x00] 0 1) in
  let s' := (Idle, Ring [x11; x22; x00; x00] 0 2) in
  ring_ok 16 (2 ^ 2) (snd s') ∧
  progress_ok 16 (2 ^ 2) Producer (fst s') (snd s') ∧
  progress_sees 16 (2 ^ 2) (fst s') (snd s') ∧
  (contents 16 (2 ^ 2) (snd s') = contents 16 (2 ^ 2) (snd s) ∨
   (∃ item, contents 16 (2 ^ 2) (snd s') = contents 16 (2 ^ 2) (snd s) ++ [item] ∧
            (fst s = WriteStored ∨ Producer = Consumer ∧ fst s' = fst s)) ∨
   (∃ v, contents 16 (2 ^ 2) (snd s) = v :: contents 16 (2 ^ 2) (snd s') ∧
         (fst s = ReadLoaded v ∨ Producer = Producer ∧ fst s' = fst s))).
Proof.
  apply (interrupted_ring_is_a_queue 16 2 Producer
           (WriteStored, Ring [x11; x22; x00; x00] 0 1)
           (Idle, Ring [x11; x22; x00; x00] 0 2)).
  - lia.
  - concrete.
  - concrete.
  - exact I.
  - apply main_writes; [reflexivity|].
    exact (write_incr 16 (2 ^ 2) (Ring [x11; x22; x00; x00] 0 1)).
Defined.

(** The same, seen on the sketch's buffer: the store of an interrupted
    write leaves the unread byte alone, and the increment publishes the new
    one behind it. *)
Example interrupted_write_publishes_last :
  contents 16 4 (Ring [x11; x00; x00; x00] 0 1) = [x11] ∧
  contents 16 4 (Ring [x11; x22; x00; x00] 0 1) = [x11] ∧
  contents 16 4 (Ring [x11; x22; x00; x00] 0 2) = [x11; x22].
Proof. repeat split. Qed.

(** ** Round after round: the stream a responder sends *)

Lemma perform_all_app (fuel : nat) (a1 : list action) :
  ∀ (a2 : list action) (st st1 st2 : node) (o1 o2 : list event),
  perform_all fuel a1 st = Done tt st1 o1 →
  perform_all fuel a2 st1 = Done tt st2 o2 →
  perform_all fuel (a1 ++ a2) st = Done tt st2 (o1 ++ o2).
Proof.
  induction a1 as [|a a1 IH]; intros a2 st st1 st2 o1 o2 H1 H2.
  - cbn in H1. inversion H1; subst. exact H2.
  - cbn [perform_all app] in *. unfold mbind, M_bind in *.
    destruct (perform fuel a st) as [[] sta oa| |]; try discriminate.
    destruct (perform_all fuel a1 sta) as [[] stb ob| |] eqn:Hrest; try discriminate.
    cbn [after] in H1. inversion H1; subst.
    rewrite (IH a2 sta st1 st2 ob o2 Hrest H2). cbn [after].
    now rewrite app_assoc.
Qed.

Lemma log_span_congr (log : list byte) (s s' n : Z) :
  s mod LOG_SIZE = s' mod LOG_SIZE → log_span log s n = log_span log s' n.
Proof.
  intros Heq. unfold log_span. apply list_fmap_ext. intros _ j _. cbn.
  do 2 f_equal.
  rewrite <- (Zplus_mod_idemp_l s), <- (Zplus_mod_idemp_l s'). now rewrite Heq.
Qed.

(** A stretch of a log that has not wrapped, read from one slot before
    position [a]: the same stretch of the bytes with a zero put in front. *)
Lemma log_span_lagging (xs : list byte) (a m : nat) :
  (length xs <= 127)%nat → (a + m <= length xs + 1)%nat →
  log_span (log_of xs) (Z.of_nat a + (LOG_SIZE - 1)) (Z.of_nat m)
  = take m (drop a (x00 :: xs)).
Proof.
  intros Hlen. revert a. induction m as [|m IH]; intros a Ham.
  - now rewrite take_0.
  - rewrite log_span_cons by lia.
    replace (Z.of_nat a + (LOG_SIZE - 1) + 1) with (Z.of_nat (S a) + (LOG_SIZE - 1)) by lia.
    replace (Z.of_nat (S m) - 1) with (Z.of_nat m) by lia.
    rewrite IH by lia.
    assert (Hx : (x00 :: xs) !! a
                 = Some (log_of xs !!! Z.to_nat ((Z.of_nat a + (LOG_SIZE - 1)) `mod` LOG_SIZE))).
    { unfold log_of. change (Z.to_nat (LOG_SIZE - 1)) with 127%nat.
      change (Z.to_nat LOG_SIZE) with 128%nat. rewrite take_ge by lia.
      destruct a as [|a].
      - change (Z.to_nat ((Z.of_nat 0 + (LOG_SIZE - 1)) `mod` LOG_SIZE)) with 127%nat.
        rewrite lookup_total_app_r by lia. cbn. f_equal. symmetry.
        apply lookup_total_replicate_2. lia.
      - replace ((Z.of_nat (S a) + (LOG_SIZE - 1)) `mod` LOG_SIZE) with (Z.of_nat a).
        + rewrite Nat2Z.id, lookup_total_app_l by lia. cbn.
          apply list_lookup_lookup_total_lt. lia.
        + unfold LOG_SIZE.
          replace (Z.of_nat (S a) + (128 - 1)) with (Z.of_nat a + 1 * 128) by lia.
          rewrite Z_mod_plus_full, Z.mod_small; lia. }
    now rewrite (drop_S _ _ _ Hx).
Qed.

(** One round of the responder, on top of the rounds before. *)
Lemma responder_round_step (fuel : nat) (done burst delivered rs : list byte) (st : node) :
  books_ok done st → their_books_ok rs st →
  bytes_unsynched st = 0 →
  length delivered = length burst →
  (length done + length burst <= 127)%nat → (length burst < fuel)%nat →
  ∃ st' out,
    perform_all fuel (responder_round (burst, delivered)) st = Done tt st' out ∧
    wire_written out = take (length burst) (drop (length done) (x00 :: done ++ burst)) ∧
    occurrences is_unsynchronized out = 0 ∧
    books_ok (done ++ burst) st' ∧ their_books_ok (rs ++ delivered) st' ∧
    bytes_unsynched st' = 0.
Proof.
  intros Hbooks Htheirs HU Hsame Hfit Hfuel.
  destruct (captures_fill fuel burst done st Hbooks Hfit)
    as (st1 & Hrun1 & Hbooks1 & Hr1 & _).
  pose proof (perform_all_their_books _ _ _ _ _ _ (proj1 Hbooks) Htheirs Hrun1) as Htheirs1.
  cbn [wire_reads omap] in Htheirs1. rewrite app_nil_r in Htheirs1.
  pose proof Hbooks as (_ & _ & _ & Ht & Hsum).
  pose proof Hbooks1 as ((Hok1 & Hle1) & Hh1 & Hl1 & Ht1 & Hsum1).
  change (Z.to_nat (LOG_SIZE - 1)) with 127%nat in Ht, Ht1.
  rewrite take_ge in Ht by lia.
  rewrite take_ge, length_app in Ht1 by (rewrite length_app; lia).
  assert (HU1 : bytes_unsynched st1 = Z.of_nat (length burst)) by lia.
  (* the answer *)
  pose proof (beta_synchronize_tx_content fuel st1 Hok1
                ltac:(unfold LOG_SIZE; lia) ltac:(lia)) as Htx.
  rewrite HU1, Ht1, Hl1 in Htx.
  rewrite (log_span_congr _ _ (Z.of_nat (length done) + (LOG_SIZE - 1))) in Htx.
  2:{ unfold unsynched_head. rewrite Z.rem_mod_nonneg by (unfold LOG_SIZE; lia).
      rewrite Z.mod_mod by (unfold LOG_SIZE; lia).
      replace (Z.of_nat (length done + length burst) - Z.of_nat (length burst) - 1
               + 2 * LOG_SIZE)
        with (Z.of_nat (length done) + (LOG_SIZE - 1) + 1 * LOG_SIZE) by lia.
      now rewrite Z_mod_plus_full. }
  rewrite log_span_lagging in Htx by (rewrite length_app; lia).
  (* the initiator's bytes *)
  destruct (Wire_onReceive_trace fuel delivered rs st1 Hok1 ltac:(lia) Htheirs1)
    as (st2 & rxout & Hrx & _ & Hwr & Htheirs2 & Hok2 & _ & Hu2 & Hr2 & _ & Hl2 & Hh2 & Ht2).
  destruct (Wire_onReceive_round fuel delivered st1 Hok1 ltac:(lia))
    as (st2' & out2' & Hrx' & _ & _ & Hflag & _).
  rewrite Hrx in Hrx'. inversion Hrx'; subst st2' out2'. clear Hrx'.
  rewrite HU1, Hsame, Z.eqb_refl in Hrx, Hflag.
  assert (Hrest : perform_all fuel [OnRequest; OnReceive delivered] st1
                  = Done tt st2
                      ((WireWrite <$> take (length burst)
                                        (drop (length done) (x00 :: done ++ burst)))
                       ++ (rxout ++ []) ++ [])).
  { cbn [perform_all perform]. rewrite (bind_done _ _ st1 tt st1 _ Htx). cbn beta.
    rewrite (bind_done _ _ st1 tt st2 _ Hrx). reflexivity. }
  eexists _, _. split; [exact (perform_all_app _ _ _ _ _ _ _ _ Hrun1 Hrest)|].
  cbn [app]. rewrite !app_nil_r in *.
  rewrite wire_written_app, wire_written_writes, Hwr, app_nil_r.
  rewrite occurrences_app, Hflag, (wire_writes_only is_unsynchronized);
    [|reflexivity|apply Forall_fmap, Forall_forall; intros b _; cbn; eauto].
  pose proof (held_range (our_log_head st2) (our_log_tail st2)).
  split_and!; try done; try lia.
  unfold books_ok, backlog_ok.
  change (Z.to_nat (LOG_SIZE - 1)) with 127%nat.
  rewrite take_ge, length_app by (rewrite length_app; lia).
  split_and!; try congruence; try lia.
Qed.

Lemma responder_rounds_run (fuel : nat) (rounds : list (list byte * list byte)) :
  ∀ (done rs : list byte) (st : node),
  books_ok done st → their_books_ok rs st → bytes_unsynched st = 0 →
  Forall (λ round, length (snd round) = length (fst round)) rounds →
  (length done + length (bursts rounds) <= 127)%nat →
  (length (bursts rounds) < fuel)%nat →
  ∃ st' out,
    perform_all fuel (responder_rounds rounds) st = Done tt st' out ∧
    wire_written out
    = take (length (bursts rounds)) (drop (length done) (x00 :: done ++ bursts rounds)) ∧
    occurrences is_unsynchronized out = 0 ∧
    books_ok (done ++ bursts rounds) st' ∧ bytes_unsynched st' = 0.
Proof.
  induction rounds as [|[burst delivered] rounds IH];
    intros done rs st Hbooks Htheirs HU Hall Hfit Hfuel.
  - exists st, []. cbn. rewrite app_nil_r, take_0. split_and!; done.
  - apply Forall_cons in Hall as [Hsame Hall]. cbn [fst snd] in Hsame.
    unfold bursts in *. cbn [fmap list_fmap concat fst] in *.
    rewrite length_app in Hfit, Hfuel.
    destruct (responder_round_step fuel done burst delivered rs st
                Hbooks Htheirs HU Hsame ltac:(lia) ltac:(lia))
      as (st1 & out1 & Hrun1 & Hwr1 & Hun1 & Hbooks1 & Htheirs1 & HU1).
    destruct (IH (done ++ burst) (rs ++ delivered) st1 Hbooks1 Htheirs1 HU1 Hall)
      as (st2 & out2 & Hrun2 & Hwr2 & Hun2 & Hbooks2 & HU2).
    { rewrite length_app. lia. }
    { lia. }
    exists st2, (out1 ++ out2).
    unfold responder_rounds. cbn [fmap list_fmap concat].
    split; [exact (perform_all_app _ _ _ _ _ _ _ _ Hrun1 Hrun2)|].
    rewrite wire_written_app, Hwr1, Hwr2, occurrences_app, Hun1, Hun2.
    rewrite <- !app_assoc in *. rewrite length_app in *.
    split_and!; try done.
    set (z := x00 :: done ++ burst ++ concat (fst <$> rounds)).
    assert (Hz : take (length burst) (drop (length done) (x00 :: done ++ burst))
                 = take (length burst) (drop (length done) z)).
    { unfold z. rewrite !take_drop_commute. f_equal.
      replace (x00 :: done ++ burst ++ concat (fst <$> rounds))
        with ((x00 :: done ++ burst) ++ concat (fst <$> rounds))
        by (cbn [app]; now rewrite <- app_assoc).
      now rewrite take_app_le by (cbn [length]; rewrite length_app; lia). }
    rewrite Hz, <- (drop_drop z (length burst) (length done)).
    now rewrite take_take_drop, length_app.
Qed.

(** X21 (ISR(SPI_STC_vect), beta_synchronize_tx, beta_synchronize_rx).
    Round after round the responder sends one stream, one byte behind.  Let
    the responder live through any number of rounds from boot, each a burst
    of captured bytes, the request, and as many bytes from the initiator as
    the burst had, no more than 127 bytes in all.  Every step is defined,
    no round lights the unsynchronised indicator, the backlog is 0 after
    each round, and the answers of all rounds together are the zero of boot
    followed by the captured bytes in order, the newest still withheld:
    each byte is sent exactly once, in the round after the one it was
    captured in if it was the last of its burst. *)
Theorem responder_stream_lags_by_one (fuel : nat) (rounds : list (list byte * list byte)) :
  Forall (λ round, length (snd round) = length (fst round)) rounds →
  (length (bursts rounds) <= 127)%nat →
  (length (bursts rounds) < fuel)%nat →
  ∃ st out,
    perform_all fuel (responder_rounds rounds) (boot beta) = Done tt st out ∧
    wire_written out = take (length (bursts rounds)) (x00 :: bursts rounds) ∧
    occurrences is_unsynchronized out = 0 ∧
    our_log st = log_of (bursts rounds) ∧
    bytes_unsynched st = 0 ∧
    bytes_unreported st = Z.of_nat (length (bursts rounds)).
Proof.
  intros Hall Hfit Hfuel.
  assert (Hboot : their_books_ok [] (boot beta)) by (repeat split).
  destruct (responder_rounds_run fuel rounds [] [] (boot beta)
              (boot_books_ok beta) Hboot eq_refl Hall ltac:(cbn; lia) Hfuel)
    as (st & out & Hrun & Hwr & Hun & (_ & _ & Hl & Ht & Hsum) & HU).
  cbn [app length drop] in *.
  change (Z.to_nat (LOG_SIZE - 1)) with 127%nat in Ht.
  rewrite take_ge in Ht by lia.
  exists st, out. split_and!; try done. lia.
Qed.

Lemma responder_stream_lags_by_one_witness :
  let rounds := [([x11; x22], [xaa; xbb]); ([x33], [xcc])] in
  ∃ st out,
    perform_all 4 (responder_rounds rounds) (boot beta) = Done tt st out ∧
    wire_written out = take (length (bursts rounds)) (x00 :: bursts rounds) ∧
    occurrences is_unsynchronized out = 0 ∧
    our_log st = log_of (bursts rounds) ∧
    bytes_unsynched st = 0 ∧
    bytes_unreported st = Z.of_nat (length (bursts rounds)).
Proof.
  apply (responder_stream_lags_by_one 4 [([x11; x22], [xaa; xbb]); ([x33], [xcc])]).
  - repeat constructor.
  - cbn. lia.
  - cbn. lia.
Defined.
